(** * noteshrink: a shallow embedding of the colour-reduction pipeline

    The Go package [noteshrink] (file [noteshrink.go]) turns a scanned page
    into an image with a small palette.  This development embeds its
    functions one by one and proves properties of them.

    - [float32] values are IEEE 754 binary32 numbers, computed with the
      executable operations of [SpecFloat] at precision 24 and maximal
      exponent 128 (round to nearest, ties to even, one rounding per
      operation, as the amd64 compiler emits them).
    - A Go slice is a [list]; [a[i]] is [index a i] and [a[i] = x] is
      [store a i x], both of which panic out of range.
    - A Go [int] is an integer of [Z]; where the code subtracts, the
      64-bit wrap-around is written out; the increments count elements of
      a slice and cannot overflow.
    - A run-time panic is the [Panic] outcome of the [result] monad.
    - The global random source used by [rand.Shuffle] is an explicit
      argument [rnd]. *)

From Stdlib Require Import ZArith Lia Bool Floats.SpecFloat.
From stdpp Require Import base option list.

(** ** binary32 arithmetic *)

(** [float32] *)
Abbreviation float32 := spec_float.

Module f32.

Definition prec : Z := 24.
Definition emax : Z := 128.

Definition add (a b : float32) : float32 := SFadd prec emax a b.
Definition sub (a b : float32) : float32 := SFsub prec emax a b.
Definition mul (a b : float32) : float32 := SFmul prec emax a b.
Definition div (a b : float32) : float32 := SFdiv prec emax a b.
Definition neg (a : float32) : float32 := SFopp a.

(** Go's [a < b], [a > b], [a >= b] and [a == b] on float32. *)
Definition lt (a b : float32) : bool := SFltb a b.
Definition gt (a b : float32) : bool := SFltb b a.
Definition ge (a b : float32) : bool := SFleb b a.
Definition le (a b : float32) : bool := SFleb a b.
Definition eq (a b : float32) : bool := SFeqb a b.

(** [float32(n)] for an integer [n]. *)
Definition of_int (n : Z) : float32 := binary_normalize prec emax n 0 false.

Definition zero : float32 := S754_zero false.
Definition one : float32 := of_int 1.
Definition nan : float32 := S754_nan.

Definition min_int64 : Z := -9223372036854775808.
Definition max_int64 : Z := 9223372036854775807.

(** [int(x)]: the fraction is discarded (truncation towards zero).  Go
    leaves the result unspecified when the value does not fit; the amd64
    conversion instruction then yields the least int64, which is what is
    modelled here. *)
Definition to_int (x : float32) : Z :=
  match x with
  | S754_zero _ => 0
  | S754_finite s m e =>
      let a := Z.shiftl (Zpos m) e in
      let v := if s then (- a)%Z else a in
      if (min_int64 <=? v)%Z && (v <=? max_int64)%Z then v else min_int64
  | _ => min_int64
  end.

(** [uint8(x)]: truncation, then the low eight bits. *)
Definition to_uint8 (x : float32) : Z := (to_int x mod 256)%Z.

Definition is_finite (x : float32) : bool :=
  match x with
  | S754_zero _ | S754_finite _ _ _ => true
  | _ => false
  end.

(** The exact value of a finite float times [n], rounded down to an
    integer: [floor (n * m * 2^e)]. *)
Definition floor_scaled (n : Z) (x : float32) : Z :=
  match x with
  | S754_finite s m e =>
      let num := (n * (if s then Zneg m else Zpos m))%Z in
      match e with
      | Zneg p => (num / Zpos (2 ^ p))%Z
      | _ => (num * 2 ^ e)%Z
      end
  | _ => 0
  end.

End f32.

(** ** int

    A Go [int] is a 64-bit integer; a subtraction wraps around. *)
Definition int_wrap (z : Z) : Z :=
  ((z - f32.min_int64) mod 2 ^ 64 + f32.min_int64)%Z.

Definition int_sub (a b : Z) : Z := int_wrap (a - b).

Declare Scope f32_scope.
Delimit Scope f32_scope with f32.
Infix "+" := f32.add : f32_scope.
Infix "-" := f32.sub : f32_scope.
Infix "*" := f32.mul : f32_scope.
Infix "/" := f32.div : f32_scope.
Notation "- x" := (f32.neg x) : f32_scope.
Infix "<?" := f32.lt : f32_scope.
Infix ">?" := f32.gt : f32_scope.
Infix ">=?" := f32.ge : f32_scope.
Infix "=?" := f32.eq : f32_scope.
Notation "0" := f32.zero : f32_scope.
Notation "1" := f32.one : f32_scope.
Notation "6" := (f32.of_int 6) : f32_scope.
Notation "255" := (f32.of_int 255) : f32_scope.

#[global] Instance spec_float_eq_dec : EqDecision spec_float.
Proof. solve_decision. Defined.

(** ** Run-time panics *)

Inductive runtime_error : Type :=
  | IndexOutOfRange (index len : nat)
  | NegativeDimensions.

Inductive result (A : Type) : Type :=
  | Ok (a : A)
  | Panic (e : runtime_error).
Arguments Ok {A} a.
Arguments Panic {A} e.

#[global] Instance result_ret : MRet result := fun A a => Ok a.
#[global] Instance result_bind : MBind result := fun A B f m =>
  match m with
  | Ok a => f a
  | Panic e => Panic e
  end.

(** [a[i]] *)
Definition index {A} (a : list A) (i : nat) : result A :=
  match a !! i with
  | Some x => Ok x
  | None => Panic (IndexOutOfRange i (length a))
  end.

(** [a[i] = x] *)
Definition store {A} (a : list A) (i : nat) (x : A) : result (list A) :=
  if decide (i < length a) then Ok (<[i:=x]> a)
  else Panic (IndexOutOfRange i (length a)).

(** [for i := lo; i < hi; i++ { body }], state passed through the body. *)
Fixpoint for_count {St} (n i : nat) (body : nat → St → result St) (s : St)
  : result St :=
  match n with
  | O => Ok s
  | S n' => s' ← body i s; for_count n' (S i) body s'
  end.

Definition for_loop {St} (lo hi : nat) (body : nat → St → result St) (s : St)
  : result St :=
  for_count (hi - lo) lo body s.

(** [for i, x := range xs { body }], counting from [i]. *)
Fixpoint for_range_from {St A} (i : nat) (xs : list A)
    (body : nat → A → St → result St) (s : St) : result St :=
  match xs with
  | [] => Ok s
  | x :: xs' => s' ← body i x s; for_range_from (S i) xs' body s'
  end.

Definition for_range {St A} (xs : list A) (body : nat → A → St → result St)
    (s : St) : result St :=
  for_range_from 0 xs body s.

(** [rand.Shuffle(n, swap)] of math/rand: for [i] from [n-1] down to [1] it
    draws [j] in [[0, i]] and calls [swap(i, j)].  The draw made at [i] is
    [rnd i], reduced into the interval. *)
Fixpoint Shuffle {St} (rnd : nat → nat) (n : nat)
    (swap : nat → nat → St → result St) (s : St) : result St :=
  match n with
  | O => Ok s
  | S i =>
      match i with
      | O => Ok s
      | S _ => s' ← swap i (rnd i mod S i) s; Shuffle rnd i swap s'
      end
  end.

(** ** The package *)

Module noteshrink.

Record Option : Type := {
  SampleFraction : float32;
  BrightnessThreshold : float32;
  SaturationThreshold : float32;
  NumColors : Z;
  KmeansMaxIter : Z;
  Saturate : bool;
  WhiteBackground : bool;
}.

(** [{0.05, 0.25, 0.20, 8, 40, true, true}]: each decimal constant is the
    binary32 number nearest to it, obtained here as a correctly rounded
    quotient of two small integers. *)
Definition MakeDefaultOption : Option := {|
  SampleFraction := (f32.of_int 1 / f32.of_int 20)%f32;
  BrightnessThreshold := (f32.of_int 1 / f32.of_int 4)%f32;
  SaturationThreshold := (f32.of_int 1 / f32.of_int 5)%f32;
  NumColors := 8;
  KmeansMaxIter := 40;
  Saturate := true;
  WhiteBackground := true;
|}.

(** [type rgbf [3]float32] *)
Abbreviation rgbf := (float32 * float32 * float32)%type.

Definition max (a b : float32) : float32 := if (a >? b)%f32 then a else b.
Definition min (a b : float32) : float32 := if (a >? b)%f32 then b else a.
Definition abs (a : float32) : float32 := if (a <? 0)%f32 then (- a)%f32 else a.

Definition add (a b : rgbf) : rgbf :=
  let '(a0, a1, a2) := a in
  let '(b0, b1, b2) := b in
  (a0 + b0, a1 + b1, a2 + b2)%f32.

Definition mul (a : rgbf) (scalar : float32) : rgbf :=
  let '(a0, a1, a2) := a in
  (a0 * scalar, a1 * scalar, a2 * scalar)%f32.

Definition squareDistance (a b : rgbf) : float32 :=
  let '(a0, a1, a2) := a in
  let '(b0, b1, b2) := b in
  (((0 + (a0 - b0) * (a0 - b0))
      + (a1 - b1) * (a1 - b1))
      + (a2 - b2) * (a2 - b2))%f32.

Definition rgbToHsv (p : rgbf) : float32 * float32 * float32 :=
  let '(p0, p1, p2) := p in
  let r := (p0 / 255)%f32 in
  let g := (p1 / 255)%f32 in
  let b := (p2 / 255)%f32 in
  let max_ := max (max r g) b in
  let min_ := min (min r g) b in
  let h := (max_ - min_)%f32 in
  let h :=
    if (h >? 0)%f32 then
      if (max_ =? r)%f32 then
        let h := ((g - b) / h)%f32 in
        if (h <? 0)%f32 then (h + 6)%f32 else h
      else if (max_ =? g)%f32 then
        (f32.of_int 2 + (b - r) / h)%f32
      else
        (f32.of_int 4 + (r - g) / h)%f32
    else h in
  let h := (h / 6)%f32 in
  let s := (max_ - min_)%f32 in
  let s := if (max_ >? 0)%f32 then (s / max_)%f32 else s in
  let v := max_ in
  (h, s, v).

(** The [switch] has an empty [default:] clause written before [case 0:];
    Go clauses do not fall through, so any [i] outside 0..5 changes
    nothing. *)
Definition hsvToRgb (h s v : float32) : rgbf :=
  let '(r, g, b) :=
    if (s >? 0)%f32 then
      let h := (h * 6)%f32 in
      let i := f32.to_int h in
      let f := (h - f32.of_int i)%f32 in
      match i with
      | 0%Z => (v, v * (1 - s * (1 - f)), v * (1 - s))
      | 1%Z => (v * (1 - s * f), v, v * (1 - s))
      | 2%Z => (v * (1 - s), v, v * (1 - s * (1 - f)))
      | 3%Z => (v * (1 - s), v * (1 - s * f), v)
      | 4%Z => (v * (1 - s * (1 - f)), v * (1 - s), v)
      | 5%Z => (v, v * (1 - s), v * (1 - s * f))
      | _ => (v, v, v)
      end%f32
    else (v, v, v) in
  (r * 255, g * 255, b * 255)%f32.

Definition saturatePalette (palette : list rgbf) : list rgbf :=
  let '(maxSat, minSat) :=
    foldl (λ '(maxSat, minSat) pal,
             let '(_, s, _) := rgbToHsv pal in
             (max maxSat s, min minSat s))
          (0%f32, 1%f32) palette in
  foldl (λ result pal,
           let '(h, s, v) := rgbToHsv pal in
           let newSat := ((s - minSat) / (maxSat - minSat))%f32 in
           let saturated := hsvToRgb h newSat v in
           result ++ [saturated])
        [] palette.

Definition createForegroundMask (bgColor : rgbf) (samples : list rgbf)
    (opt : Option) : result (list bool) :=
  let '(_, sBg, vBg) := rgbToHsv bgColor in
  let '(sSamples, vSamples) :=
    foldl (λ '(sSamples, vSamples) sample,
             let '(_, s, v) := rgbToHsv sample in
             (sSamples ++ [s], vSamples ++ [v]))
          ([], []) samples in
  for_loop 0 (length samples) (λ i result,
    si ← index sSamples i;
    vi ← index vSamples i;
    let sDiff := abs (sBg - si)%f32 in
    let vDiff := abs (vBg - vi)%f32 in
    let fg := (vDiff >=? BrightnessThreshold opt)%f32
              || (sDiff >=? SaturationThreshold opt)%f32 in
    mret (result ++ [fg])) [].

Definition closest (p : rgbf) (means : list rgbf) : result nat :=
  m0 ← index means 0;
  let minimum := squareDistance p m0 in
  st ← for_loop 1 (length means) (λ i '(idx, minimum),
    mi ← index means i;
    let squaredDistance := squareDistance p mi in
    if (squaredDistance <? minimum)%f32
    then mret (i, squaredDistance)
    else mret (idx, minimum)) (0, minimum);
  mret (fst st).

Definition applyPalette (img palette : list rgbf) (origBgColor bgColor : rgbf)
    (opt : Option) : result (list rgbf) :=
  fgMask ← createForegroundMask origBgColor img opt;
  for_loop 0 (length img) (λ i result,
    fg ← index fgMask i;
    if negb fg then mret (result ++ [bgColor])
    else
      p ← index img i;
      minidx ← closest p palette;
      if decide (minidx = 0) then mret (result ++ [bgColor])
      else
        c ← index palette minidx;
        mret (result ++ [c])) [].

(** [bitsPerChannel], [shift] and [halfbin] are uint8: arithmetic wraps
    modulo 256, and the constant [1] of [1 << shift] takes the type uint8
    of the conversion around it. *)
Definition quantize (image : list rgbf) (bitsPerChannel : Z)
    : result (list rgbf) :=
  let shift := ((8 - bitsPerChannel) mod 256)%Z in
  let halfbin := (Z.shiftr (Z.shiftl 1 shift mod 256) 1 mod 256)%Z in
  let q (x : float32) : float32 :=
    f32.of_int
      ((Z.shiftl (Z.shiftr (f32.to_uint8 x) shift) shift mod 256 + halfbin)
         mod 256)%Z in
  for_loop 0 (length image) (λ i result,
    '(x0, x1, x2) ← index image i;
    let p : rgbf := (q x0, q x1, q x2) in
    mret (result ++ [p])) [].

Definition rgbf_eq (a b : rgbf) : bool :=
  let '(a0, a1, a2) := a in
  let '(b0, b1, b2) := b in
  (a0 =? b0)%f32 && (a1 =? b1)%f32 && (a2 =? b2)%f32.

(** [map[rgbf]int]: keys are compared with [==] on arrays of float32, a
    missing key reads as 0. *)
Definition count_map : Type := list (rgbf * Z).

Fixpoint count_get (count : count_map) (v : rgbf) : Z :=
  match count with
  | [] => 0
  | (k, c) :: rest => if rgbf_eq k v then c else count_get rest v
  end.

Fixpoint count_set (count : count_map) (v : rgbf) (c : Z) : count_map :=
  match count with
  | [] => [(v, c)]
  | (k, c') :: rest =>
      if rgbf_eq k v then (k, c) :: rest else (k, c') :: count_set rest v c
  end.

Definition findBackgroundColor (image : list rgbf) (bitsPerChannel : Z)
    : result rgbf :=
  quantized ← quantize image bitsPerChannel;
  let count : count_map := [] in
  let maxcount := 1%Z in
  maxvalue ← index quantized 0;
  st ← for_loop 1 (length quantized) (λ i '(count, maxcount, maxvalue),
    v ← index quantized i;
    let c := count_get count v in
    let c := (c + 1)%Z in
    let '(maxcount, maxvalue) :=
      if (c >? maxcount)%Z then (c, v) else (maxcount, maxvalue) in
    mret (count_set count v c, maxcount, maxvalue))
    (count, maxcount, maxvalue);
  mret (snd st).

Definition round (v : float32) : float32 :=
  f32.of_int (f32.to_int (v + f32.of_int 1 / f32.of_int 2)%f32).

Definition kMeans_seeds (k : Z) : list rgbf :=
  foldl (λ means i,
           let h := (f32.of_int (Z.of_nat i) / f32.of_int (int_sub k 1))%f32 in
           let p := hsvToRgb h 1%f32 1%f32 in
           means ++ [p])
        [] (seq 0 (Z.to_nat k)).

(** The three loops that recompute the centres from the current
    assignment: reset, accumulate, divide. *)
Definition kMeans_update (data : list rgbf) (clusters : list nat)
    (means : list rgbf) (mLen : list Z) : result (list rgbf * list Z) :=
  st ← for_loop 0 (length means) (λ i '(means, mLen),
    means ← store means i (0, 0, 0)%f32;
    mLen ← store mLen i 0%Z;
    mret (means, mLen)) (means, mLen);
  st ← for_range data (λ i p '(means, mLen),
    cluster ← index clusters i;
    mc ← index means cluster;
    let m := add mc p in
    means ← store means cluster m;
    n ← index mLen cluster;
    mLen ← store mLen cluster (n + 1)%Z;
    mret (means, mLen)) st;
  let '(means, mLen) := st in
  means ← for_loop 0 (length means) (λ i means,
    count ← index mLen i;
    let count := if (count <=? 0)%Z then 1%Z else count in
    mi ← index means i;
    let m := mul mi (1 / f32.of_int count)%f32 in
    store means i m) means;
  mret (means, mLen).

(** The loop that moves every point to its nearest centre and counts the
    moves. *)
Definition kMeans_reassign (data : list rgbf) (means : list rgbf)
    (clusters : list nat) : result (list nat * Z) :=
  for_range data (λ i p '(clusters, changes),
    cluster ← closest p means;
    ci ← index clusters i;
    if decide (cluster ≠ ci) then
      clusters ← store clusters i cluster;
      mret (clusters, (changes + 1)%Z)
    else mret (clusters, changes)) (clusters, 0%Z).

(** [for itr := 0; itr < maxItr; itr++ { ...; if changes == 0 { break } }] *)
Fixpoint kMeans_iterate (itrs : nat) (data : list rgbf)
    (means : list rgbf) (mLen : list Z) (clusters : list nat)
    : result (list rgbf) :=
  match itrs with
  | O => Ok means
  | S itrs' =>
      '(means, mLen) ← kMeans_update data clusters means mLen;
      '(clusters, changes) ← kMeans_reassign data means clusters;
      if (changes =? 0)%Z then Ok means
      else kMeans_iterate itrs' data means mLen clusters
  end.

Definition kMeans (data : list rgbf) (k maxItr : Z) : result (list rgbf) :=
  let means := kMeans_seeds k in
  clusters ← for_range data (λ i d clusters,
    c ← closest d means;
    store clusters i c) (replicate (length data) 0);
  let mLen := replicate (length means) 0%Z in
  kMeans_iterate (Z.to_nat maxItr) data means mLen clusters.

Definition createPalette (samples : list rgbf) (opt : Option)
    : result (list rgbf * rgbf) :=
  bgColor ← findBackgroundColor samples 6;
  fgMask ← createForegroundMask bgColor samples opt;
  data ← for_loop 0 (length samples) (λ i data,
    fg ← index fgMask i;
    if negb fg then mret data
    else
      v ← index samples i;
      mret (data ++ [v])) [];
  mean ← kMeans data (int_sub (NumColors opt) 1) (KmeansMaxIter opt);
  let palette := [] ++ [bgColor] in
  palette ← for_loop 0 (length mean) (λ i palette,
    '(c0, c1, c2) ← index mean i;
    let r := round c0 in
    let g := round c1 in
    let b := round c2 in
    mret (palette ++ [(r, g, b)])) palette;
  mret (palette, bgColor).

Definition numSamples (img : list rgbf) (opt : Option) : Z :=
  f32.to_int (f32.of_int (Z.of_nat (length img)) * SampleFraction opt)%f32.

Definition samplePixels (rnd : nat → nat) (img : list rgbf) (opt : Option)
    : result (list rgbf) :=
  let numSamples := numSamples img opt in
  shuffled ← for_loop 0 (length img) (λ i shuffled,
    p ← index img i;
    mret (shuffled ++ [p])) [];
  shuffled ← Shuffle rnd (length shuffled) (λ i j shuffled,
    sj ← index shuffled j;
    si ← index shuffled i;
    shuffled ← store shuffled i sj;
    store shuffled j si) shuffled;
  for_loop 0 (Z.to_nat numSamples) (λ i result,
    p ← index shuffled i;
    mret (result ++ [p])) [].

(** [image.Image]: the bounds, given by their corner [Min] and their
    width [Dx] and height [Dy] (so that [Max] is [Min] plus the size), and
    the colour at a point as the four 16-bit values returned by
    [RGBA()]. *)
Record Image : Type := {
  MinX : Z;
  MinY : Z;
  Dx : Z;
  Dy : Z;
  At : Z → Z → Z * Z * Z * Z;
}.

Definition load (img : Image) : list rgbf :=
  foldl (λ result y,
    foldl (λ result x,
      let '(r, g, b, _) := At img (Z.of_nat x) (Z.of_nat y) in
      let p : rgbf := (f32.of_int (r mod 256), f32.of_int (g mod 256),
                       f32.of_int (b mod 256)) in
      result ++ [p])
      result (seq 0 (Z.to_nat (Dx img))))
    [] (seq 0 (Z.to_nat (Dy img))).

(** [image.RGBA]: the rectangle of the image and its pixels, row by row
    from the corner [Min]; a pixel stands for its four bytes R, G, B, A of
    [Pix], and the stride is the width. *)
Record RGBA : Type := {
  Pix : list (Z * Z * Z * Z);
  RectMinX : Z;
  RectMinY : Z;
  RectDx : Z;
  RectDy : Z;
}.

(** [image.NewRGBA(r)]: all pixels zero; a negative dimension panics. *)
Definition NewRGBA (minX minY dx dy : Z) : result RGBA :=
  if (dx <? 0)%Z || (dy <? 0)%Z then Panic NegativeDimensions
  else Ok {| Pix := replicate (Z.to_nat dx * Z.to_nat dy) (0, 0, 0, 0)%Z;
             RectMinX := minX; RectMinY := minY;
             RectDx := dx; RectDy := dy |}.

(** [p.SetRGBA(x, y, c)]: nothing happens when the point is outside the
    rectangle; otherwise the pixel at offset
    [(y - Min.Y) * stride + (x - Min.X)] is set. *)
Definition SetRGBA (p : RGBA) (x y : Z) (c : Z * Z * Z * Z) : RGBA :=
  if (RectMinX p <=? x)%Z && (x <? RectMinX p + RectDx p)%Z
     && (RectMinY p <=? y)%Z && (y <? RectMinY p + RectDy p)%Z
  then {| Pix := <[Z.to_nat ((y - RectMinY p) * RectDx p + (x - RectMinX p))
                   := c]> (Pix p);
          RectMinX := RectMinX p; RectMinY := RectMinY p;
          RectDx := RectDx p; RectDy := RectDy p |}
  else p.

Definition Shrink (rnd : nat → nat) (input : Image) (option : option Option)
    : result RGBA :=
  let opt := default MakeDefaultOption option in
  let img := load input in
  samples ← samplePixels rnd img opt;
  '(palette, origBgColor) ← createPalette samples opt;
  let bgColor := origBgColor in
  let palette := if Saturate opt then saturatePalette palette else palette in
  let bgColor := if WhiteBackground opt then (255, 255, 255)%f32 else bgColor in
  result ← applyPalette img palette origBgColor bgColor opt;
  shrinked ← NewRGBA (MinX input) (MinY input) (Dx input) (Dy input);
  st ← for_loop 0 (Z.to_nat (Dy input)) (λ y st,
    for_loop 0 (Z.to_nat (Dx input)) (λ x '(shrinked, idx),
      '(c0, c1, c2) ← index result idx;
      let r := f32.to_uint8 c0 in
      let g := f32.to_uint8 c1 in
      let b := f32.to_uint8 c2 in
      mret (SetRGBA shrinked (Z.of_nat x) (Z.of_nat y) (r, g, b, 255%Z),
            S idx)) st) (shrinked, 0);
  mret (fst st).

End noteshrink.

(** ** Specification-level notions used in the statements *)

(** The larger and the smaller of two floats, by the order of binary32. *)
Definition floatMax (a b : float32) : float32 := if SFltb b a then a else b.
Definition floatMin (a b : float32) : float32 := if SFltb b a then b else a.

(** The value of a colour in HSV: its largest channel, on the scale from 0
    to 1.  Its saturation: the difference between the largest and the
    smallest channel, relative to the largest one when that is positive. *)
Definition hsvValue (p : float32 * float32 * float32) : float32 :=
  let '(r, g, b) := p in
  floatMax (floatMax (r / 255)%f32 (g / 255)%f32) (b / 255)%f32.

Definition hsvSaturation (p : float32 * float32 * float32) : float32 :=
  let '(r, g, b) := p in
  let mx := floatMax (floatMax (r / 255)%f32 (g / 255)%f32) (b / 255)%f32 in
  let mn := floatMin (floatMin (r / 255)%f32 (g / 255)%f32) (b / 255)%f32 in
  if SFltb 0%f32 mx then ((mx - mn) / mx)%f32 else (mx - mn)%f32.

(** The classification rule of one pixel against a reference colour: the
    pixel is foreground when the absolute value of the difference of the
    values is at least the brightness threshold, or the absolute value of
    the difference of the saturations is at least the saturation
    threshold. *)
Definition isForeground (bgColor p : float32 * float32 * float32)
    (opt : noteshrink.Option) : bool :=
  SFleb (noteshrink.BrightnessThreshold opt)
        (SFabs (hsvValue bgColor - hsvValue p)%f32)
  || SFleb (noteshrink.SaturationThreshold opt)
           (SFabs (hsvSaturation bgColor - hsvSaturation p)%f32).

(** The squared distance of two colours in RGB: the sum of the squares of
    the differences of the three channels, in binary32. *)
Definition sqDist (a b : float32 * float32 * float32) : float32 :=
  let '(a0, a1, a2) := a in
  let '(b0, b1, b2) := b in
  ((a0 - b0) * (a0 - b0) + (a1 - b1) * (a1 - b1) + (a2 - b2) * (a2 - b2))%f32.

(** [m] is the index of the entry of [palette] nearest to [p] by squared RGB
    distance, the lowest such index: no entry is strictly nearer than entry
    [m], and no entry before [m] is at the same distance. *)
Definition is_nearest (p : noteshrink.rgbf) (palette : list noteshrink.rgbf)
    (m : nat) : Prop :=
  ∃ cm, palette !! m = Some cm ∧
    (∀ j cj, palette !! j = Some cj →
       SFltb (sqDist p cj) (sqDist p cm) = false) ∧
    (∀ j cj, j < m → palette !! j = Some cj →
       SFeqb (sqDist p cj) (sqDist p cm) = false).

(** What [applyPalette] writes for the pixel [p]. *)
Definition remapped (palette : list noteshrink.rgbf)
    (origBgColor bgColor : noteshrink.rgbf) (opt : noteshrink.Option)
    (p c : noteshrink.rgbf) : Prop :=
  if isForeground origBgColor p opt then
    ∃ m cm, is_nearest p palette m ∧ palette !! m = Some cm ∧
            c = if decide (m = 0) then bgColor else cm
  else c = bgColor.

(** The points of [data] assigned to cluster [c], in the order of [data]. *)
Definition members (c : nat) (data : list noteshrink.rgbf)
    (clusters : list nat) : list noteshrink.rgbf :=
  fst <$> List.filter (λ pc, Nat.eqb pc.2 c) (zip data clusters).

(** The sum of one channel over a list of points, accumulated in binary32
    from zero in list order, and the mean: the sum times the reciprocal of
    the number of points, both rounded to binary32. *)
Definition channelSum (xs : list float32) : float32 := foldl f32.add 0%f32 xs.

Definition channelMean (xs : list float32) : float32 :=
  (channelSum xs * (1 / f32.of_int (Z.of_nat (length xs))))%f32.

Definition meanRGB (pts : list (float32 * float32 * float32))
    : float32 * float32 * float32 :=
  (channelMean ((λ p, p.1.1) <$> pts),
   channelMean ((λ p, p.1.2) <$> pts),
   channelMean ((λ p, p.2) <$> pts)).

(** The sum of a list of colours as the code accumulates it. *)
Definition sumRGB (pts : list noteshrink.rgbf) : noteshrink.rgbf :=
  foldl noteshrink.add (0, 0, 0)%f32 pts.

(** One colour quantized as [quantize] does it: each channel keeps its top
    [bitsPerChannel] bits and half a bin is added. *)
Definition quantizeColor (bitsPerChannel : Z) (p : noteshrink.rgbf)
    : noteshrink.rgbf :=
  let shift := ((8 - bitsPerChannel) mod 256)%Z in
  let halfbin := (Z.shiftr (Z.shiftl 1 shift mod 256) 1 mod 256)%Z in
  let q (x : float32) : float32 :=
    f32.of_int
      ((Z.shiftl (Z.shiftr (f32.to_uint8 x) shift) shift mod 256 + halfbin)
         mod 256)%Z in
  let '(x0, x1, x2) := p in
  (q x0, q x1, q x2).

(** A centre with its three channels rounded by [round]. *)
Definition roundColor (c : noteshrink.rgbf) : noteshrink.rgbf :=
  let '(c0, c1, c2) := c in
  (noteshrink.round c0, noteshrink.round c1, noteshrink.round c2).

(** The saturation of a colour, and the largest and smallest saturation that
    the first loop of [saturatePalette] finds in a palette. *)
Definition saturation (p : noteshrink.rgbf) : float32 :=
  (noteshrink.rgbToHsv p).1.2.

Definition saturationRange (palette : list noteshrink.rgbf)
    : float32 * float32 :=
  foldl (λ '(maxSat, minSat) pal,
           let '(_, s, _) := noteshrink.rgbToHsv pal in
           (noteshrink.max maxSat s, noteshrink.min minSat s))
        (0%f32, 1%f32) palette.

(** The grey that has the value (brightness) of a colour. *)
Definition greyOf (p : noteshrink.rgbf) : noteshrink.rgbf :=
  let v := (noteshrink.rgbToHsv p).2 in
  (v * 255, v * 255, v * 255)%f32.

(** The most frequent element of a list of colours, the first one met among
    those that are equally frequent. *)
Definition occurrences (l : list noteshrink.rgbf) (v : noteshrink.rgbf) : nat :=
  length (List.filter (noteshrink.rgbf_eq v) l).

Definition mostFrequent (l : list noteshrink.rgbf) : option noteshrink.rgbf :=
  foldl (λ best v,
           match best with
           | None => Some v
           | Some b =>
               if occurrences l b <? occurrences l v then Some v else Some b
           end)
        None l.

(** The opaque 8-bit pixel that [Shrink] stores for a colour. *)
Definition rgba8 (c : noteshrink.rgbf) : Z * Z * Z * Z :=
  let '(c0, c1, c2) := c in
  (f32.to_uint8 c0, f32.to_uint8 c1, f32.to_uint8 c2, 255%Z).

(** The pixel in column [c] and row [r] of the image that [Shrink] returns
    for the remapped buffer [result], once the first [n] remapped pixels
    have been stored.  The pixel lies at the point [Min + (c, r)] of the
    plane.  The loops of [Shrink] visit the points [(x, y)] with
    [0 <= x < Dx] and [0 <= y < Dy], whatever [Min] is, and store the
    remapped pixel of index [y * Dx + x] there; a pixel of the image that
    is not at such a point keeps the four zeros it was created with. *)
Definition filledAt (input : noteshrink.Image) (result : list noteshrink.rgbf)
    (n c r : nat) : Z * Z * Z * Z :=
  let X := (noteshrink.MinX input + Z.of_nat c)%Z in
  let Y := (noteshrink.MinY input + Z.of_nat r)%Z in
  if (0 <=? X)%Z && (X <? noteshrink.Dx input)%Z
     && (0 <=? Y)%Z && (Y <? noteshrink.Dy input)%Z
     && (Z.to_nat Y * Z.to_nat (noteshrink.Dx input) + Z.to_nat X <? n)
  then match result !! (Z.to_nat Y * Z.to_nat (noteshrink.Dx input)
                        + Z.to_nat X) with
       | Some p => rgba8 p
       | None => (0, 0, 0, 0)%Z
       end
  else (0, 0, 0, 0)%Z.

Definition renderedAt (input : noteshrink.Image)
    (result : list noteshrink.rgbf) (c r : nat) : Z * Z * Z * Z :=
  filledAt input result
    (Z.to_nat (noteshrink.Dy input) * Z.to_nat (noteshrink.Dx input)) c r.

(** The round trip through HSV returns every channel of [c] within [1/255]
    of what it was. *)
Definition roundTrip (c : noteshrink.rgbf) : noteshrink.rgbf :=
  let '(h, s, v) := noteshrink.rgbToHsv c in
  noteshrink.hsvToRgb h s v.

Definition withinTolerance (c : noteshrink.rgbf) : bool :=
  let close (a b : float32) : bool :=
    f32.le (SFabs (a - b)%f32) (1 / 255)%f32 in
  let '(r, g, b) := c in
  let '(r', g', b') := roundTrip c in
  close r' r && close g' g && close b' b.

(** A well-formed binary32 number: its mantissa and exponent are in the
    canonical form of the format (zeros, infinities and NaN are). *)
Definition is_binary32 (x : float32) : bool :=
  valid_binary f32.prec f32.emax x.

(** ** Notions used in the further properties *)

(** A colour whose channels are the 8-bit values [r], [g] and [b]. *)
Definition byteColor (r g b : Z) : noteshrink.rgbf :=
  (f32.of_int r, f32.of_int g, f32.of_int b).

(** The pixel that [load] stores for the point [(x, y)]: the low eight bits
    of each of the 16-bit channels returned by [RGBA()]. *)
Definition pixelOf (img : noteshrink.Image) (x y : nat) : noteshrink.rgbf :=
  let '(r, g, b, _) := noteshrink.At img (Z.of_nat x) (Z.of_nat y) in
  byteColor (r mod 256) (g mod 256) (b mod 256).

(** The centre of the bin of width [2^(8 - bits)] that holds the 8-bit
    value [n]. *)
Definition binCentre (bits n : Z) : Z :=
  (n / 2 ^ (8 - bits) * 2 ^ (8 - bits) + 2 ^ (8 - bits) / 2)%Z.

(** The 8-bit values. *)
Definition bytes : list Z := Z.of_nat <$> seq 0 256.

(** A colour with 8-bit channels, as [load] produces them. *)
Definition isByteColor (p : noteshrink.rgbf) : Prop :=
  ∃ r g b, (0 ≤ r < 256 ∧ 0 ≤ g < 256 ∧ 0 ≤ b < 256)%Z ∧ p = byteColor r g b.

(** One channel quantized as [quantize] does it, on the 8-bit value [u]
    with the shift [s]: uint8 arithmetic throughout. *)
Definition quantizeByte (s u : Z) : Z :=
  ((Z.shiftl (Z.shiftr u s) s mod 256
    + Z.shiftr (Z.shiftl 1 s mod 256) 1 mod 256) mod 256)%Z.

(** A float that is equal to itself only: not NaN, and not the negative
    zero, which [==] identifies with the positive one.  On such values
    [==] is equality. *)
Definition plainFloat (x : float32) : Prop :=
  match x with
  | S754_nan | S754_zero true => False
  | _ => True
  end.

Definition plainColor (p : noteshrink.rgbf) : Prop :=
  plainFloat p.1.1 ∧ plainFloat p.1.2 ∧ plainFloat p.2.

(** The number of positions at which two lists of cluster indices
    differ. *)
Definition differing (l l' : list nat) : nat :=
  length (List.filter (λ ab : nat * nat, negb (ab.1 =? ab.2)) (zip l l')).

(** The centre of a cluster as an update of [kMeans] leaves it: [meanRGB]
    of its points, and the zero vector when it has none. *)
Definition centreOf (c : nat) (data : list noteshrink.rgbf)
    (clusters : list nat) : noteshrink.rgbf :=
  match members c data clusters with
  | [] => (0, 0, 0)%f32
  | pts => meanRGB pts
  end.

(** An 8-bit channel value scaled as [rgbToHsv] does it. *)
Definition chan (n : Z) : float32 := (f32.of_int n / 255)%f32.

(** The scaled channels of all 8-bit values, each with its value. *)
Definition chanTable : list (Z * float32) := (λ n, (n, chan n)) <$> bytes.

(** The saturation that [rgbToHsv] computes from the largest and the
    smallest scaled channel. *)
Definition saturationOf (max_ min_ : float32) : float32 :=
  let s := (max_ - min_)%f32 in
  if (max_ >? 0)%f32 then (s / max_)%f32 else s.

(** ** Proof tactics *)

(** Case analysis on every integer comparison in sight. *)
Ltac order_cases :=
  repeat match goal with
  | |- context [(?a ?= ?b)%Z] => destruct (Z.compare_spec a b)
  | |- context [(?a ?= ?b)%positive] => destruct (Pos.compare_spec a b)
  | H : context [(?a ?= ?b)%Z] |- _ => destruct (Z.compare_spec a b)
  | H : context [(?a ?= ?b)%positive] |- _ => destruct (Pos.compare_spec a b)
  end; simpl in *; try congruence; try lia.

(** The float operations are written with the integer functions of the
    core library; this names them as the arithmetic lemmas do. *)
Ltac std_names :=
  change IntDef.Z.add with Z.add in *;
  change IntDef.Z.sub with Z.sub in *;
  change IntDef.Z.mul with Z.mul in *;
  change IntDef.Z.opp with Z.opp in *;
  change IntDef.Z.max with Z.max in *;
  change IntDef.Z.min with Z.min in *;
  change IntDef.Z.leb with Z.leb in *;
  change IntDef.Z.eqb with Z.eqb in *;
  change IntDef.Z.even with Z.even in *;
  change IntDef.Z.shiftl with Z.shiftl in *;
  change IntDef.Z.div_eucl with Z.div_eucl in *;
  change @PosDef.Pos.iter with @Pos.iter in *;
  change PosDef.Pos.mul with Pos.mul in *.

(** ** Order facts of binary32 comparison *)

Section compare_facts.

Lemma SFcompare_finite_pos m1 e1 m2 e2 :
  SFcompare (S754_finite false m1 e1) (S754_finite false m2 e2)
  = Some (match (e1 ?= e2)%Z with
          | Lt => Lt | Gt => Gt | Eq => (m1 ?= m2)%positive end).
Proof. reflexivity. Qed.

Lemma SFcompare_finite_neg m1 e1 m2 e2 :
  SFcompare (S754_finite true m1 e1) (S754_finite true m2 e2)
  = Some (match (e1 ?= e2)%Z with
          | Lt => Gt | Gt => Lt | Eq => CompOpp (m1 ?= m2)%positive end).
Proof. reflexivity. Qed.

Lemma f32_lt_trans (x y z : float32) :
  f32.lt x y = true → f32.lt y z = true → f32.lt x z = true.
Proof.
  unfold f32.lt, SFltb.
  destruct x as [[]|[]| |[] mx ex], y as [[]|[]| |[] my ey],
           z as [[]|[]| |[] mz ez];
    try (simpl; congruence);
    rewrite ?SFcompare_finite_pos, ?SFcompare_finite_neg;
    intros Hxy Hyz; order_cases.
Qed.

Lemma f32_eq_lt_trans (x y z : float32) :
  f32.eq x y = true → f32.lt y z = true → f32.lt x z = true.
Proof.
  unfold f32.lt, f32.eq, SFltb, SFeqb.
  destruct x as [[]|[]| |[] mx ex], y as [[]|[]| |[] my ey],
           z as [[]|[]| |[] mz ez];
    try (simpl; congruence);
    rewrite ?SFcompare_finite_pos, ?SFcompare_finite_neg;
    intros Hxy Hyz; order_cases.
Qed.

Lemma f32_lt_irrefl (x : float32) : f32.lt x x = false.
Proof.
  unfold f32.lt, SFltb.
  destruct x as [[]|[]| |[] mx ex]; try reflexivity;
    rewrite ?SFcompare_finite_pos, ?SFcompare_finite_neg; order_cases.
Qed.

End compare_facts.

(** ** The helpers of the code against their specification

    [max], [min], [abs], [squareDistance], [add] and [mul] compute what the
    notions [floatMax], [floatMin], [SFabs], [sqDist] and [meanRGB] say. *)

Section helper_facts.

Import noteshrink.

(** Rounding keeps the sign it is given. *)
Lemma binary_round_aux_sign s m e l :
  match binary_round_aux f32.prec f32.emax s m e l with
  | S754_zero s' | S754_infinity s' | S754_finite s' _ _ => s' = s
  | S754_nan => True
  end.
Proof.
  unfold binary_round_aux.
  destruct (shr_fexp _ _ m e l) as [mrs' e'].
  destruct (shr_fexp _ _ _ e' loc_Exact) as [mrs'' e''].
  destruct (shr_m mrs''); [done| |done].
  by destruct (IntDef.Z.leb _ _).
Qed.

Lemma max_floatMax a b : max a b = floatMax a b.
Proof. reflexivity. Qed.

Lemma min_floatMin a b : min a b = floatMin a b.
Proof. reflexivity. Qed.

(** [abs] is the absolute value, but for the sign of a zero, which no
    comparison sees. *)
Lemma abs_ge (x t : float32) : (abs x >=? t)%f32 = SFleb t (SFabs x).
Proof.
  unfold abs, f32.ge, f32.lt, f32.neg.
  destruct x as [[]|[]| |[] m e]; try reflexivity;
    by destruct t as [[]|[]| |[] mt et].
Qed.

(** The value and the saturation returned by [rgbToHsv]. *)
Lemma rgbToHsv_value p : (rgbToHsv p).2 = hsvValue p.
Proof. by destruct p as [[r g] b]. Qed.

Lemma rgbToHsv_saturation p : (rgbToHsv p).1.2 = hsvSaturation p.
Proof. by destruct p as [[r g] b]. Qed.

(** The rule computed by [createForegroundMask] for one sample. *)
Lemma isForeground_code bgColor p opt :
  (let '(_, sBg, vBg) := rgbToHsv bgColor in
   let '(_, s, v) := rgbToHsv p in
   (abs (vBg - v) >=? BrightnessThreshold opt)%f32
   || (abs (sBg - s) >=? SaturationThreshold opt)%f32)
  = isForeground bgColor p opt.
Proof.
  pose proof (rgbToHsv_value bgColor) as Hvb.
  pose proof (rgbToHsv_saturation bgColor) as Hsb.
  pose proof (rgbToHsv_value p) as Hv.
  pose proof (rgbToHsv_saturation p) as Hs.
  destruct (rgbToHsv bgColor) as [[hBg sBg] vBg].
  destruct (rgbToHsv p) as [[h s] v]. simpl in *. subst.
  unfold isForeground. by rewrite !abs_ge.
Qed.

(** A square is never a negative zero, so adding it to zero changes
    nothing. *)
Lemma zero_add_square (x : float32) : (0 + x * x)%f32 = (x * x)%f32.
Proof.
  unfold f32.mul, SFmul.
  destruct x as [[]|[]| |s m e]; try reflexivity.
  replace (xorb s s) with false by (by destruct s).
  pose proof (binary_round_aux_sign false
                (Zpos (PosDef.Pos.mul m m)) (IntDef.Z.add e e) loc_Exact) as H.
  destruct (binary_round_aux _ _ _ _ _ _) as [s'|s'| |s' m' e'];
    try reflexivity; by subst.
Qed.

Lemma squareDistance_sqDist a b : squareDistance a b = sqDist a b.
Proof.
  destruct a as [[a0 a1] a2], b as [[b0 b1] b2].
  unfold squareDistance, sqDist. by rewrite zero_add_square.
Qed.

(** The sum and the mean that the update of [kMeans] computes with [add]
    and [mul]. *)
Lemma sumRGB_channels pts :
  sumRGB pts = (channelSum ((λ p, p.1.1) <$> pts),
                channelSum ((λ p, p.1.2) <$> pts),
                channelSum ((λ p, p.2) <$> pts)).
Proof.
  unfold sumRGB, channelSum.
  generalize 0%f32 at 1 4. generalize 0%f32 at 1 3. generalize 0%f32.
  induction pts as [|[[r g] b] pts IH]; intros z y x; [done|].
  simpl. apply IH.
Qed.

Lemma meanRGB_code pts :
  mul (sumRGB pts) (1 / f32.of_int (Z.of_nat (length pts)))%f32 = meanRGB pts.
Proof.
  rewrite sumRGB_channels. unfold mul, meanRGB, channelMean.
  by rewrite !length_fmap.
Qed.

End helper_facts.

(** ** int arithmetic *)

Lemma int_wrap_id z :
  (f32.min_int64 ≤ z ≤ f32.max_int64)%Z → int_wrap z = z.
Proof.
  unfold int_wrap, f32.min_int64, f32.max_int64. intros Hz.
  rewrite Z.mod_small; lia.
Qed.

Lemma int_sub_1 z :
  (f32.min_int64 < z ≤ f32.max_int64)%Z → int_sub z 1 = (z - 1)%Z.
Proof.
  unfold f32.min_int64, f32.max_int64. intros Hz. unfold int_sub.
  apply int_wrap_id. unfold f32.min_int64, f32.max_int64. lia.
Qed.

(** ** Slices and loops *)

Section loops.

Context {A : Type}.

Lemma index_Some (a : list A) i x : a !! i = Some x → index a i = Ok x.
Proof. unfold index. by intros ->. Qed.

Lemma index_fmap {B} (f : A → B) (a : list A) i x :
  a !! i = Some x → index (f <$> a) i = Ok (f x).
Proof. intros H. unfold index. by rewrite list_lookup_fmap, H. Qed.

Lemma index_lt (a : list A) i :
  i < length a → ∃ x, a !! i = Some x ∧ index a i = Ok x.
Proof.
  intros [x Hx]%lookup_lt_is_Some_2. exists x. by rewrite (index_Some _ _ x).
Qed.

Lemma index_ge (a : list A) i :
  length a ≤ i → index a i = Panic (IndexOutOfRange i (length a)).
Proof. intros H. unfold index. by rewrite lookup_ge_None_2. Qed.

Lemma index_Ok_inv (a : list A) i x : index a i = Ok x → a !! i = Some x.
Proof. unfold index. destruct (a !! i); congruence. Qed.

Lemma store_lt (a : list A) i x :
  i < length a → store a i x = Ok (<[i:=x]> a).
Proof. intros H. unfold store. by rewrite decide_True. Qed.

(** Hoare-style rule for a counted loop: an invariant that every
    iteration re-establishes without panicking holds at the exit. *)
Lemma for_count_inv {St} (Inv : nat → St → Prop) n i
    (body : nat → St → result St) s :
  Inv i s →
  (∀ j t, i ≤ j < i + n → Inv j t → ∃ t', body j t = Ok t' ∧ Inv (S j) t') →
  ∃ s', for_count n i body s = Ok s' ∧ Inv (i + n) s'.
Proof.
  revert i s. induction n as [|n IH]; intros i s Hi Hstep; simpl.
  - exists s. by rewrite Nat.add_0_r.
  - destruct (Hstep i s) as (t & -> & Ht); [lia|done|]. simpl.
    destruct (IH (S i) t) as (s' & -> & Hs'); [done| |].
    + intros j u Hj. apply Hstep. lia.
    + exists s'. split; [done|]. by replace (i + S n) with (S i + n) by lia.
Qed.

(** The rule for runs that may panic: what holds if the loop does end. *)
Lemma for_count_inv_partial {St} (Inv : nat → St → Prop) n i
    (body : nat → St → result St) s s' :
  Inv i s →
  (∀ j t t', i ≤ j < i + n → Inv j t → body j t = Ok t' → Inv (S j) t') →
  for_count n i body s = Ok s' → Inv (i + n) s'.
Proof.
  revert i s. induction n as [|n IH]; intros i s Hi Hstep; simpl.
  - intros [= <-]. by rewrite Nat.add_0_r.
  - destruct (body i s) as [t|] eqn:Hb; simpl; [|done].
    intros Hrun. replace (i + S n) with (S i + n) by lia.
    apply (IH (S i) t); [|intros j u u' Hj; apply Hstep; lia|done].
    apply (Hstep i s); [lia|done|done].
Qed.

Lemma for_count_panic_inv {St} (Inv : nat → St → Prop) (P : Prop) n i
    (body : nat → St → result St) s e :
  Inv i s →
  (∀ j t t', i ≤ j < i + n → Inv j t → body j t = Ok t' → Inv (S j) t') →
  (∀ j t e', i ≤ j < i + n → Inv j t → body j t = Panic e' → P) →
  for_count n i body s = Panic e → P.
Proof.
  revert i s. induction n as [|n IH]; intros i s Hi Hstep Hpanic; simpl.
  - done.
  - destruct (body i s) as [t|e'] eqn:Hb; simpl.
    + apply (IH (S i) t).
      * apply (Hstep i s); [lia|done|done].
      * intros j u u' Hj. apply Hstep. lia.
      * intros j u u' Hj. apply Hpanic. lia.
    + intros _. apply (Hpanic i s e'); [lia|done|done].
Qed.

Lemma for_loop_inv {St} (Inv : nat → St → Prop) lo hi
    (body : nat → St → result St) s :
  lo ≤ hi →
  Inv lo s →
  (∀ j t, lo ≤ j < hi → Inv j t → ∃ t', body j t = Ok t' ∧ Inv (S j) t') →
  ∃ s', for_loop lo hi body s = Ok s' ∧ Inv hi s'.
Proof.
  intros Hle Hlo Hstep. unfold for_loop.
  destruct (for_count_inv Inv (hi - lo) lo body s) as (s' & ? & Hs');
    [done| |].
  - intros j t Hj. apply Hstep. lia.
  - exists s'. split; [done|]. by replace hi with (lo + (hi - lo)) by lia.
Qed.

(** The same rule for a loop over the elements of a slice. *)
Lemma for_range_from_inv {St} (Inv : nat → St → Prop) i (xs : list A)
    (body : nat → A → St → result St) s :
  Inv i s →
  (∀ j x t, xs !! j = Some x → Inv (i + j) t →
            ∃ t', body (i + j) x t = Ok t' ∧ Inv (S (i + j)) t') →
  ∃ s', for_range_from i xs body s = Ok s' ∧ Inv (i + length xs) s'.
Proof.
  revert i s. induction xs as [|x xs IH]; intros i s Hi Hstep; simpl.
  - exists s. by rewrite Nat.add_0_r.
  - destruct (Hstep 0 x s) as (t & Hb & Ht);
      [done|by rewrite Nat.add_0_r|].
    rewrite Nat.add_0_r in Hb, Ht. rewrite Hb. simpl.
    destruct (IH (S i) t) as (s' & -> & Hs'); [done| |].
    + intros j y u Hj Hu. replace (S i + j) with (i + S j) in * by lia.
      by apply Hstep.
    + exists s'. split; [done|]. by replace (i + S (length xs)) with (S i + length xs) by lia.
Qed.

Lemma for_range_inv {St} (Inv : nat → St → Prop) (xs : list A)
    (body : nat → A → St → result St) s :
  Inv 0 s →
  (∀ j x t, xs !! j = Some x → Inv j t →
            ∃ t', body j x t = Ok t' ∧ Inv (S j) t') →
  ∃ s', for_range xs body s = Ok s' ∧ Inv (length xs) s'.
Proof.
  intros H0 Hstep. by apply (for_range_from_inv Inv 0 xs body s).
Qed.

(** A loop that reads [xs[j]] and appends a function of it computes a
    map. *)
Lemma for_loop_append {B} (f : A → B) (xs : list A)
    (body : nat → list B → result (list B)) (acc0 : list B) :
  (∀ j x acc, xs !! j = Some x → body j acc = Ok (acc ++ [f x])) →
  for_loop 0 (length xs) body acc0 = Ok (acc0 ++ (f <$> xs)).
Proof.
  intros Hbody.
  destruct (for_loop_inv (λ j acc, acc = acc0 ++ (f <$> take j xs))
              0 (length xs) body acc0)
    as (out & -> & ->); [lia|by rewrite app_nil_r| |by rewrite firstn_all].
  intros j acc [_ Hj] ->.
  destruct (lookup_lt_is_Some_2 xs j Hj) as [x Hx].
  eexists. split; [by apply Hbody|].
  by rewrite (take_S_r _ _ x), fmap_app, app_assoc.
Qed.

Lemma for_count_add {St} a b i (body : nat → St → result St) s :
  for_count (a + b) i body s
  = (s' ← for_count a i body s; for_count b (i + a) body s').
Proof.
  revert i s. induction a as [|a IH]; intros i s; simpl.
  - by rewrite Nat.add_0_r.
  - destruct (body i s) as [t|e]; simpl; [|done].
    rewrite IH. by replace (S i + a) with (i + S a) by lia.
Qed.

End loops.

Section folds.

Lemma foldl_snoc_fmap {A B} (f : A → B) (acc : list B) (l : list A) :
  foldl (λ acc x, acc ++ [f x]) acc l = acc ++ (f <$> l).
Proof.
  revert acc. induction l as [|x l IH]; intros acc; simpl.
  - by rewrite app_nil_r.
  - by rewrite IH, <- app_assoc.
Qed.

Lemma foldl_pointwise {A B} (f g : B → A → B) (b : B) (l : list A) :
  (∀ b x, f b x = g b x) → foldl f b l = foldl g b l.
Proof.
  intros Hfg. revert b. induction l as [|x l IH]; intros b; simpl; [done|].
  by rewrite Hfg, IH.
Qed.

End folds.

(** ** The nearest palette entry *)

Section closest_facts.

Import noteshrink.

Lemma closest_nearest p means :
  means ≠ [] → ∃ m, closest p means = Ok m ∧ is_nearest p means m.
Proof.
  intros Hne.
  destruct (index_lt means 0) as (m0 & Hm0 & Hi0);
    [destruct means; simpl; [done|lia]|].
  assert (1 ≤ length means) as Hlen by (destruct means; simpl; [done|lia]).
  unfold closest. rewrite Hi0. cbn [mbind result_bind].
  pose (Inv := λ (j : nat) (st : nat * float32),
    ∃ c, means !! st.1 = Some c ∧ st.2 = squareDistance p c ∧ st.1 < j ∧
      (∀ t ct, t < j → means !! t = Some ct →
         (squareDistance p ct <? st.2)%f32 = false) ∧
      (∀ t ct, t < st.1 → means !! t = Some ct →
         (squareDistance p ct =? st.2)%f32 = false)).
  edestruct (for_loop_inv Inv 1 (length means)) as ([idx mn] & -> & HI);
    [done| | |].
  - exists m0. cbn [fst snd]. repeat split; [done|lia| |intros; lia].
    intros t ct Ht Hc. replace t with 0 in Hc by lia. simplify_eq.
    apply f32_lt_irrefl.
  - intros j [idx mn] Hj (c & Hc & Hmn & Hidx & Hlt & Heq).
    cbn [fst snd] in *.
    destruct (index_lt means j) as (mj & Hmj & ->); [lia|].
    cbn [mbind result_bind].
    destruct (squareDistance p mj <? mn)%f32 eqn:Hcmp.
    + eexists. split; [done|]. exists mj. cbn [fst snd].
      repeat split; [done|lia| |].
      * intros t ct Ht Hct.
        destruct (decide (t = j)) as [->|].
        { simplify_eq. apply f32_lt_irrefl. }
        destruct (squareDistance p ct <? squareDistance p mj)%f32 eqn:E;
          [|done].
        rewrite <- (Hlt t ct); [|lia|done].
        symmetry. by eapply f32_lt_trans.
      * intros t ct Ht Hct.
        destruct (squareDistance p ct =? squareDistance p mj)%f32 eqn:E;
          [|done].
        rewrite <- (Hlt t ct); [|lia|done].
        symmetry. by eapply f32_eq_lt_trans.
    + eexists. split; [done|]. exists c. cbn [fst snd].
      repeat split; [done|done|lia| |done].
      intros t ct Ht Hct.
      destruct (decide (t = j)) as [->|]; [by simplify_eq|].
      apply (Hlt t); [lia|done].
  - cbn [mbind result_bind mret result_ret fst]. exists idx. split; [done|].
    destruct HI as (c & Hc & Hmn & Hidx & Hlt & Heq). cbn [fst snd] in *.
    subst mn. exists c. split; [done|]. split.
    + intros j cj Hj. rewrite <- !squareDistance_sqDist.
      apply (Hlt j); [|done]. by eapply lookup_lt_Some.
    + intros j cj Hjm Hj. rewrite <- !squareDistance_sqDist.
      by apply (Heq j).
Qed.

End closest_facts.

(** ** Foreground mask and remapping *)

Section remap_facts.

Import noteshrink.

Lemma hsv_columns (samples : list rgbf) (ss vs : list float32) :
  foldl (λ '(sSamples, vSamples) sample,
           let '(_, s, v) := rgbToHsv sample in
           (sSamples ++ [s], vSamples ++ [v])) (ss, vs) samples
  = (ss ++ ((λ p, (rgbToHsv p).1.2) <$> samples),
     vs ++ ((λ p, (rgbToHsv p).2) <$> samples)).
Proof.
  revert ss vs. induction samples as [|p samples IH]; intros ss vs; simpl.
  - by rewrite !app_nil_r.
  - destruct (rgbToHsv p) as [[h s] v] eqn:E. rewrite IH. simpl.
    by rewrite <- !app_assoc.
Qed.

Lemma createForegroundMask_map bgColor samples opt :
  createForegroundMask bgColor samples opt
  = Ok ((λ p, isForeground bgColor p opt) <$> samples).
Proof.
  unfold createForegroundMask.
  destruct (rgbToHsv bgColor) as [[hBg sBg] vBg] eqn:Ebg.
  rewrite hsv_columns. simpl app.
  rewrite (for_loop_append (λ p, isForeground bgColor p opt)); [done|].
  intros j p acc Hp.
  rewrite !(index_fmap _ _ _ p) by done.
  cbn [mbind result_bind mret result_ret].
  rewrite <- isForeground_code, Ebg. by destruct (rgbToHsv p) as [[h s] v].
Qed.

Lemma closest_Ok_nearest p means m :
  closest p means = Ok m → is_nearest p means m.
Proof.
  intros Hm. destruct means as [|m0 rest]; [done|].
  destruct (closest_nearest p (m0 :: rest)) as (m' & Hm' & Hn); [done|].
  congruence.
Qed.

Lemma applyPalette_Ok_inv img palette origBgColor bgColor opt out :
  applyPalette img palette origBgColor bgColor opt = Ok out →
  Forall2 (remapped palette origBgColor bgColor opt) img out.
Proof.
  unfold applyPalette. rewrite createForegroundMask_map.
  cbn [mbind result_bind]. unfold for_loop. rewrite Nat.sub_0_r.
  intros Hrun.
  rewrite <- (firstn_all img).
  eapply (for_count_inv_partial
            (λ j acc, Forall2 (remapped palette origBgColor bgColor opt)
                              (take j img) acc)) in Hrun; [done|by constructor|].
  intros j acc acc' [_ Hj] Hacc. simpl in Hj.
  destruct (lookup_lt_is_Some_2 img j Hj) as [p Hp].
  rewrite (index_fmap _ _ _ p) by done.
  rewrite (take_S_r _ _ p) by done.
  cbn [mbind result_bind]. intros Hb.
  assert (∃ c, acc' = acc ++ [c] ∧ remapped palette origBgColor bgColor opt p c)
    as (c & -> & Hc); [|by apply Forall2_app; [|repeat constructor]].
  unfold remapped.
  destruct (isForeground origBgColor p opt); simpl in Hb.
  - rewrite (index_Some _ _ p) in Hb by done. cbn [mbind result_bind] in Hb.
    destruct (closest p palette) as [m|] eqn:Hm; [|done].
    cbn [mbind result_bind] in Hb.
    pose proof (closest_Ok_nearest _ _ _ Hm) as Hn.
    destruct Hn as (cm & Hcm & Hn). 
    case_decide; unfold mret, result_ret in Hb.
    + simplify_eq. eexists. split; [done|]. exists 0, cm.
      split; [by exists cm|]. by rewrite decide_True.
    + rewrite (index_Some _ _ cm) in Hb by done.
      cbn [mbind result_bind] in Hb. simplify_eq.
      eexists. split; [done|]. exists m, cm.
      split; [by exists cm|]. by rewrite decide_False.
  - unfold mret, result_ret in Hb. simplify_eq. by eexists.
Qed.

Lemma applyPalette_Panic_inv img palette origBgColor bgColor opt e :
  applyPalette img palette origBgColor bgColor opt = Panic e → palette = [].
Proof.
  unfold applyPalette. rewrite createForegroundMask_map.
  cbn [mbind result_bind]. unfold for_loop. rewrite Nat.sub_0_r.
  apply (for_count_panic_inv (λ _ _, True)); [done|done|].
  intros j acc e' [_ Hj] _. simpl in Hj.
  destruct (lookup_lt_is_Some_2 img j Hj) as [p Hp].
  rewrite (index_fmap _ _ _ p) by done.
  cbn [mbind result_bind].
  destruct (isForeground origBgColor p opt); simpl; [|done].
  rewrite (index_Some _ _ p) by done. cbn [mbind result_bind].
  destruct palette as [|m0 rest]; [done|].
  destruct (closest_nearest p (m0 :: rest)) as (m & Hm & cm & Hcm & _); [done|].
  rewrite Hm. cbn [mbind result_bind]. case_decide; [done|].
  by rewrite (index_Some _ _ cm).
Qed.

Lemma remapped_color palette origBgColor bgColor opt p c :
  remapped palette origBgColor bgColor opt p c →
  c = bgColor ∨ ∃ i, 1 ≤ i ∧ palette !! i = Some c.
Proof.
  unfold remapped. destruct (isForeground origBgColor p opt); [|by left].
  intros (m & cm & _ & Hcm & ->). case_decide; [by left|].
  right. exists m. split; [lia|done].
Qed.

End remap_facts.

(** Claim C1.  [applyPalette] writes one colour per pixel of the full image.
    A pixel is classified against the original background colour by the
    rule of [isForeground] (its value or its saturation differs from the
    background's by at least the threshold).  A background pixel gives the
    rendered background colour [bgColor]; a foreground pixel gives the
    palette entry nearest by squared RGB distance, the lowest index winning
    a tie, except that for index 0 it gives [bgColor].  The only way to
    panic is an empty palette. *)
Theorem applyPalette_remaps_every_pixel img palette origBgColor bgColor opt :
  match noteshrink.applyPalette img palette origBgColor bgColor opt with
  | Ok out =>
      length out = length img ∧
      ∀ i p, img !! i = Some p →
        if isForeground origBgColor p opt then
          ∃ m cm, is_nearest p palette m ∧ palette !! m = Some cm ∧
                  out !! i = Some (if decide (m = 0) then bgColor else cm)
        else out !! i = Some bgColor
  | Panic _ => palette = []
  end.
Proof.
  destruct (noteshrink.applyPalette img palette origBgColor bgColor opt)
    as [out|e] eqn:Hrun; [|by eapply applyPalette_Panic_inv].
  apply applyPalette_Ok_inv in Hrun.
  split; [symmetry; by eapply Forall2_length|].
  intros i p Hp.
  destruct (Forall2_lookup_l _ _ _ _ _ Hrun Hp) as (c & Hc & Hpc).
  unfold remapped in Hpc.
  destruct (isForeground origBgColor p opt); [|by subst].
  destruct Hpc as (m & cm & ? & ? & ->). by exists m, cm.
Qed.

(** ** Conversion of integers to binary32 *)

Section of_int_facts.

#[local] Open Scope Z_scope.

Lemma digits2_pos_size p : digits2_pos p = Pos.size p.
Proof. induction p; simpl; congruence. Qed.

Lemma digits2_bounds p :
  2 ^ (Zpos (digits2_pos p) - 1) ≤ Zpos p < 2 ^ Zpos (digits2_pos p).
Proof.
  rewrite digits2_pos_size.
  pose proof (Pos.size_gt p) as Hgt. pose proof (Pos.size_le p) as Hle.
  assert (Zpos (2 ^ Pos.size p) = 2 ^ Zpos (Pos.size p)) as E
    by (by rewrite Pos2Z.inj_pow).
  assert (2 ^ Zpos (Pos.size p) = 2 * 2 ^ (Zpos (Pos.size p) - 1)) as E'.
  { rewrite <- Z.pow_succ_r by lia. f_equal. lia. }
  lia.
Qed.

Lemma digits2_unique m d :
  2 ^ (d - 1) ≤ Zpos m < 2 ^ d → Zpos (digits2_pos m) = d.
Proof.
  intros [Hlo Hhi]. pose proof (digits2_bounds m) as [Hlo' Hhi'].
  set (d' := Zpos (digits2_pos m)) in *.
  assert (0 < d).
  { destruct (Z_lt_le_dec 0 d); [done|].
    assert (2 ^ d ≤ 2 ^ 0) by (apply Z.pow_le_mono_r; lia). simpl in *. lia. }
  destruct (Z.lt_trichotomy d' d) as [Hlt|[->|Hgt]]; [|done|].
  - assert (2 ^ d' ≤ 2 ^ (d - 1)) by (apply Z.pow_le_mono_r; lia). lia.
  - assert (2 ^ d ≤ 2 ^ (d' - 1)) by (apply Z.pow_le_mono_r; lia). lia.
Qed.

Lemma iter_pos_nat {A} (f : A → A) n x :
  SpecFloat.iter_pos f n x = Nat.iter (Pos.to_nat n) f x.
Proof.
  revert x. induction n as [n IH|n IH|]; intros x.
  - rewrite Pos2Nat.inj_xI. cbn [SpecFloat.iter_pos].
    rewrite !IH, <- Nat.iter_add, <- Nat.iter_succ_r. f_equal. lia.
  - rewrite Pos2Nat.inj_xO. cbn [SpecFloat.iter_pos].
    rewrite !IH, <- Nat.iter_add. f_equal. lia.
  - done.
Qed.

Lemma shr_1_m mrs : 0 ≤ shr_m mrs → shr_m (shr_1 mrs) = shr_m mrs / 2.
Proof.
  destruct mrs as [[|[p|p|]|p] r s]; simpl; intros H; try done.
  - rewrite Pos2Z.inj_xI. apply Z.div_unique with 1; lia.
  - rewrite Pos2Z.inj_xO. apply Z.div_unique with 0; lia.
Qed.

Lemma shr_m_iter n mrs :
  0 ≤ shr_m mrs →
  shr_m (SpecFloat.iter_pos shr_1 n mrs) = shr_m mrs / 2 ^ Zpos n.
Proof.
  rewrite iter_pos_nat. intros Hm.
  replace (Zpos n) with (Z.of_nat (Pos.to_nat n)) by apply positive_nat_Z.
  induction (Pos.to_nat n) as [|k IH]; simpl Nat.iter.
  - change (Z.of_nat 0) with 0. by rewrite Z.pow_0_r, Z.div_1_r.
  - assert (0 ≤ shr_m (Nat.iter k shr_1 mrs))
      by (rewrite IH; apply Z.div_pos; lia).
    rewrite shr_1_m, IH, Nat2Z.inj_succ, Z.pow_succ_r by lia.
    rewrite Z.div_div by lia. f_equal. lia.
Qed.

Lemma iter_xO_value p k : Zpos (Pos.iter xO p k) = Zpos p * 2 ^ Zpos k.
Proof.
  induction k as [|k IH] using Pos.peano_ind.
  - simpl. lia.
  - rewrite Pos.iter_succ, Pos2Z.inj_xO, IH, Pos2Z.inj_succ, Z.pow_succ_r by lia.
    lia.
Qed.

(** A mantissa that already has the canonical exponent is left as it is. *)
Lemma binary_round_aux_canonical s m e :
  fexp f32.prec f32.emax (Zpos (digits2_pos m) + e) = e →
  e ≤ 104 →
  binary_round_aux f32.prec f32.emax s (Zpos m) e loc_Exact
  = S754_finite s m e.
Proof.
  intros Hc He. unfold binary_round_aux, shr_fexp. std_names. simpl Zdigits2.
  rewrite Hc, Z.sub_diag. simpl. rewrite Hc, Z.sub_diag. simpl.
  replace (e <=? f32.emax - f32.prec) with true; [done|].
  symmetry. apply Z.leb_le. unfold f32.emax, f32.prec. lia.
Qed.

(** Every positive int64 converts to a positive finite binary32. *)
Lemma of_int_pos_finite n :
  0 < n ≤ f32.max_int64 →
  ∃ m e, f32.of_int n = S754_finite false m e.
Proof.
  intros [Hpos Hmax]. destruct n as [|p|p]; [lia| |lia].
  unfold f32.of_int, binary_normalize, binary_round. std_names.
  pose proof (digits2_bounds p) as [Hlo Hhi].
  set (d := Zpos (digits2_pos p)) in *.
  assert (0 < d) as Hd by (unfold d; lia).
  assert (d ≤ 63) as Hd63.
  { destruct (Z_le_gt_dec d 63); [done|].
    assert (2 ^ 63 ≤ 2 ^ (d - 1)) by (apply Z.pow_le_mono_r; lia).
    unfold f32.max_int64 in Hmax. lia. }
  assert (fexp f32.prec f32.emax (d + 0) = d - 24) as Hfexp
    by (unfold fexp, emin, f32.prec, f32.emax; lia).
  rewrite Hfexp. unfold shl_align. std_names.
  destruct (d - 24 - 0) as [|q|q] eqn:Hq.
  - (* exactly 24 digits *)
    rewrite binary_round_aux_canonical; [by eauto| |lia].
    fold d. unfold fexp, emin, f32.prec, f32.emax; lia.
  - (* more than 24 digits: the low bits are rounded away *)
    unfold binary_round_aux. unfold shr_fexp at 1. std_names. simpl Zdigits2. fold d.
    rewrite Hfexp. replace (d - 24 - 0) with (Zpos q) by lia.
    unfold shr at 1. cbv beta iota.
    set (mrs := SpecFloat.iter_pos shr_1 q (shr_record_of_loc (Zpos p) loc_Exact)).
    assert (shr_m mrs = Zpos p / 2 ^ Zpos q) as Hm
      by (unfold mrs; rewrite shr_m_iter; simpl; [done|lia]).
    assert (2 ^ 23 ≤ shr_m mrs < 2 ^ 24) as Hrange.
    { rewrite Hm. replace (Zpos q) with (d - 24) by lia.
      assert (2 ^ (d - 1) = 2 ^ 23 * 2 ^ (d - 24)) as E1
        by (rewrite <- Z.pow_add_r by lia; f_equal; lia).
      assert (2 ^ d = 2 ^ 24 * 2 ^ (d - 24)) as E2
        by (rewrite <- Z.pow_add_r by lia; f_equal; lia).
      rewrite E1 in Hlo. rewrite E2 in Hhi. clear E1 E2.
      assert (0 < 2 ^ (d - 24)) by (apply Z.pow_pos_nonneg; lia).
      split.
      - apply Z.div_le_lower_bound; lia.
      - apply Z.div_lt_upper_bound; lia. }
    set (m1 := round_nearest_even (shr_m mrs) (loc_of_shr_record mrs)).
    assert (2 ^ 23 ≤ m1 ≤ 2 ^ 24) as Hm1.
    { unfold m1, round_nearest_even.
      destruct (loc_of_shr_record mrs) as [|[]]; try lia.
      destruct (Z.even (shr_m mrs)); lia. }
    clearbody m1. destruct m1 as [|mr|mr]; [lia| |lia].
    unfold shr_fexp. std_names. simpl Zdigits2. simpl shr_record_of_loc.
    destruct (Z.eq_dec (Zpos mr) (2 ^ 24)) as [E24|Hne].
    + assert (mr = 16777216%positive) as -> by lia.
      change (digits2_pos 16777216) with 25%positive.
      replace (0 + Zpos q) with (d - 24) by lia.
      replace (fexp f32.prec f32.emax (25 + (d - 24)) - (d - 24)) with 1
        by (unfold fexp, emin, f32.prec, f32.emax; lia).
      simpl. 
      replace (d - 24 + 1 <=? f32.emax - f32.prec) with true; [by eauto|].
      symmetry. apply Z.leb_le. unfold f32.emax, f32.prec. lia.
    + rewrite (digits2_unique mr 24) by lia.
      replace (0 + Zpos q) with (d - 24) by lia.
      replace (fexp f32.prec f32.emax (24 + (d - 24)) - (d - 24)) with 0
        by (unfold fexp, emin, f32.prec, f32.emax; lia).
      simpl.
      replace (d - 24 <=? f32.emax - f32.prec) with true; [by eauto|].
      symmetry. apply Z.leb_le. unfold f32.emax, f32.prec. lia.
  - (* fewer than 24 digits: exact after alignment *)
    assert (Zpos (Pos.iter xO p q) = Zpos p * 2 ^ (24 - d)) as Hv
      by (rewrite iter_xO_value; f_equal; f_equal; lia).
    assert (Zpos (digits2_pos (Pos.iter xO p q)) = 24) as Hdig.
    { apply digits2_unique. rewrite Hv.
      assert (2 ^ (24 - 1) = 2 ^ (d - 1) * 2 ^ (24 - d)) as ->
        by (rewrite <- Z.pow_add_r by lia; f_equal; lia).
      assert (2 ^ 24 = 2 ^ d * 2 ^ (24 - d)) as ->
        by (rewrite <- Z.pow_add_r by lia; f_equal; lia).
      assert (0 < 2 ^ (24 - d)) by (apply Z.pow_pos_nonneg; lia).
      nia. }
    rewrite binary_round_aux_canonical; [by eauto| |lia].
    rewrite Hdig. unfold fexp, emin, f32.prec, f32.emax; lia.
Qed.

(** A finite non-zero number divided by itself is exactly one. *)
Lemma div_self_finite s m e :
  f32.div (S754_finite s m e) (S754_finite s m e) = f32.one.
Proof.
  unfold f32.div, SFdiv, SFdiv_core_binary. std_names.
  rewrite !Z.sub_diag.
  replace (Z.min (fexp f32.prec f32.emax 0) 0) with (-24) by reflexivity.
  change (0 - -24) with 24. cbv iota beta.
  replace (Z.shiftl (Zpos m) 24) with (2 ^ 24 * Zpos m)
    by (rewrite Z.shiftl_mul_pow2; lia).
  assert (Z.div_eucl (2 ^ 24 * Zpos m) (Zpos m) = (2 ^ 24, 0)) as ->.
  { pose proof (Z.div_eucl_eq (2 ^ 24 * Zpos m) (Zpos m)) as Heq.
    pose proof (Z.mod_pos_bound (2 ^ 24 * Zpos m) (Zpos m)) as Hb.
    unfold Z.modulo in Hb.
    destruct (Z.div_eucl (2 ^ 24 * Zpos m) (Zpos m)) as [q r].
    assert (r = 0 ∧ q = 2 ^ 24) as [-> ->]; [|done].
    specialize (Heq ltac:(lia)). specialize (Hb ltac:(lia)).
    assert (Zpos m * (2 ^ 24 - q) = r) by lia.
    assert (2 ^ 24 - q = 0) by nia. lia. }
  assert (new_location (Zpos m) 0 = loc_Exact) as ->
    by (unfold new_location, new_location_even, new_location_odd;
        destruct (Z.even (Zpos m)); reflexivity).
  destruct s; reflexivity.
Qed.

End of_int_facts.

(** ** Rounding to binary32 *)

Section rounding_facts.

#[local] Open Scope Z_scope.

Lemma of_int_nonneg n :
  0 ≤ n →
  match f32.of_int n with
  | S754_zero s | S754_infinity s | S754_finite s _ _ => s = false
  | S754_nan => True
  end.
Proof.
  intros Hn. destruct n as [|p|p]; [done| |lia].
  unfold f32.of_int, binary_normalize, binary_round.
  destruct (shl_align _ _ _) as [mz ez]. apply binary_round_aux_sign.
Qed.

Lemma to_int_negative_sign (x : float32) :
  match x with
  | S754_finite s _ _ | S754_infinity s => s = true
  | _ => True
  end →
  f32.to_int x ≤ 0.
Proof.
  destruct x as [s|s| |s m e]; simpl; intros Hs; try done.
  subst s. pose proof (Z.shiftl_nonneg (Zpos m) e) as [_ Hnn].
  specialize (Hnn ltac:(lia)).
  destruct (_ && _); unfold f32.min_int64; lia.
Qed.

(** Shifting right [n] times divides by [2^n]; the round bit is set only
    when something was shifted out. *)
Lemma shr_iter_exact (P : Z) (n : nat) :
  0 ≤ P →
  let mrs := Nat.iter n shr_1 {| shr_m := P; shr_r := false; shr_s := false |} in
  ∃ rem, P = shr_m mrs * 2 ^ Z.of_nat n + rem ∧ 0 ≤ rem < 2 ^ Z.of_nat n ∧
         0 ≤ shr_m mrs ∧ (shr_r mrs = true → 0 < rem).
Proof.
  intros HP. induction n as [|n IH].
  - exists 0. simpl. repeat split; lia.
  - cbv zeta in IH |- *. rewrite Nat.iter_succ.
    destruct IH as (rem & HP' & Hrem & Hm & _).
    destruct (Nat.iter n shr_1 _) as [m r s]. simpl in HP', Hm.
    rewrite Nat2Z.inj_succ, Z.pow_succ_r by lia.
    assert (0 < 2 ^ Z.of_nat n) by (apply Z.pow_pos_nonneg; lia).
    destruct m as [|[p|p|]|p]; simpl; try lia.
    + exists rem. repeat split; try lia; try done.
    + exists (2 ^ Z.of_nat n + rem). rewrite Pos2Z.inj_xI in HP'.
      repeat split; try lia.
    + exists rem. rewrite Pos2Z.inj_xO in HP'. repeat split; try lia; try done.
    + exists (2 ^ Z.of_nat n + rem). repeat split; try lia.
Qed.

(** The first shift of rounding, followed by rounding to nearest even: the
    mantissa is kept when it fits, and otherwise is the quotient by the
    shifted-out power of two, or one more when the value was not exact. *)
Lemma shr_fexp_exact (P : positive) (E : Z) :
  let s := fexp f32.prec f32.emax (Zpos (digits2_pos P) + E) - E in
  let '(mrs, e) := shr_fexp f32.prec f32.emax (Zpos P) E loc_Exact in
  let m1 := round_nearest_even (shr_m mrs) (loc_of_shr_record mrs) in
  (s ≤ 0 → shr_m mrs = Zpos P ∧ m1 = Zpos P ∧ e = E) ∧
  (0 < s →
     e = E + s ∧
     let q := Zpos P / 2 ^ s in
     shr_m mrs = q ∧
     (m1 = q ∨ (m1 = q + 1 ∧ q * 2 ^ s < Zpos P))).
Proof.
  intros s. unfold shr_fexp. std_names. simpl Zdigits2. fold s.
  unfold shr. destruct s as [|n|n] eqn:Hs.
  - split; [|lia]. done.
  - split; [lia|]. intros _. split; [done|].
    rewrite iter_pos_nat.
    destruct (shr_iter_exact (Zpos P) (Pos.to_nat n) ltac:(lia))
      as (rem & HP & Hrem & Hm & Hr).
    rewrite positive_nat_Z in HP, Hrem.
    set (mrs := Nat.iter (Pos.to_nat n) shr_1 _) in *.
    simpl shr_record_of_loc. fold mrs.
    assert (0 < 2 ^ Zpos n) by (apply Z.pow_pos_nonneg; lia).
    assert (Zpos P / 2 ^ Zpos n = shr_m mrs) as Hq.
    { symmetry. apply Z.div_unique with rem; lia. }
    cbv zeta. rewrite Hq. split; [done|].
    unfold round_nearest_even, loc_of_shr_record.
    destruct mrs as [m [] []]; simpl in *.
    + right. split; [done|]. specialize (Hr eq_refl). lia.
    + specialize (Hr eq_refl). destruct (Z.even m); [by left|right]. lia.
    + by left.
    + by left.
  - split; [|lia]. done.
Qed.

Lemma pow2_split a b : 0 ≤ a → 0 ≤ b → 2 ^ (a + b) = 2 ^ a * 2 ^ b.
Proof. intros. by rewrite Z.pow_add_r. Qed.

Lemma pow2_pos a : 0 ≤ a → 0 < 2 ^ a.
Proof. intros. by apply Z.pow_pos_nonneg. Qed.

(** The leading 24 bits of a number of more digits. *)
Lemma leading_bits (P : positive) :
  let d := Zpos (digits2_pos P) in
  24 < d → 2 ^ 23 ≤ Zpos P / 2 ^ (d - 24) < 2 ^ 24.
Proof.
  intros d Hd. pose proof (digits2_bounds P) as [Hlo Hhi]. fold d in Hlo, Hhi.
  assert (2 ^ (d - 1) = 2 ^ 23 * 2 ^ (d - 24)) as E1
    by (rewrite <- Z.pow_add_r by lia; f_equal; lia).
  assert (2 ^ d = 2 ^ 24 * 2 ^ (d - 24)) as E2
    by (rewrite <- Z.pow_add_r by lia; f_equal; lia).
  rewrite E1 in Hlo. rewrite E2 in Hhi.
  pose proof (pow2_pos (d - 24) ltac:(lia)).
  split.
  - apply Z.div_le_lower_bound; lia.
  - apply Z.div_lt_upper_bound; lia.
Qed.

(** Rounding to nearest never passes a binary32 number that bounds the
    exact value from above.  Values are compared after scaling by
    [2^200]. *)
Lemma binary_round_aux_le_bound (P : positive) (E : Z) (mb : positive) (eb : Z) :
  -200 ≤ E → -149 ≤ eb →
  2 ^ 23 ≤ Zpos mb < 2 ^ 24 →
  Zpos P * 2 ^ (E + 200) ≤ Zpos mb * 2 ^ (eb + 200) →
  match binary_round_aux f32.prec f32.emax false (Zpos P) E loc_Exact with
  | S754_finite _ m e =>
      -200 ≤ e ∧ Zpos m * 2 ^ (e + 200) ≤ Zpos mb * 2 ^ (eb + 200)
  | _ => True
  end.
Proof.
  intros HE Heb Hmb Hle.
  set (B := Zpos mb * 2 ^ (eb + 200)) in *.
  unfold binary_round_aux.
  pose proof (shr_fexp_exact P E) as H1. cbv zeta in H1.
  destruct (shr_fexp f32.prec f32.emax (Zpos P) E loc_Exact) as [mrs' e'].
  set (m1 := round_nearest_even (shr_m mrs') (loc_of_shr_record mrs')) in *.
  set (d := Zpos (digits2_pos P)) in *.
  set (s := fexp f32.prec f32.emax (d + E) - E) in *.
  assert (0 ≤ m1 ∧ E ≤ e' ∧ m1 * 2 ^ (e' + 200) ≤ B) as (Hm1 & He' & Hb1).
  { destruct H1 as [Hnone Hshift].
    destruct (Z_le_gt_dec s 0) as [Hs|Hs].
    - destruct (Hnone Hs) as (_ & -> & ->). lia.
    - destruct (Hshift ltac:(lia)) as (-> & _ & Hm1).
      pose proof (pow2_pos s ltac:(lia)) as Hps.
      pose proof (pow2_pos (E + 200) ltac:(lia)) as HpE.
      assert (2 ^ (E + s + 200) = 2 ^ s * 2 ^ (E + 200)) as Hsplit
        by (rewrite <- pow2_split by lia; f_equal; lia).
      remember (Zpos P / 2 ^ s) as q eqn:Hqdef. cbv zeta in Hm1.
      assert (0 ≤ q) by (subst q; apply Z.div_pos; lia).
      assert (q * 2 ^ s ≤ Zpos P) as Hq
        by (subst q; rewrite Z.mul_comm; apply Z.mul_div_le; lia).
      destruct Hm1 as [->|[-> Hlt]].
      + split; [done|]. split; [lia|]. rewrite Hsplit. nia.
      + split; [lia|]. split; [lia|]. rewrite Hsplit.
        assert (q * (2 ^ s * 2 ^ (E + 200)) < B) as Hqb by nia.
        unfold s, fexp, emin, f32.prec, f32.emax in *.
        destruct (Z_le_gt_dec (-149) (d + E - 24)) as [Hnorm|Hsub].
        * (* normal range: the quotient has 24 digits *)
          replace (Z.max (d + E - 24) (3 - 128 - 24) - E) with (d - 24) in * by lia.
          pose proof (leading_bits P ltac:(fold d; lia)) as Hlead.
          fold d in Hlead. cbv zeta in Hlead. rewrite <- Hqdef in Hlead.
          set (e1 := E + (d - 24)) in *.
          assert (2 ^ (d - 24) * 2 ^ (E + 200) = 2 ^ (e1 + 200)) as Hs'
            by (rewrite <- pow2_split by lia; f_equal; lia).
          rewrite Hs' in *.
          pose proof (pow2_pos (e1 + 200) ltac:(lia)) as Hpe1.
          assert (e1 ≤ eb) as Hord.
          { destruct (Z_le_gt_dec e1 eb); [done|]. exfalso.
            assert (2 ^ (e1 + 200) = 2 ^ (e1 - eb) * 2 ^ (eb + 200)) as Hx
              by (rewrite <- pow2_split by lia; f_equal; lia).
            pose proof (pow2_pos (eb + 200) ltac:(lia)).
            assert (2 ≤ 2 ^ (e1 - eb))
              by (change 2 with (2 ^ 1) at 1; apply Z.pow_le_mono_r; lia).
            unfold B in Hqb. rewrite Hx in Hqb.
            assert (2 ^ 24 ≤ q * 2 ^ (e1 - eb)) as Hqx by nia.
            assert (2 ^ 24 * 2 ^ (eb + 200)
                    ≤ q * 2 ^ (e1 - eb) * 2 ^ (eb + 200)) as Hqxy
              by (apply Z.mul_le_mono_nonneg_r; lia).
            assert (Zpos mb * 2 ^ (eb + 200) < 2 ^ 24 * 2 ^ (eb + 200))
              by (apply Z.mul_lt_mono_pos_r; lia).
            lia. }
          assert (B = Zpos mb * 2 ^ (eb - e1) * 2 ^ (e1 + 200)) as HB.
          { unfold B. rewrite <- Z.mul_assoc, <- pow2_split by lia.
            f_equal. f_equal. lia. }
          rewrite HB in Hqb |- *.
          assert (q < Zpos mb * 2 ^ (eb - e1)) by nia.
          nia.
        * (* subnormal range: the result is below the least normal number *)
          replace (Z.max (d + E - 24) (3 - 128 - 24) - E) with (-149 - E) in * by lia.
          assert (q < 2 ^ 23) as Hq23.
          { rewrite Hqdef. apply Z.div_lt_upper_bound; [lia|].
            pose proof (digits2_bounds P) as [_ Hhi]. fold d in Hhi.
            destruct (Z_le_gt_dec 0 (d + 149 + E)) as [Hd|Hd].
            - assert (2 ^ d = 2 ^ (-149 - E) * 2 ^ (d + 149 + E)) as Hx
                by (rewrite <- pow2_split by lia; f_equal; lia).
              assert (2 ^ (d + 149 + E) ≤ 2 ^ 23)
                by (apply Z.pow_le_mono_r; lia).
              nia.
            - assert (2 ^ d ≤ 2 ^ (-149 - E))
                by (apply Z.pow_le_mono_r; unfold d; lia).
              nia. }
          assert (2 ^ (-149 - E) * 2 ^ (E + 200) = 2 ^ 51) as ->
            by (rewrite <- pow2_split by lia; f_equal; lia).
          assert (2 ^ 51 ≤ 2 ^ (eb + 200)) by (apply Z.pow_le_mono_r; lia).
          unfold B. nia. }
  destruct m1 as [|p1|p1] eqn:Em1; [|clear Em1|lia].
  { unfold shr_fexp, shr. simpl shr_record_of_loc.
    destruct (_ - e')%Z as [|n|n]; try done.
    rewrite shr_m_iter by done. done. }
  pose proof (shr_fexp_exact p1 e') as H2. cbv zeta in H2.
  destruct (shr_fexp f32.prec f32.emax (Zpos p1) e' loc_Exact) as [mrs'' e''].
  set (s2 := fexp f32.prec f32.emax (Zpos (digits2_pos p1) + e') - e') in *.
  assert (e' ≤ e'' ∧ 0 ≤ shr_m mrs'' ∧ shr_m mrs'' * 2 ^ (e'' + 200) ≤ B)
    as (He'' & Hm'' & Hb2).
  { destruct H2 as [Hnone Hshift].
    destruct (Z_le_gt_dec s2 0) as [Hs|Hs].
    - destruct (Hnone Hs) as (-> & _ & ->). lia.
    - destruct (Hshift ltac:(lia)) as (-> & -> & _).
      pose proof (pow2_pos s2 ltac:(lia)).
      pose proof (pow2_pos (e' + 200) ltac:(lia)).
      assert (2 ^ (e' + s2 + 200) = 2 ^ s2 * 2 ^ (e' + 200)) as ->
        by (rewrite <- pow2_split by lia; f_equal; lia).
      assert (Zpos p1 / 2 ^ s2 * 2 ^ s2 ≤ Zpos p1)
        by (rewrite Z.mul_comm; apply Z.mul_div_le; lia).
      assert (0 ≤ Zpos p1 / 2 ^ s2) by (apply Z.div_pos; lia).
      split; [lia|]. split; [done|]. nia. }
  destruct (shr_m mrs'') as [|m|m]; [done| |done].
  destruct (e'' <=? f32.emax - f32.prec)%Z; [|done].
  split; [lia|done].
Qed.

(** Integers up to [2^24] convert exactly, to a normal number. *)
Lemma of_int_small n :
  1 ≤ n ≤ 2 ^ 24 →
  ∃ mx ex, f32.of_int n = S754_finite false mx ex ∧
           2 ^ 23 ≤ Zpos mx < 2 ^ 24 ∧ -23 ≤ ex ≤ 1 ∧
           Zpos mx * 2 ^ (ex + 200) = n * 2 ^ 200.
Proof.
  intros [Hlo Hhi].
  destruct (Z.eq_dec n (2 ^ 24)) as [->|Hne].
  { exists 8388608%positive, 1. repeat split; try done. }
  destruct n as [|p|p]; [lia| |lia].
  unfold f32.of_int, binary_normalize, binary_round. std_names.
  pose proof (digits2_bounds p) as [Hdlo Hdhi].
  set (d := Zpos (digits2_pos p)) in *.
  assert (0 < d) as Hd by (unfold d; lia).
  assert (d ≤ 24) as Hd24.
  { destruct (Z_le_gt_dec d 24); [done|].
    assert (2 ^ 24 ≤ 2 ^ (d - 1)) by (apply Z.pow_le_mono_r; lia). lia. }
  assert (fexp f32.prec f32.emax (d + 0) = d - 24) as Hfexp
    by (unfold fexp, emin, f32.prec, f32.emax; lia).
  rewrite Hfexp. unfold shl_align. std_names.
  destruct (d - 24 - 0) as [|q|q] eqn:Hq; [|lia|].
  - rewrite binary_round_aux_canonical;
      [|fold d; unfold fexp, emin, f32.prec, f32.emax; lia|lia].
    exists p, 0. split; [done|].
    replace (d - 1) with 23 in Hdlo by lia. replace d with 24 in Hdhi by lia.
    repeat split; lia.
  - assert (Zpos (Pos.iter xO p q) = Zpos p * 2 ^ (24 - d)) as Hv
      by (rewrite iter_xO_value; f_equal; f_equal; lia).
    assert (2 ^ (24 - 1) = 2 ^ (d - 1) * 2 ^ (24 - d)) as E1
      by (rewrite <- Z.pow_add_r by lia; f_equal; lia).
    assert (2 ^ 24 = 2 ^ d * 2 ^ (24 - d)) as E2
      by (rewrite <- Z.pow_add_r by lia; f_equal; lia).
    pose proof (pow2_pos (24 - d) ltac:(lia)) as Hp.
    assert (2 ^ 23 ≤ Zpos (Pos.iter xO p q) < 2 ^ 24) as Hrange.
    { rewrite Hv. change (2 ^ 23) with (2 ^ (24 - 1)). rewrite E1, E2. nia. }
    assert (Zpos (digits2_pos (Pos.iter xO p q)) = 24) as Hdig
      by (apply digits2_unique; exact Hrange).
    rewrite binary_round_aux_canonical;
      [|rewrite Hdig; unfold fexp, emin, f32.prec, f32.emax; lia|lia].
    exists (Pos.iter xO p q), (d - 24). split; [done|].
    split; [done|]. split; [lia|].
    rewrite Hv, <- Z.mul_assoc, <- pow2_split by lia.
    f_equal. f_equal. lia.
Qed.

(** Truncation of a number that is at most [n]. *)
Lemma to_int_le_bound m e n :
  0 ≤ n → -200 ≤ e →
  Zpos m * 2 ^ (e + 200) ≤ n * 2 ^ 200 →
  f32.to_int (S754_finite false m e) ≤ n.
Proof.
  intros Hn He Hle. unfold f32.to_int.
  assert (Z.shiftl (Zpos m) e ≤ n) as Ha.
  { destruct (Z_le_gt_dec 0 e) as [Hpos|Hneg].
    - rewrite Z.shiftl_mul_pow2 by done.
      rewrite pow2_split in Hle by lia.
      pose proof (pow2_pos 200 ltac:(lia)).
      pose proof (pow2_pos e ltac:(lia)). nia.
    - replace e with (- (- e)) by lia.
      rewrite Z.shiftl_opp_r, Z.shiftr_div_pow2 by lia.
      pose proof (pow2_pos (- e) ltac:(lia)).
      pose proof (pow2_pos (e + 200) ltac:(lia)).
      assert (2 ^ 200 = 2 ^ (- e) * 2 ^ (e + 200)) as Hx
        by (rewrite <- pow2_split by lia; f_equal; lia).
      rewrite Hx in Hle.
      apply Z.div_le_upper_bound; [lia|]. nia. }
  destruct (_ && _); [done|]. unfold f32.min_int64. lia.
Qed.

(** A positive binary32 number that is at most one. *)
Lemma valid_le_one mf ef :
  valid_binary f32.prec f32.emax (S754_finite false mf ef) = true →
  f32.le (S754_finite false mf ef) 1%f32 = true →
  -149 ≤ ef ≤ -23 ∧ Zpos mf ≤ 2 ^ (- ef).
Proof.
  unfold valid_binary, bounded, canonical_mantissa. std_names.
  intros [Hcan _]%andb_prop. apply Z.eqb_eq in Hcan.
  pose proof (digits2_bounds mf) as [_ Hhi].
  set (d := Zpos (digits2_pos mf)) in *.
  unfold fexp, emin, f32.prec, f32.emax in Hcan.
  assert (d ≤ 24 ∧ -149 ≤ ef) as [Hd Hef] by lia.
  assert (Zpos mf < 2 ^ 24).
  { assert (2 ^ d ≤ 2 ^ 24) by (apply Z.pow_le_mono_r; unfold d; lia). lia. }
  unfold f32.le, SFleb. change 1%f32 with (S754_finite false 8388608 (-23)).
  rewrite SFcompare_finite_pos.
  destruct (Z.compare_spec ef (-23)) as [->|Hlt|Hgt]; [| |done].
  - change (2 ^ (- -23)) with 8388608.
    destruct (mf ?= 8388608)%positive eqn:Hcmp; intros Hc.
    + apply Pos.compare_eq in Hcmp. clear - Hcmp. lia.
    + assert (Zpos mf < 8388608) as Hlt by exact Hcmp.
      clear - Hlt. lia.
    + discriminate Hc.
  - intros _. split; [lia|].
    assert (2 ^ 24 ≤ 2 ^ (- ef)) by (apply Z.pow_le_mono_r; lia). lia.
Qed.

End rounding_facts.

(** ** k-means *)

Section kMeans_facts.

Import noteshrink.

Lemma kMeans_seeds_fmap k :
  kMeans_seeds k
  = (λ i, hsvToRgb (f32.of_int (Z.of_nat i) / f32.of_int (int_sub k 1))%f32
                   1%f32 1%f32) <$> seq 0 (Z.to_nat k).
Proof. unfold kMeans_seeds. by rewrite foldl_snoc_fmap. Qed.

Lemma kMeans_seeds_length k : length (kMeans_seeds k) = Z.to_nat k.
Proof. by rewrite kMeans_seeds_fmap, length_fmap, length_seq. Qed.

Lemma members_snoc c data clusters j x cl :
  data !! j = Some x → clusters !! j = Some cl →
  members c (take (S j) data) (take (S j) clusters)
  = members c (take j data) (take j clusters)
    ++ (if decide (cl = c) then [x] else []).
Proof.
  intros Hx Hcl. unfold members.
  rewrite (take_S_r _ _ x), (take_S_r _ _ cl) by done.
  apply lookup_lt_Some in Hx, Hcl.
  rewrite zip_with_app by (rewrite !length_take; lia).
  rewrite List.filter_app, fmap_app. f_equal. simpl.
  case_decide as Hc.
  - subst. by rewrite Nat.eqb_refl.
  - apply Nat.eqb_neq in Hc. by rewrite Hc.
Qed.

Lemma sumRGB_snoc pts x : sumRGB (pts ++ [x]) = add (sumRGB pts) x.
Proof. unfold sumRGB. by rewrite foldl_app. Qed.

(** The first loop of an update clears the centres and the counts. *)
Lemma kMeans_reset (means : list rgbf) (mLen : list Z) :
  length mLen = length means →
  ∃ ms ls,
    for_loop 0 (length means) (λ i '(means, mLen),
      means ← store means i (0, 0, 0)%f32;
      mLen ← store mLen i 0%Z;
      mret (means, mLen)) (means, mLen) = Ok (ms, ls) ∧
    length ms = length means ∧ length ls = length means ∧
    ∀ c, c < length means →
      ms !! c = Some (0, 0, 0)%f32 ∧ ls !! c = Some 0%Z.
Proof.
  intros Hlen.
  edestruct (for_loop_inv (λ j (st : list rgbf * list Z),
    length st.1 = length means ∧ length st.2 = length means ∧
    ∀ c, c < j → st.1 !! c = Some (0, 0, 0)%f32 ∧ st.2 !! c = Some 0%Z)
    0 (length means)) as ([ms ls] & Hrun & Hms & Hls & Hz);
    [lia| | |exists ms, ls; split; [exact Hrun|done]].
  - simpl. repeat split; [done|lia|lia].
  - intros j [ms ls] [_ Hj] (Hms & Hls & Hz). simpl in Hms, Hls, Hz.
    rewrite (store_lt ms) by lia. cbn [mbind result_bind].
    rewrite (store_lt ls) by lia. cbn [mbind result_bind].
    eexists. split; [done|]. simpl.
    rewrite !length_insert. split; [done|]. split; [done|].
    intros c Hc. split.
    + destruct (decide (c = j)) as [->|];
        [by rewrite list_lookup_insert_eq by lia|].
      rewrite list_lookup_insert_ne by done. apply Hz. lia.
    + destruct (decide (c = j)) as [->|];
        [by rewrite list_lookup_insert_eq by lia|].
      rewrite list_lookup_insert_ne by done. apply Hz. lia.
Qed.

(** The second loop adds every point to the centre of its cluster and
    counts it there. *)
Lemma kMeans_accumulate (data : list rgbf) (clusters : list nat)
    (ms : list rgbf) (ls : list Z) :
  length clusters = length data →
  length ls = length ms →
  Forall (λ c, c < length ms) clusters →
  (∀ c, c < length ms → ms !! c = Some (0, 0, 0)%f32 ∧ ls !! c = Some 0%Z) →
  ∃ ms' ls',
    for_range data (λ i p '(means, mLen),
      cluster ← index clusters i;
      mc ← index means cluster;
      let m := add mc p in
      means ← store means cluster m;
      n ← index mLen cluster;
      mLen ← store mLen cluster (n + 1)%Z;
      mret (means, mLen)) (ms, ls) = Ok (ms', ls') ∧
    length ms' = length ms ∧ length ls' = length ms ∧
    ∀ c, c < length ms →
      ms' !! c = Some (sumRGB (members c data clusters)) ∧
      ls' !! c = Some (Z.of_nat (length (members c data clusters))).
Proof.
  intros Hcl Hls Hrange Hzero.
  edestruct (for_range_inv (λ j (st : list rgbf * list Z),
    length st.1 = length ms ∧ length st.2 = length ms ∧
    ∀ c, c < length ms →
      st.1 !! c
      = Some (sumRGB (members c (take j data) (take j clusters))) ∧
      st.2 !! c
      = Some (Z.of_nat (length (members c (take j data) (take j clusters)))))
    data) as ([ms' ls'] & Hrun & Hms' & Hls' & Hsum);
    [| |exists ms', ls'; split; [exact Hrun|]].
  - simpl. repeat split; [done| |]; by apply Hzero.
  - intros j x [ms1 ls1] Hx (Hms1 & Hls1 & Hsum). simpl in Hms1, Hls1, Hsum.
    destruct (index_lt clusters j) as (cl & Hcl' & ->);
      [apply lookup_lt_Some in Hx; lia|].
    assert (cl < length ms) as Hclr
      by (rewrite Forall_forall in Hrange; apply Hrange;
          by eapply list_elem_of_lookup_2).
    cbn [mbind result_bind].
    destruct (Hsum cl Hclr) as [Hs Hn].
    rewrite (index_Some _ _ _ Hs). cbn [mbind result_bind].
    rewrite store_lt by lia. cbn [mbind result_bind].
    rewrite (index_Some _ _ _ Hn). cbn [mbind result_bind].
    rewrite store_lt by lia. cbn [mbind result_bind].
    eexists. split; [done|]. simpl. rewrite !length_insert.
    split; [done|]. split; [done|]. intros c Hc.
    rewrite (members_snoc c data clusters j x cl) by done.
    destruct (decide (c = cl)) as [->|Hne].
    + rewrite !list_lookup_insert_eq by lia. rewrite decide_True by done.
      rewrite sumRGB_snoc, length_app. simpl. split; [done|].
      f_equal. lia.
    + rewrite !list_lookup_insert_ne by done. rewrite decide_False by done.
      rewrite app_nil_r. by apply Hsum.
  - simpl in *.
    split; [done|]. split; [done|]. intros c Hc.
    specialize (Hsum c Hc).
    rewrite firstn_all in Hsum. rewrite <- Hcl in Hsum.
    by rewrite firstn_all in Hsum.
Qed.

(** The third loop divides every centre by its count, an empty cluster
    being counted as one point. *)
Lemma kMeans_scale (ms : list rgbf) (ls : list Z) :
  length ls = length ms →
  ∃ ms',
    for_loop 0 (length ms) (λ i means,
      count ← index ls i;
      let count := if (count <=? 0)%Z then 1%Z else count in
      mi ← index means i;
      let m := mul mi (1 / f32.of_int count)%f32 in
      store means i m) ms = Ok ms' ∧
    length ms' = length ms ∧
    ∀ c m n, ms !! c = Some m → ls !! c = Some n →
      ms' !! c
      = Some (mul m (1 / f32.of_int (if (n <=? 0)%Z then 1 else n))%f32).
Proof.
  intros Hls.
  edestruct (for_loop_inv (λ j (cur : list rgbf),
    length cur = length ms ∧
    (∀ c m n, c < j → ms !! c = Some m → ls !! c = Some n →
       cur !! c
       = Some (mul m (1 / f32.of_int (if (n <=? 0)%Z then 1 else n))%f32)) ∧
    (∀ c, j ≤ c → cur !! c = ms !! c))
    0 (length ms)) as (ms' & Hrun & Hlen & Hdone & _);
    [lia| | |exists ms'; split; [exact Hrun|]].
  - split; [done|]. split; [intros; lia|done].
  - intros j cur [_ Hj] (Hlen & Hdone & Hrest).
    destruct (index_lt ls j) as (n & Hn & ->); [lia|].
    cbn [mbind result_bind].
    destruct (index_lt cur j) as (m & Hm & ->); [lia|].
    cbn [mbind result_bind]. rewrite store_lt by lia.
    eexists. split; [done|]. rewrite length_insert.
    split; [done|]. split.
    + intros c m' n' Hc Hm' Hn'.
      destruct (decide (c = j)) as [->|].
      * rewrite list_lookup_insert_eq by lia.
        rewrite Hrest in Hm by lia. by simplify_eq.
      * rewrite list_lookup_insert_ne by done.
        by apply Hdone; [lia|..].
    + intros c Hc. rewrite list_lookup_insert_ne by lia. apply Hrest. lia.
  - split; [done|]. intros c m n Hm Hn.
    apply Hdone; [by eapply lookup_lt_Some|done|done].
Qed.

(** One update of the centres, from the current assignment. *)
Lemma kMeans_update_run data clusters means mLen :
  length clusters = length data →
  length mLen = length means →
  Forall (λ c, c < length means) clusters →
  ∃ means' mLen',
    kMeans_update data clusters means mLen = Ok (means', mLen') ∧
    length means' = length means ∧ length mLen' = length means ∧
    ∀ c, c < length means →
      means' !! c
      = Some (match members c data clusters with
              | [] => (0, 0, 0)%f32
              | pts => meanRGB pts
              end).
Proof.
  intros Hcl Hlen Hrange. unfold kMeans_update. cbv zeta.
  destruct (kMeans_reset means mLen Hlen)
    as (ms0 & ls0 & Hrun0 & Hms0 & Hls0 & Hzero).
  cbv zeta in Hrun0. rewrite Hrun0. cbn [mbind result_bind].
  destruct (kMeans_accumulate data clusters ms0 ls0)
    as (ms1 & ls1 & Hrun1 & Hms1 & Hls1 & Hsum);
    [done|lia|by rewrite Hms0|by rewrite Hms0|].
  cbv zeta in Hrun1. rewrite Hrun1. cbn [mbind result_bind].
  destruct (kMeans_scale ms1 ls1) as (ms2 & Hrun2 & Hms2 & Hscaled); [lia|].
  cbv zeta in Hrun2. rewrite Hrun2.
  cbn [mbind result_bind mret result_ret].
  exists ms2, ls1. split; [done|]. split; [lia|]. split; [lia|].
  intros c Hc. rewrite Hms0 in Hsum.
  destruct (Hsum c Hc) as [Hs Hn].
  rewrite (Hscaled c _ _ Hs Hn). f_equal.
  destruct (members c data clusters) as [|p pts]; [reflexivity|].
  rewrite <- meanRGB_code.
  replace (Z.of_nat (length (p :: pts)) <=? 0)%Z with false; [done|].
  symmetry. apply Z.leb_gt. simpl length. lia.
Qed.

Lemma closest_lt p means :
  means ≠ [] → ∃ m, closest p means = Ok m ∧ m < length means.
Proof.
  intros Hne. destruct (closest_nearest p means Hne) as (m & Hm & cm & Hcm & _).
  exists m. split; [done|]. by eapply lookup_lt_Some.
Qed.

Lemma kMeans_reassign_run data means clusters :
  means ≠ [] →
  length clusters = length data →
  Forall (λ c, c < length means) clusters →
  ∃ clusters' changes,
    kMeans_reassign data means clusters = Ok (clusters', changes) ∧
    length clusters' = length data ∧
    Forall (λ c, c < length means) clusters'.
Proof.
  intros Hne Hlen Hrange. unfold kMeans_reassign.
  edestruct (for_range_inv (λ (j : nat) (st : list nat * Z),
    length st.1 = length data ∧ Forall (λ c, c < length means) st.1) data)
    as ([cl ch] & Hrun & Hcl & Hr);
    [| |exists cl, ch; split; [exact Hrun|done]].
  - done.
  - intros j p [cl ch] Hp [Hcl Hr]. simpl in Hcl, Hr.
    destruct (closest_lt p means Hne) as (m & -> & Hm).
    cbn [mbind result_bind].
    destruct (index_lt cl j) as (ci & Hci & ->);
      [apply lookup_lt_Some in Hp; lia|].
    cbn [mbind result_bind]. case_decide.
    + rewrite store_lt by (apply lookup_lt_Some in Hp; lia).
      cbn [mbind result_bind]. eexists. split; [done|]. simpl.
      rewrite length_insert. split; [done|]. by apply Forall_insert.
    + eexists. split; [done|]. done.
Qed.

Lemma kMeans_iterate_run itrs data means mLen clusters :
  means ≠ [] →
  length clusters = length data →
  length mLen = length means →
  Forall (λ c, c < length means) clusters →
  ∃ means',
    kMeans_iterate itrs data means mLen clusters = Ok means' ∧
    length means' = length means.
Proof.
  revert means mLen clusters.
  induction itrs as [|itrs IH]; intros means mLen clusters Hne Hcl Hlen Hr.
  - by exists means.
  - simpl.
    destruct (kMeans_update_run data clusters means mLen)
      as (means1 & mLen1 & -> & Hm1 & Hl1 & _); [done..|].
    cbn [mbind result_bind].
    assert (means1 ≠ []) as Hne1
      by (destruct means1, means; simpl in *; done).
    destruct (kMeans_reassign_run data means1 clusters)
      as (clusters1 & changes & -> & Hcl1 & Hr1);
      [done|done|by rewrite Hm1|].
    cbn [mbind result_bind].
    destruct (changes =? 0)%Z; [by exists means1|].
    destruct (IH means1 mLen1 clusters1) as (means' & -> & Hm');
      [done|done|lia|done|].
    exists means'. split; [done|lia].
Qed.

(** With at least one cluster, [kMeans] returns as many centres as it was
    asked for. *)
Lemma kMeans_run data k maxItr :
  (1 ≤ k)%Z →
  ∃ means, kMeans data k maxItr = Ok means ∧ length means = Z.to_nat k.
Proof.
  intros Hk. unfold kMeans.
  pose proof (kMeans_seeds_length k) as Hseeds.
  assert (kMeans_seeds k ≠ []) as Hne
    by (destruct (kMeans_seeds k); simpl in *; [lia|done]).
  edestruct (for_range_inv (λ (j : nat) (cl : list nat),
    length cl = length data ∧
    Forall (λ c, c < length (kMeans_seeds k)) cl) data)
    as (cl & Hrun & Hcl & Hr); [| |rewrite Hrun].
  - split; [by rewrite length_replicate|].
    apply Forall_replicate. lia.
  - intros j p cl Hp [Hcl Hr].
    destruct (closest_lt p (kMeans_seeds k) Hne) as (m & -> & Hm).
    cbn [mbind result_bind].
    rewrite store_lt by (apply lookup_lt_Some in Hp; lia).
    eexists. split; [done|]. rewrite length_insert.
    split; [done|]. by apply Forall_insert.
  - cbn [mbind result_bind].
    destruct (kMeans_iterate_run (Z.to_nat maxItr) data (kMeans_seeds k)
                (replicate (length (kMeans_seeds k)) 0%Z) cl)
      as (means & -> & Hm); [done|done|by rewrite length_replicate|done|].
    exists means. split; [done|lia].
Qed.

End kMeans_facts.

(** Claim C8.  The update step of [kMeans] never panics.  For every
    cluster with at least one assigned point it returns, in each channel,
    the binary32 sum of the channel over the points of the cluster,
    accumulated from zero in data order, times the binary32 reciprocal of
    their number: the mean up to the rounding of every one of these
    operations, which is not always the mean itself.  For a cluster
    without points it returns the zero vector: its count is taken as 1. *)
Theorem kMeans_update_recomputes_means data clusters means mLen :
  length clusters = length data →
  length mLen = length means →
  Forall (λ c, c < length means) clusters →
  ∃ means' mLen',
    noteshrink.kMeans_update data clusters means mLen = Ok (means', mLen') ∧
    length means' = length means ∧
    ∀ c, c < length means →
      (members c data clusters ≠ [] →
         means' !! c = Some (meanRGB (members c data clusters))) ∧
      (members c data clusters = [] →
         means' !! c = Some (0, 0, 0)%f32).
Proof.
  intros Hcl Hlen Hr.
  destruct (kMeans_update_run data clusters means mLen Hcl Hlen Hr)
    as (means' & mLen' & Hrun & Hm & _ & Hc).
  exists means', mLen'. split; [done|]. split; [done|].
  intros c Hlt. specialize (Hc c Hlt).
  destruct (members c data clusters); by split.
Qed.

(** Claim C9.  For [k] from 2 up to the largest int, the initial centres of
    [kMeans] are [hsvToRgb (i/(k-1)) 1 1] for [i = 0 .. k-1], and the last
    one is white: its hue is exactly 1, [h*6] is 6, no case of the switch
    applies and the three channels stay at the full value. *)
Theorem kMeans_last_seed_is_white (k : Z) :
  (2 ≤ k ≤ f32.max_int64)%Z →
  noteshrink.kMeans_seeds k
  = (λ i, noteshrink.hsvToRgb
            (f32.of_int (Z.of_nat i) / f32.of_int (k - 1))%f32 1%f32 1%f32)
      <$> seq 0 (Z.to_nat k)
  ∧ length (noteshrink.kMeans_seeds k) = Z.to_nat k
  ∧ noteshrink.kMeans_seeds k !! Z.to_nat (k - 1)
    = Some (255, 255, 255)%f32
  ∧ noteshrink.hsvToRgb 1%f32 1%f32 1%f32 = (255, 255, 255)%f32
  ∧ f32.to_int (1 * 6)%f32 = 6%Z.
Proof.
  intros Hk.
  assert (int_sub k 1 = (k - 1)%Z) as Hsub
    by (apply int_sub_1; unfold f32.min_int64; lia).
  split; [by rewrite kMeans_seeds_fmap, Hsub|].
  split; [apply kMeans_seeds_length|].
  split; [|split; reflexivity].
  rewrite kMeans_seeds_fmap, Hsub, list_lookup_fmap, lookup_seq_lt by lia.
  simpl. f_equal. rewrite Z2Nat.id by lia.
  destruct (of_int_pos_finite (k - 1)) as (m & e & ->); [lia|].
  rewrite div_self_finite. reflexivity.
Qed.

(** Claim C9 for eight clusters: the eighth seed is white. *)
Lemma kMeans_last_seed_is_white_witness :
  noteshrink.kMeans_seeds 8 !! 7%nat = Some (255, 255, 255)%f32.
Proof.
  apply (kMeans_last_seed_is_white 8). unfold f32.max_int64. lia.
Defined.

(** ** Background colour and palette *)

Section palette_facts.

Import noteshrink.

Lemma quantize_map image bitsPerChannel :
  quantize image bitsPerChannel
  = Ok (quantizeColor bitsPerChannel <$> image).
Proof.
  unfold quantize. cbv zeta.
  rewrite (for_loop_append (quantizeColor bitsPerChannel)); [done|].
  intros j [[x0 x1] x2] acc Hx. by rewrite (index_Some _ _ _ Hx).
Qed.

(** On a non-empty list the count loop ends with one of the quantized
    colours. *)
Lemma findBackgroundColor_run image bitsPerChannel :
  image ≠ [] →
  ∃ c, findBackgroundColor image bitsPerChannel = Ok c ∧
       c ∈ quantizeColor bitsPerChannel <$> image.
Proof.
  intros Hne. unfold findBackgroundColor. rewrite quantize_map.
  cbn [mbind result_bind].
  set (quantized := quantizeColor bitsPerChannel <$> image).
  destruct (index_lt quantized 0) as (q0 & Hq0 & ->).
  { unfold quantized. rewrite length_fmap. destruct image; simpl; [done|lia]. }
  cbn [mbind result_bind].
  edestruct (for_loop_inv (λ (j : nat) (st : count_map * Z * rgbf),
               st.2 ∈ quantized) 1 (length quantized))
    as ([[count maxcount] maxvalue] & Hrun & Hin); [| | |rewrite Hrun].
  - apply lookup_lt_Some in Hq0. lia.
  - simpl. by eapply list_elem_of_lookup_2.
  - intros j [[count maxcount] maxvalue] [_ Hj] Hin. simpl in Hin.
    destruct (index_lt quantized j) as (v & Hv & ->); [lia|].
    cbn [mbind result_bind].
    destruct (count_get count v + 1 >? maxcount)%Z;
      (eexists; split; [done|]); simpl; [|done].
    by eapply list_elem_of_lookup_2.
  - cbn [mbind result_bind mret result_ret snd]. by exists maxvalue.
Qed.

(** A single sample, or one colour repeated, is returned quantized. *)
Lemma findBackgroundColor_uniform p n bitsPerChannel :
  findBackgroundColor (replicate (S n) p) bitsPerChannel
  = Ok (quantizeColor bitsPerChannel p).
Proof.
  unfold findBackgroundColor. rewrite quantize_map, fmap_replicate.
  cbn [mbind result_bind].
  set (q := quantizeColor bitsPerChannel p).
  rewrite (index_Some _ _ q) by done. cbn [mbind result_bind].
  edestruct (for_loop_inv (λ (j : nat) (st : count_map * Z * rgbf),
               st.2 = q) 1 (length (replicate (S n) q)))
    as ([[count maxcount] maxvalue] & Hrun & Hq); [| | |rewrite Hrun].
  - rewrite length_replicate. lia.
  - done.
  - intros j [[count maxcount] maxvalue] [_ Hj] Hq. simpl in Hq. subst.
    rewrite length_replicate in Hj.
    rewrite (index_Some _ _ q) by (by apply lookup_replicate_2).
    cbn [mbind result_bind].
    destruct (count_get count q + 1 >? maxcount)%Z; by eexists.
  - simpl in Hq. by subst.
Qed.

(** The samples kept for clustering are the foreground ones, in order. *)
Lemma foreground_filter bgColor samples opt :
  for_loop 0 (length samples) (λ i data,
    fg ← index ((λ p, isForeground bgColor p opt) <$> samples) i;
    if negb fg then mret data
    else
      v ← index samples i;
      mret (data ++ [v])) []
  = Ok (List.filter (λ p, isForeground bgColor p opt) samples).
Proof.
  edestruct (for_loop_inv (λ j data,
    data = List.filter (λ p, isForeground bgColor p opt) (take j samples))
    0 (length samples)) as (data & Hrun & ->);
    [lia| | |rewrite Hrun; by rewrite firstn_all].
  - done.
  - intros j data [_ Hj] ->.
    destruct (lookup_lt_is_Some_2 samples j Hj) as [p Hp].
    rewrite (index_fmap _ _ _ p) by done. cbn [mbind result_bind].
    rewrite (take_S_r _ _ p), List.filter_app by done. simpl.
    destruct (isForeground bgColor p opt); simpl.
    + rewrite (index_Some _ _ _ Hp). by eexists.
    + eexists. split; [done|]. by rewrite app_nil_r.
Qed.

Lemma createPalette_run samples opt :
  samples ≠ [] →
  (2 ≤ NumColors opt ≤ f32.max_int64)%Z →
  ∃ bgColor means,
    findBackgroundColor samples 6 = Ok bgColor ∧
    kMeans (List.filter (λ p, isForeground bgColor p opt) samples)
           (NumColors opt - 1) (KmeansMaxIter opt) = Ok means ∧
    length means = Z.to_nat (NumColors opt - 1) ∧
    createPalette samples opt
    = Ok (bgColor :: (roundColor <$> means), bgColor).
Proof.
  intros Hne Hk. unfold createPalette.
  rewrite int_sub_1 by (unfold f32.min_int64; lia).
  destruct (findBackgroundColor_run samples 6 Hne) as (bgColor & Hbg & _).
  rewrite Hbg. cbn [mbind result_bind].
  rewrite createForegroundMask_map. cbn [mbind result_bind].
  rewrite foreground_filter. cbn [mbind result_bind].
  destruct (kMeans_run (List.filter (λ p, isForeground bgColor p opt) samples)
              (NumColors opt - 1) (KmeansMaxIter opt))
    as (means & Hmeans & Hlen); [lia|].
  rewrite Hmeans. cbn [mbind result_bind]. cbv zeta.
  rewrite (for_loop_append roundColor).
  - exists bgColor, means. by repeat split.
  - intros j [[c0 c1] c2] acc Hc. by rewrite (index_Some _ _ _ Hc).
Qed.

End palette_facts.

(** Counterexample to claim C3.  On the empty sample list, with the default
    options (8 colours), [createPalette] panics. *)
Lemma createPalette_empty_samples_panics :
  (2 ≤ noteshrink.NumColors noteshrink.MakeDefaultOption)%Z ∧
  noteshrink.createPalette [] noteshrink.MakeDefaultOption
  = Panic (IndexOutOfRange 0 0).
Proof. split; [done|reflexivity]. Qed.

(** Claim C3, for a sample list that is not empty.  With [NumColors >= 2],
    [createPalette] returns the detected background colour followed by the
    [NumColors - 1] centres computed by [kMeans] on the foreground samples,
    each channel rounded by [round], in the order of the centres; the
    palette has exactly [NumColors] entries. *)
Theorem createPalette_length_and_order samples opt :
  samples ≠ [] →
  (2 ≤ noteshrink.NumColors opt ≤ f32.max_int64)%Z →
  ∃ bgColor means,
    noteshrink.findBackgroundColor samples 6 = Ok bgColor ∧
    noteshrink.kMeans
      (List.filter (λ p, isForeground bgColor p opt) samples)
      (noteshrink.NumColors opt - 1) (noteshrink.KmeansMaxIter opt)
    = Ok means ∧
    Z.of_nat (length means) = (noteshrink.NumColors opt - 1)%Z ∧
    noteshrink.createPalette samples opt
    = Ok (bgColor :: (roundColor <$> means), bgColor) ∧
    Z.of_nat (length (bgColor :: (roundColor <$> means)))
    = noteshrink.NumColors opt.
Proof.
  intros Hne Hk.
  destruct (createPalette_run samples opt Hne Hk)
    as (bgColor & means & Hbg & Hmeans & Hlen & Hrun).
  exists bgColor, means. repeat split; [done|done|lia|done|].
  simpl. rewrite length_fmap. lia.
Qed.

(** ** Sampling *)

Section sample_facts.

Import noteshrink.

Lemma copy_loop (img : list rgbf) :
  for_loop 0 (length img) (λ i shuffled,
    p ← index img i;
    mret (shuffled ++ [p])) [] = Ok img.
Proof.
  rewrite (for_loop_append id); [by rewrite list_fmap_id|].
  intros j x acc Hx. by rewrite (index_Some _ _ _ Hx).
Qed.

Lemma Shuffle_step {St} rnd i (swap : nat → nat → St → result St) s :
  Shuffle rnd (S (S i)) swap s
  = (s' ← swap (S i) (rnd (S i) mod S (S i)) s; Shuffle rnd (S i) swap s').
Proof. reflexivity. Qed.

(** The swaps of [rand.Shuffle] stay inside the slice, whatever is
    drawn, and leave its length unchanged. *)
Lemma Shuffle_run (rnd : nat → nat) n (l : list rgbf) :
  n ≤ length l →
  ∃ l',
    Shuffle rnd n (λ i j shuffled,
      sj ← index shuffled j;
      si ← index shuffled i;
      shuffled ← store shuffled i sj;
      store shuffled j si) l = Ok l' ∧
    length l' = length l.
Proof.
  revert l. induction n as [|i IH]; intros l Hn; [by exists l|].
  destruct i as [|i']; [by exists l|].
  rewrite Shuffle_step.
  pose proof (Nat.mod_upper_bound (rnd (S i')) (S (S i'))) as Hj.
  set (j := rnd (S i') mod S (S i')) in *.
  destruct (index_lt l j) as (sj & _ & ->); [lia|].
  cbn [mbind result_bind].
  destruct (index_lt l (S i')) as (si & _ & ->); [lia|].
  cbn [mbind result_bind]. rewrite store_lt by lia.
  cbn [mbind result_bind]. rewrite store_lt by (rewrite length_insert; lia).
  cbn [mbind result_bind].
  destruct (IH (<[j:=si]> (<[S i':=sj]> l))) as (l' & -> & Hl').
  - rewrite !length_insert. lia.
  - exists l'. split; [done|]. by rewrite Hl', !length_insert.
Qed.

Lemma prefix_loop (shuffled : list rgbf) n :
  n ≤ length shuffled →
  for_loop 0 n (λ i result,
    p ← index shuffled i;
    mret (result ++ [p])) [] = Ok (take n shuffled).
Proof.
  intros Hn.
  edestruct (for_loop_inv (λ j acc, acc = take j shuffled) 0 n)
    as (out & Hrun & ->); [lia| | |exact Hrun].
  - done.
  - intros j acc [_ Hj] ->.
    destruct (index_lt shuffled j) as (p & Hp & ->); [lia|].
    eexists. split; [done|]. by rewrite (take_S_r _ _ p).
Qed.

Lemma prefix_loop_panic (shuffled : list rgbf) n :
  length shuffled < n →
  for_loop 0 n (λ i result,
    p ← index shuffled i;
    mret (result ++ [p])) []
  = Panic (IndexOutOfRange (length shuffled) (length shuffled)).
Proof.
  intros Hn. unfold for_loop.
  replace (n - 0) with (length shuffled + S (n - S (length shuffled))) by lia.
  rewrite for_count_add.
  pose proof (prefix_loop shuffled (length shuffled)) as Hrun.
  unfold for_loop in Hrun. rewrite Nat.sub_0_r in Hrun.
  rewrite Hrun by lia. cbn [mbind result_bind for_count].
  by rewrite index_ge.
Qed.

Lemma samplePixels_run rnd img opt :
  (numSamples img opt ≤ Z.of_nat (length img))%Z →
  ∃ samples,
    samplePixels rnd img opt = Ok samples ∧
    length samples = Z.to_nat (numSamples img opt).
Proof.
  intros Hn. unfold samplePixels. cbv zeta.
  rewrite copy_loop. cbn [mbind result_bind].
  destruct (Shuffle_run rnd (length img) img) as (l' & Hrun & Hl'); [lia|].
  cbv zeta in Hrun. rewrite Hrun. cbn [mbind result_bind].
  rewrite prefix_loop by lia.
  eexists. split; [done|]. rewrite length_take. lia.
Qed.

Lemma samplePixels_panic rnd img opt :
  (Z.of_nat (length img) < numSamples img opt)%Z →
  samplePixels rnd img opt
  = Panic (IndexOutOfRange (length img) (length img)).
Proof.
  intros Hn. unfold samplePixels. cbv zeta.
  rewrite copy_loop. cbn [mbind result_bind].
  destruct (Shuffle_run rnd (length img) img) as (l' & Hrun & Hl'); [lia|].
  cbv zeta in Hrun. rewrite Hrun. cbn [mbind result_bind].
  rewrite prefix_loop_panic by lia. by rewrite Hl'.
Qed.

End sample_facts.

(** ** The number of samples *)

Section sample_count_facts.

Import noteshrink.

#[local] Open Scope Z_scope.

(** A fraction that is not positive selects no sample. *)
Lemma numSamples_nonpositive img opt :
  f32.le (SampleFraction opt) 0%f32 = true → numSamples img opt ≤ 0.
Proof.
  unfold numSamples. intros Hf.
  pose proof (of_int_nonneg (Z.of_nat (length img)) ltac:(lia)) as Hx.
  destruct (f32.of_int (Z.of_nat (length img))) as [sx|sx| |sx mx ex];
    destruct (SampleFraction opt) as [sf|[]| |[] mf ef];
    try done; subst; apply to_int_negative_sign; try done.
  unfold f32.mul, SFmul.
  pose proof (binary_round_aux_sign (xorb false true)
                (Zpos (PosDef.Pos.mul mx mf)) (IntDef.Z.add ex ef) loc_Exact).
  by destruct (binary_round_aux _ _ _ _ _ _).
Qed.

Lemma numSamples_empty opt : numSamples [] opt ≤ 0.
Proof.
  unfold numSamples.
  by destruct (SampleFraction opt) as [sf|[]| |[] mf ef].
Qed.

(** Up to [2^24] pixels and for a fraction that is at most one, the number
    of samples computed in binary32 never exceeds the number of pixels. *)
Lemma numSamples_le_length img opt :
  Z.of_nat (length img) ≤ 2 ^ 24 →
  valid_binary f32.prec f32.emax (SampleFraction opt) = true →
  f32.le (SampleFraction opt) 1%f32 = true →
  numSamples img opt ≤ Z.of_nat (length img).
Proof.
  intros Hlen Hvalid Hle.
  destruct (f32.le (SampleFraction opt) 0%f32) eqn:Hneg.
  { pose proof (numSamples_nonpositive img opt Hneg). lia. }
  destruct (decide (img = [])) as [->|Hne];
    [pose proof (numSamples_empty opt); simpl; lia|].
  assert (1 ≤ Z.of_nat (length img)) as Hpos
    by (destruct img; simpl in *; [done|lia]).
  unfold numSamples.
  destruct (of_int_small _ (conj Hpos Hlen)) as (mx & ex & -> & Hmx & Hex & Hval).
  destruct (SampleFraction opt) as [sf|[]| |[] mf ef]; try done.
  destruct (valid_le_one mf ef Hvalid Hle) as [Hef Hmf].
  unfold f32.mul, SFmul. std_names. simpl xorb.
  pose proof (binary_round_aux_le_bound (mx * mf) (ex + ef) mx ex) as Hround.
  destruct (binary_round_aux _ _ _ _ _ _) as [s|s| |s m e] eqn:Hres;
    try (simpl; unfold f32.min_int64; lia).
  pose proof (binary_round_aux_sign false (Zpos (mx * mf)) (ex + ef) loc_Exact)
    as Hsign.
  rewrite Hres in Hsign. subst s.
  destruct Hround as [He Hb]; [lia|lia|done| |].
  - rewrite Pos2Z.inj_mul.
    assert (2 ^ (ex + 200) = 2 ^ (- ef) * 2 ^ (ex + ef + 200)) as ->
      by (rewrite <- pow2_split by lia; f_equal; lia).
    pose proof (pow2_pos (ex + ef + 200) ltac:(lia)). nia.
  - apply to_int_le_bound; [lia|done|]. by rewrite <- Hval.
Qed.

End sample_count_facts.

(** Claim C7, as the code computes the count.  On an image of [N] pixels,
    [N] at most [2^24], and for a sample fraction [f] that is a binary32
    number at most one, [samplePixels] returns exactly [int(float32(N) * f)]
    colours, the binary32 product truncated (none when it is negative); that
    number never exceeds [N], whatever the random source draws. *)
Theorem samplePixels_count rnd img opt :
  (Z.of_nat (length img) ≤ 2 ^ 24)%Z →
  is_binary32 (noteshrink.SampleFraction opt) = true →
  f32.le (noteshrink.SampleFraction opt) 1%f32 = true →
  ∃ samples,
    noteshrink.samplePixels rnd img opt = Ok samples ∧
    Z.of_nat (length samples) = Z.max 0 (noteshrink.numSamples img opt) ∧
    length samples ≤ length img.
Proof.
  intros Hsize Hvalid Hle.
  pose proof (numSamples_le_length img opt Hsize Hvalid Hle) as Hn.
  destruct (samplePixels_run rnd img opt Hn) as (samples & Hrun & Hlen).
  exists samples. split; [exact Hrun|]. rewrite Hlen. lia.
Qed.

(** Counterexample to claim C7.  An image of 16777219 pixels sampled with
    fraction 1: [float32(16777219)] is 16777220, one more than there are
    pixels, and reading the sample of index 16777219 panics. *)
Lemma samplePixels_panics_on_large_image :
  let img := replicate (Z.to_nat 16777219) (0, 0, 0)%f32 in
  let opt := {| noteshrink.SampleFraction := 1%f32;
                noteshrink.BrightnessThreshold := (f32.of_int 1 / f32.of_int 4)%f32;
                noteshrink.SaturationThreshold := (f32.of_int 1 / f32.of_int 5)%f32;
                noteshrink.NumColors := 8;
                noteshrink.KmeansMaxIter := 40;
                noteshrink.Saturate := true;
                noteshrink.WhiteBackground := true |} in
  Z.of_nat (length img) = 16777219%Z ∧
  (0 <? noteshrink.SampleFraction opt)%f32 = true ∧
  f32.le (noteshrink.SampleFraction opt) 1%f32 = true ∧
  noteshrink.numSamples img opt = 16777220%Z ∧
  noteshrink.samplePixels (λ _, 0) img opt
  = Panic (IndexOutOfRange (length img) (length img)).
Proof.
  intros img opt.
  assert (Z.of_nat (length img) = 16777219%Z) as Hlen
    by (unfold img; rewrite length_replicate; apply Z2Nat.id; lia).
  assert (noteshrink.numSamples img opt = 16777220%Z) as Hnum
    by (unfold noteshrink.numSamples; rewrite Hlen; reflexivity).
  split; [exact Hlen|]. split; [reflexivity|]. split; [reflexivity|].
  split; [exact Hnum|].
  apply samplePixels_panic. rewrite Hlen, Hnum. lia.
Qed.

(** ** Saturation stretch *)

Section saturate_facts.

Import noteshrink.

Lemma sub_self (x : float32) :
  f32.is_finite x = true → (x - x)%f32 = S754_zero false.
Proof.
  destruct x as [[]| | |s m e]; try done; intros _.
  unfold f32.sub, SFsub.
  change IntDef.Z.sub with Z.sub. by rewrite Z.sub_diag.
Qed.

Lemma max_zero_nonneg (s0 : float32) : f32.le 0%f32 s0 = true → max 0%f32 s0 = s0.
Proof.
  unfold max, f32.gt, f32.le, SFltb, SFleb.
  by destruct s0 as [[]|[]| |[] m e].
Qed.

Lemma max_same (x : float32) : max x x = x.
Proof. unfold max. by destruct (x >? x)%f32. Qed.

Lemma min_same (x : float32) : min x x = x.
Proof. unfold min. by destruct (x >? x)%f32. Qed.

Lemma min_one_le (s0 : float32) : f32.le s0 1%f32 = true → min 1%f32 s0 = s0.
Proof.
  unfold min, f32.gt, f32.le, SFltb, SFleb. intros Hle.
  destruct (SFcompare s0 1%f32) as [[]|] eqn:Hc; try done.
  destruct s0 as [[]|[]| |[] m e]; try done.
  change 1%f32 with (S754_finite false 8388608 (-23)) in *.
  rewrite SFcompare_finite_pos in Hc.
  destruct (Z.compare_spec e (-23)); try done.
  destruct (Pos.compare_spec m 8388608); try done.
  by subst.
Qed.

Lemma saturationRange_same palette s0 :
  palette ≠ [] →
  Forall (λ p, saturation p = s0) palette →
  f32.le 0%f32 s0 = true → f32.le s0 1%f32 = true →
  saturationRange palette = (s0, s0).
Proof.
  intros Hne Hall H0 H1. unfold saturationRange.
  destruct palette as [|p palette]; [done|].
  apply Forall_cons in Hall as [Hp Hall]. simpl.
  unfold saturation in Hp.
  destruct (rgbToHsv p) as [[h s] v]. simpl in Hp. subst s.
  rewrite max_zero_nonneg, min_one_le by done.
  induction Hall as [|q palette Hq Hall IH]; [done|]. simpl.
  unfold saturation in Hq.
  destruct (rgbToHsv q) as [[h' s'] v']. simpl in Hq. subst s'.
  rewrite max_same, min_same. by apply IH.
Qed.

Lemma saturatePalette_range palette :
  saturatePalette palette
  = let '(maxSat, minSat) := saturationRange palette in
    (λ pal, let '(h, s, v) := rgbToHsv pal in
            hsvToRgb h ((s - minSat) / (maxSat - minSat))%f32 v) <$> palette.
Proof.
  unfold saturatePalette, saturationRange.
  destruct (foldl _ _ palette) as [maxSat minSat].
  rewrite <- (app_nil_l (_ <$> palette)), <- foldl_snoc_fmap.
  apply foldl_pointwise. intros result pal.
  by destruct (rgbToHsv pal) as [[h s] v].
Qed.

Lemma hsvToRgb_nan h v :
  hsvToRgb h S754_nan v = (v * 255, v * 255, v * 255)%f32.
Proof. reflexivity. Qed.

Lemma saturatePalette_same palette s0 :
  Forall (λ p, saturation p = s0) palette →
  f32.is_finite s0 = true →
  f32.le 0%f32 s0 = true → f32.le s0 1%f32 = true →
  saturatePalette palette = greyOf <$> palette.
Proof.
  intros Hall Hfin H0 H1.
  destruct (decide (palette = [])) as [->|Hne]; [done|].
  rewrite saturatePalette_range, (saturationRange_same palette s0) by done.
  apply list_eq. intros i. rewrite !list_lookup_fmap.
  destruct (palette !! i) as [p|] eqn:Hp; [|done]. simpl. f_equal.
  rewrite Forall_forall in Hall.
  pose proof (Hall p (list_elem_of_lookup_2 _ _ _ Hp)) as Hs.
  unfold greyOf, saturation in *.
  destruct (rgbToHsv p) as [[h s] v]. simpl in *. subst s.
  rewrite sub_self by done. apply hsvToRgb_nan.
Qed.

End saturate_facts.

(** Claim C4, as the code behaves.  When every palette entry has the same
    saturation [s0] (a finite number in [0, 1]), the largest and the
    smallest saturation are both [s0]; [saturatePalette] does not test for
    this, the rescaled saturation is [0/0], a NaN, and every entry is
    replaced by the grey of its own value. *)
Theorem saturatePalette_equal_saturation_gives_grey palette s0 :
  palette ≠ [] →
  Forall (λ p, saturation p = s0) palette →
  f32.is_finite s0 = true →
  f32.le 0%f32 s0 = true → f32.le s0 1%f32 = true →
  saturationRange palette = (s0, s0) ∧
  ((s0 - s0) / (s0 - s0))%f32 = f32.nan ∧
  noteshrink.saturatePalette palette = greyOf <$> palette.
Proof.
  intros Hne Hall Hfin H0 H1.
  split; [by apply saturationRange_same|].
  split; [by rewrite sub_self|].
  by eapply saturatePalette_same.
Qed.

(** Counterexample to claim C4.  The palette with pure red alone has equal
    largest and smallest saturation, and it is turned into white. *)
Lemma saturatePalette_changes_degenerate_palette :
  let palette := [(255, 0, 0)%f32] in
  saturationRange palette = (1%f32, 1%f32) ∧
  noteshrink.saturatePalette palette = [(255, 255, 255)%f32] ∧
  noteshrink.saturatePalette palette ≠ palette.
Proof.
  intros palette.
  assert (noteshrink.saturatePalette palette = [(255, 255, 255)%f32]) as Hrun
    by (vm_compute; reflexivity).
  split; [vm_compute; reflexivity|]. split; [exact Hrun|].
  rewrite Hrun. intros Heq. vm_compute in Heq. discriminate Heq.
Qed.

(** ** The entry point *)

Section shrink_facts.

Import noteshrink.

#[local] Open Scope Z_scope.

Lemma samplePixels_none rnd img opt :
  numSamples img opt ≤ 0 → samplePixels rnd img opt = Ok [].
Proof.
  intros Hn.
  destruct (samplePixels_run rnd img opt) as (samples & -> & Hlen); [lia|].
  f_equal. apply nil_length_inv. lia.
Qed.

Lemma load_empty input : Dx input ≤ 0 ∨ Dy input ≤ 0 → load input = [].
Proof.
  unfold load. intros [H|H].
  - replace (Z.to_nat (Dx input)) with 0%nat by lia. simpl.
    by induction (seq 0 (Z.to_nat (Dy input))).
  - by replace (Z.to_nat (Dy input)) with 0%nat by lia.
Qed.

Lemma createPalette_empty opt :
  createPalette [] opt = Panic (IndexOutOfRange 0 0).
Proof. reflexivity. Qed.

(** Without clusters, [kMeans] returns nothing for no data and panics on
    the first point otherwise. *)
Lemma kMeans_no_clusters data k maxItr :
  k ≤ 0 →
  kMeans data k maxItr
  = match data with
    | [] => Ok []
    | _ :: _ => Panic (IndexOutOfRange 0 0)
    end.
Proof.
  intros Hk. unfold kMeans, kMeans_seeds.
  replace (Z.to_nat k) with 0%nat by lia. simpl.
  destruct data as [|d data]; [|done]. simpl.
  by destruct (Z.to_nat maxItr).
Qed.

Lemma createPalette_no_clusters samples opt :
  samples ≠ [] →
  f32.min_int64 < NumColors opt < 2 →
  ∃ bgColor,
    findBackgroundColor samples 6 = Ok bgColor ∧
    createPalette samples opt
    = match List.filter (λ p, isForeground bgColor p opt) samples with
      | [] => Ok ([bgColor], bgColor)
      | _ :: _ => Panic (IndexOutOfRange 0 0)
      end.
Proof.
  intros Hne Hk. unfold createPalette.
  rewrite int_sub_1 by (unfold f32.max_int64; lia).
  destruct (findBackgroundColor_run samples 6 Hne) as (bgColor & Hbg & _).
  exists bgColor. split; [done|].
  rewrite Hbg. cbn [mbind result_bind].
  rewrite createForegroundMask_map. cbn [mbind result_bind].
  rewrite foreground_filter. cbn [mbind result_bind].
  rewrite kMeans_no_clusters by lia.
  by destruct (List.filter _ samples).
Qed.

Lemma Shrink_no_samples rnd input option :
  samplePixels rnd (load input) (default MakeDefaultOption option) = Ok [] →
  Shrink rnd input option = Panic (IndexOutOfRange 0 0).
Proof. unfold Shrink. cbv zeta. by intros ->. Qed.

Lemma saturatePalette_length palette :
  length (saturatePalette palette) = length palette.
Proof.
  rewrite saturatePalette_range.
  destruct (saturationRange palette). by rewrite length_fmap.
Qed.

(** A palette returned by [createPalette] has its background entry and no
    more entries than colours were asked for. *)
Lemma createPalette_Ok_length samples opt palette origBgColor :
  f32.min_int64 < NumColors opt ≤ f32.max_int64 →
  createPalette samples opt = Ok (palette, origBgColor) →
  (1 ≤ length palette ≤ Nat.max 1 (Z.to_nat (NumColors opt)))%nat.
Proof.
  intros Hint Hrun.
  destruct (decide (samples = [])) as [->|Hne]; [done|].
  destruct (Z_lt_le_dec (NumColors opt) 2) as [Hk|Hk].
  - destruct (createPalette_no_clusters samples opt Hne ltac:(lia))
      as (bgColor & _ & Hrun').
    rewrite Hrun in Hrun'.
    destruct (List.filter _ samples); [|done].
    injection Hrun' as -> ->. simpl. lia.
  - destruct (createPalette_run samples opt Hne ltac:(lia))
      as (bgColor & means & _ & _ & Hlen & Hrun').
    rewrite Hrun in Hrun'. injection Hrun' as -> ->.
    simpl. rewrite length_fmap. lia.
Qed.

(** Storing a pixel changes neither the rectangle nor the number of
    pixels. *)
Lemma SetRGBA_rect p x y c :
  RectMinX (SetRGBA p x y c) = RectMinX p ∧
  RectMinY (SetRGBA p x y c) = RectMinY p ∧
  RectDx (SetRGBA p x y c) = RectDx p ∧
  RectDy (SetRGBA p x y c) = RectDy p ∧
  length (Pix (SetRGBA p x y c)) = length (Pix p).
Proof.
  unfold SetRGBA. destruct (_ && _); [|done].
  simpl. by rewrite length_insert.
Qed.

(** A row and a column determine an index of the buffer, and conversely. *)
Lemma rowcol_unique (w r c r' c' : nat) :
  (c < w → c' < w → r * w + c = r' * w + c' → r = r' ∧ c = c')%nat.
Proof.
  intros Hc Hc' Heq.
  assert (r = r') as ->; [|lia].
  destruct (Nat.lt_trichotomy r r') as [Hlt|[->|Hlt]]; [exfalso|done|exfalso].
  - assert ((r + 1) * w ≤ r' * w)%nat by (apply Nat.mul_le_mono_r; lia). lia.
  - assert ((r' + 1) * w ≤ r * w)%nat by (apply Nat.mul_le_mono_r; lia). lia.
Qed.

(** One more stored pixel changes the image at one place at most: where
    the point visited lies. *)
Lemma filledAt_step (input : Image) (result : list rgbf) (x y c r : nat)
    (p : rgbf) :
  let w := Z.to_nat (Dx input) in
  (x < w)%nat → (y < Z.to_nat (Dy input))%nat →
  result !! (y * w + x)%nat = Some p →
  filledAt input result (S (y * w + x)) c r
  = if decide (MinX input + Z.of_nat c = Z.of_nat x
               ∧ MinY input + Z.of_nat r = Z.of_nat y)
    then rgba8 p
    else filledAt input result (y * w + x) c r.
Proof.
  intros w Hx Hy Hp. unfold filledAt. fold w.
  set (X := MinX input + Z.of_nat c). set (Y := MinY input + Z.of_nat r).
  destruct ((0 <=? X) && (X <? Dx input) && (0 <=? Y) && (Y <? Dy input))
    eqn:Hin; cbn [andb].
  - apply andb_prop in Hin as [[[H1 H2]%andb_prop H3]%andb_prop H4].
    apply Z.leb_le in H1, H3. apply Z.ltb_lt in H2, H4.
    assert (Z.to_nat X < w)%nat by lia.
    case_decide as Heq.
    + destruct Heq as [HX HY]. rewrite HX, HY, !Nat2Z.id.
      rewrite (proj2 (Nat.ltb_lt _ _)) by lia. by rewrite Hp.
    + destruct (Nat.ltb_spec (Z.to_nat Y * w + Z.to_nat X) (S (y * w + x)))
        as [Hlt|Hge];
        destruct (Nat.ltb_spec (Z.to_nat Y * w + Z.to_nat X) (y * w + x))
        as [Hlt'|Hge']; try done; try lia.
      exfalso. apply Heq.
      destruct (rowcol_unique w (Z.to_nat Y) (Z.to_nat X) y x); [done|done|lia|].
      lia.
  - case_decide as Heq; [|done]. exfalso.
    destruct Heq as [HX HY].
    assert ((0 <=? X) && (X <? Dx input) && (0 <=? Y) && (Y <? Dy input)
            = true) as Htrue; [|congruence].
    rewrite !andb_true_iff, !Z.leb_le, !Z.ltb_lt. lia.
Qed.

(** The two loops that fill the returned image: every pixel of the new
    image that lies at a visited point receives the remapped pixel of that
    point, and the others stay as they were created. *)
Lemma Shrink_fill (input : Image) (result : list rgbf) :
  let w := Z.to_nat (Dx input) in
  let h := Z.to_nat (Dy input) in
  0 ≤ Dx input → 0 ≤ Dy input →
  length result = (h * w)%nat →
  ∃ out,
    (shrinked ← NewRGBA (MinX input) (MinY input) (Dx input) (Dy input);
     st ← for_loop 0 h (λ y st,
       for_loop 0 w (λ x '(shrinked, idx),
         '(c0, c1, c2) ← index result idx;
         let r := f32.to_uint8 c0 in
         let g := f32.to_uint8 c1 in
         let b := f32.to_uint8 c2 in
         mret (SetRGBA shrinked (Z.of_nat x) (Z.of_nat y) (r, g, b, 255),
               S idx)) st) (shrinked, 0%nat);
     mret (fst st)) = Ok out ∧
    RectMinX out = MinX input ∧ RectMinY out = MinY input ∧
    RectDx out = Dx input ∧ RectDy out = Dy input ∧
    length (Pix out) = (h * w)%nat ∧
    ∀ r c, (r < h)%nat → (c < w)%nat →
      Pix out !! (r * w + c)%nat = Some (renderedAt input result c r).
Proof.
  intros w h Hdx Hdy Hlen. unfold NewRGBA.
  destruct (Z.ltb_spec (Dx input) 0); [lia|].
  destruct (Z.ltb_spec (Dy input) 0); [lia|].
  cbn [orb mbind result_bind].
  set (p0 := {| Pix := _ |}).
  pose (Inv := λ (n : nat) (st : RGBA * nat),
    st.2 = n ∧
    RectMinX st.1 = MinX input ∧ RectMinY st.1 = MinY input ∧
    RectDx st.1 = Dx input ∧ RectDy st.1 = Dy input ∧
    length (Pix st.1) = (h * w)%nat ∧
    ∀ r c, (r < h)%nat → (c < w)%nat →
      Pix st.1 !! (r * w + c)%nat = Some (filledAt input result n c r)).
  edestruct (for_loop_inv (λ y st, Inv (y * w)%nat st) 0 h)
    as ([out idx] & Hrun & _ & H1 & H2 & H3 & H4 & H5 & H6);
    [lia| | |rewrite Hrun].
  - (* the new image *)
    unfold Inv, p0. cbn [fst snd Pix RectMinX RectMinY RectDx RectDy].
    rewrite length_replicate. fold w h.
    split; [done|]. split; [done|]. split; [done|]. split; [done|].
    split; [done|]. split; [lia|].
    intros r c Hr Hc. rewrite lookup_replicate_2 by nia.
    unfold filledAt. rewrite Nat.mul_0_l.
    match goal with
    | |- context [(?a <? 0)%nat] =>
        destruct (Nat.ltb_spec a 0%nat) as [Hlt|_];
          [by apply Nat.nlt_0_r in Hlt|]
    end.
    by rewrite andb_false_r.
  - (* one row *)
    intros y st [_ Hy] HI.
    edestruct (for_loop_inv (λ x st, Inv (y * w + x)%nat st) 0 w)
      as (st' & Hrow & HI'); [lia| | |exists st'; split; [exact Hrow|]].
    + by rewrite Nat.add_0_r.
    + intros x [p idx] [_ Hx] (Hidx & R1 & R2 & R3 & R4 & R5 & R6).
      cbn [fst snd] in *. subst idx.
      destruct (lookup_lt_is_Some_2 result (y * w + x)) as [[[c0 c1] c2] Hc];
        [nia|].
      rewrite (index_Some _ _ _ Hc). cbn [mbind result_bind].
      eexists. split; [reflexivity|].
      destruct (SetRGBA_rect p (Z.of_nat x) (Z.of_nat y)
                  (f32.to_uint8 c0, f32.to_uint8 c1, f32.to_uint8 c2, 255))
        as (S1 & S2 & S3 & S4 & S5).
      unfold Inv. cbn [fst snd].
      replace (y * w + S x)%nat with (S (y * w + x)) by lia.
      split; [done|]. split; [congruence|]. split; [congruence|].
      split; [congruence|]. split; [congruence|]. split; [congruence|].
      intros r c Hr Hc'.
      pose proof (filledAt_step input result x y c r (c0, c1, c2)) as Hstep.
      cbv zeta in Hstep. fold w h in Hstep. rewrite Hstep by done.
      clear Hstep.
      unfold SetRGBA. rewrite R1, R2, R3, R4.
      destruct ((MinX input <=? Z.of_nat x)
                && (Z.of_nat x <? MinX input + Dx input)
                && (MinY input <=? Z.of_nat y)
                && (Z.of_nat y <? MinY input + Dy input)) eqn:Hin.
      * apply andb_prop in Hin as [[[I1 I2]%andb_prop I3]%andb_prop I4].
        apply Z.leb_le in I1, I3. apply Z.ltb_lt in I2, I4.
        cbn [Pix].
        set (r0 := Z.to_nat (Z.of_nat y - MinY input)).
        set (c0' := Z.to_nat (Z.of_nat x - MinX input)).
        assert (Z.to_nat ((Z.of_nat y - MinY input) * Dx input
                          + (Z.of_nat x - MinX input))
                = (r0 * w + c0')%nat) as -> by (unfold r0, c0', w; nia).
        assert (c0' < w)%nat by (unfold c0', w; lia).
        case_decide as Heq.
        -- destruct Heq as [HX HY].
           assert (r = r0) as -> by (unfold r0; lia).
           assert (c = c0') as -> by (unfold c0'; lia).
           apply list_lookup_insert_eq. rewrite R5. nia.
        -- rewrite list_lookup_insert_ne; [by apply R6|].
           intros Hk. apply Heq.
           destruct (rowcol_unique w r0 c0' r c); [done|done|done|].
           unfold r0, c0' in *. lia.
      * case_decide as Heq; [exfalso|by apply R6].
        destruct Heq as [HX HY].
        assert ((MinX input <=? Z.of_nat x)
                && (Z.of_nat x <? MinX input + Dx input)
                && (MinY input <=? Z.of_nat y)
                && (Z.of_nat y <? MinY input + Dy input) = true) as Htrue;
          [|congruence].
        rewrite !andb_true_iff, !Z.leb_le, !Z.ltb_lt.
        unfold w, h in *. lia.
    + by replace (S y * w)%nat with (y * w + w)%nat by lia.
  - cbn [mbind result_bind mret result_ret fst snd] in *.
    exists out. split; [done|]. split; [done|]. split; [done|].
    split; [done|]. split; [done|]. split; [done|]. exact H6.
Qed.

(** For bounds that start at the origin the image holds the remapped
    pixels, in order. *)
Lemma renderedAt_origin (input : Image) (result : list rgbf) (r c : nat)
    (p : rgbf) :
  MinX input = 0 → MinY input = 0 →
  (r < Z.to_nat (Dy input))%nat → (c < Z.to_nat (Dx input))%nat →
  result !! (r * Z.to_nat (Dx input) + c)%nat = Some p →
  renderedAt input result c r = rgba8 p.
Proof.
  intros HX HY Hr Hc Hp. unfold renderedAt, filledAt. rewrite HX, HY.
  rewrite !Z.add_0_l, !Nat2Z.id, Hp.
  replace ((0 <=? Z.of_nat c) && (Z.of_nat c <? Dx input)
           && (0 <=? Z.of_nat r) && (Z.of_nat r <? Dy input)) with true.
  - cbn [andb].
    destruct (Nat.ltb_spec (r * Z.to_nat (Dx input) + c)
                (Z.to_nat (Dy input) * Z.to_nat (Dx input))); [done|nia].
  - symmetry. rewrite !andb_true_iff, !Z.leb_le, !Z.ltb_lt. lia.
Qed.

(** Every pixel of the returned image is a remapped pixel or still zero. *)
Lemma renderedAt_cases (input : Image) (result : list rgbf) (c r : nat) :
  renderedAt input result c r = (0, 0, 0, 0)
  ∨ renderedAt input result c r ∈ rgba8 <$> result.
Proof.
  unfold renderedAt, filledAt. destruct (_ && _); [|by left].
  destruct (result !! _) as [p|] eqn:Hp; [right|by left].
  apply list_elem_of_fmap. exists p. split; [done|].
  by eapply list_elem_of_lookup_2.
Qed.

(** What [Shrink] returns when it does not panic: the image filled from
    the remapped buffer of the run. *)
Lemma Shrink_Ok_inv rnd input option out :
  let opt := default MakeDefaultOption option in
  Shrink rnd input option = Ok out →
  ∃ samples palette origBgColor result,
    samplePixels rnd (load input) opt = Ok samples ∧
    createPalette samples opt = Ok (palette, origBgColor) ∧
    applyPalette (load input)
      (if Saturate opt then saturatePalette palette else palette)
      origBgColor
      (if WhiteBackground opt then (255, 255, 255)%f32 else origBgColor) opt
    = Ok result ∧
    (shrinked ← NewRGBA (MinX input) (MinY input) (Dx input) (Dy input);
     st ← for_loop 0 (Z.to_nat (Dy input)) (λ y st,
       for_loop 0 (Z.to_nat (Dx input)) (λ x '(shrinked, idx),
         '(c0, c1, c2) ← index result idx;
         let r := f32.to_uint8 c0 in
         let g := f32.to_uint8 c1 in
         let b := f32.to_uint8 c2 in
         mret (SetRGBA shrinked (Z.of_nat x) (Z.of_nat y) (r, g, b, 255),
               S idx)) st) (shrinked, 0%nat);
     mret (fst st)) = Ok out.
Proof.
  intros opt. unfold Shrink. cbv zeta. fold opt.
  destruct (samplePixels rnd (load input) opt) as [samples|]; [|done].
  cbn [mbind result_bind].
  destruct (createPalette samples opt) as [[palette origBgColor]|] eqn:Hpal;
    [|done].
  cbn [mbind result_bind].
  destruct (applyPalette (load input) _ origBgColor _ opt)
    as [result|] eqn:Hres; [|done].
  cbn [mbind result_bind]. intros Hout.
  by exists samples, palette, origBgColor, result.
Qed.

End shrink_facts.

(** Claim C5, as the code behaves.  [Shrink] checks nothing.  With a sample
    fraction that is not positive, or an image without pixels, the sampler
    returns no sample and the run panics with an index out of range when
    [findBackgroundColor], called by [createPalette], reads the first
    sample.  With fewer than two colours and some sample, [createPalette]
    runs [kMeans] without clusters: it returns the background colour alone
    when no sample is foreground, and panics otherwise. *)
Theorem Shrink_does_not_validate rnd input option :
  let opt := default noteshrink.MakeDefaultOption option in
  (f32.le (noteshrink.SampleFraction opt) 0%f32 = true ∨
   (noteshrink.Dx input ≤ 0)%Z ∨ (noteshrink.Dy input ≤ 0)%Z →
   noteshrink.samplePixels rnd (noteshrink.load input) opt = Ok [] ∧
   noteshrink.createPalette [] opt = Panic (IndexOutOfRange 0 0) ∧
   noteshrink.Shrink rnd input option = Panic (IndexOutOfRange 0 0)) ∧
  (∀ samples,
     samples ≠ [] →
     (f32.min_int64 < noteshrink.NumColors opt < 2)%Z →
     ∃ bgColor,
       noteshrink.findBackgroundColor samples 6 = Ok bgColor ∧
       noteshrink.createPalette samples opt
       = match List.filter (λ p, isForeground bgColor p opt) samples with
         | [] => Ok ([bgColor], bgColor)
         | _ :: _ => Panic (IndexOutOfRange 0 0)
         end).
Proof.
  intros opt. split; [|intros samples; apply createPalette_no_clusters].
  intros Hbad.
  assert (noteshrink.samplePixels rnd (noteshrink.load input) opt = Ok [])
    as Hnone.
  { apply samplePixels_none.
    destruct Hbad as [Hf|Hempty]; [by apply numSamples_nonpositive|].
    rewrite load_empty by done. apply numSamples_empty. }
  split; [done|]. split; [apply createPalette_empty|].
  by apply Shrink_no_samples.
Qed.

(** Counterexample to claim C5.  With [NumColors = 1] on a white image of
    one pixel, [Shrink] returns an image. *)
Lemma Shrink_accepts_one_color :
  let input := {| noteshrink.MinX := 0; noteshrink.MinY := 0;
                  noteshrink.Dx := 1; noteshrink.Dy := 1;
                  noteshrink.At := λ _ _, (65535, 65535, 65535, 65535)%Z |} in
  let opt := {| noteshrink.SampleFraction := 1%f32;
                noteshrink.BrightnessThreshold := (f32.of_int 1 / f32.of_int 4)%f32;
                noteshrink.SaturationThreshold := (f32.of_int 1 / f32.of_int 5)%f32;
                noteshrink.NumColors := 1;
                noteshrink.KmeansMaxIter := 40;
                noteshrink.Saturate := false;
                noteshrink.WhiteBackground := false |} in
  (noteshrink.NumColors opt < 2)%Z ∧
  noteshrink.Shrink (λ _, 0) input (Some opt)
  = Ok {| noteshrink.Pix := [(254, 254, 254, 255)%Z];
          noteshrink.RectMinX := 0; noteshrink.RectMinY := 0;
          noteshrink.RectDx := 1; noteshrink.RectDy := 1 |}.
Proof. split; [done|]. vm_compute. reflexivity. Qed.

(** * Further properties of the pipeline *)

(** ** Loading *)

Section load_facts.

Import noteshrink.

Lemma load_rows img :
  load img
  = foldl (λ result y, result ++ ((λ x, pixelOf img x y) <$> seq 0 (Z.to_nat (Dx img))))
          [] (seq 0 (Z.to_nat (Dy img))).
Proof.
  unfold load. apply foldl_pointwise. intros acc y.
  rewrite <- foldl_snoc_fmap. apply foldl_pointwise. intros acc' x.
  unfold pixelOf, byteColor.
  by destruct (At img (Z.of_nat x) (Z.of_nat y)) as [[[r g] b] a].
Qed.

Lemma rows_lookup {A} (row : nat → list A) (w h : nat) :
  (∀ y, length (row y) = w) →
  let l := foldl (λ result y, result ++ row y) [] (seq 0 h) in
  length l = h * w ∧
  ∀ x y, x < w → y < h → l !! (y * w + x) = row y !! x.
Proof.
  intros Hrow. induction h as [|h [IHlen IH]]; [by split; [|lia]|].
  rewrite seq_S, foldl_app. cbn [foldl plus].
  set (l := foldl _ _ (seq 0 h)) in *.
  split; [rewrite length_app, IHlen, Hrow; lia|].
  intros x y Hx Hy. destruct (decide (y = h)) as [->|Hne].
  - rewrite lookup_app_r by nia. f_equal. nia.
  - rewrite lookup_app_l by nia. apply IH; lia.
Qed.

End load_facts.

(** [load] stores the pixels row by row: the buffer has [Dx * Dy] entries
    (none when a dimension is not positive), the pixel of the point
    [(x, y)] is at index [y * Dx + x], and it holds the low eight bits of
    each channel of [At(x, y).RGBA()], so every channel is an integer from
    0 to 255. *)
Theorem load_row_major (img : noteshrink.Image) :
  let w := Z.to_nat (noteshrink.Dx img) in
  let h := Z.to_nat (noteshrink.Dy img) in
  length (noteshrink.load img) = h * w ∧
  (∀ x y, x < w → y < h →
     noteshrink.load img !! (y * w + x) = Some (pixelOf img x y)) ∧
  Forall isByteColor (noteshrink.load img).
Proof.
  intros w h. rewrite load_rows.
  destruct (rows_lookup (λ y, (λ x, pixelOf img x y) <$> seq 0 w) w h)
    as [Hlen Hlook]; [intros y; by rewrite length_fmap, length_seq|].
  fold w h. cbv zeta in Hlen, Hlook.
  split; [exact Hlen|]. split.
  - intros x y Hx Hy. rewrite Hlook by done.
    by rewrite list_lookup_fmap, lookup_seq_lt.
  - clear Hlen Hlook. generalize (seq 0 h). intros ys.
    assert (∀ acc, Forall isByteColor acc →
      Forall isByteColor
        (foldl (λ result y, result ++ ((λ x, pixelOf img x y) <$> seq 0 w))
               acc ys)) as Hall; [|by apply Hall].
    induction ys as [|y ys IH]; intros acc Hacc; [done|].
    simpl. apply IH. apply Forall_app. split; [done|].
    apply Forall_fmap, Forall_forall. intros x _. simpl. unfold pixelOf.
    destruct (noteshrink.At img (Z.of_nat x) (Z.of_nat y)) as [[[r g] b] a].
    exists (r mod 256)%Z, (g mod 256)%Z, (b mod 256)%Z.
    split; [|done].
    pose proof (Z.mod_pos_bound r 256). pose proof (Z.mod_pos_bound g 256).
    pose proof (Z.mod_pos_bound b 256). lia.
Qed.

(** ** Quantization *)

Section quantize_facts.

Import noteshrink.

#[local] Open Scope Z_scope.

(** A property checked on every 8-bit value holds of each of them. *)
Lemma forallb_bytes (P : Z → bool) :
  forallb P bytes = true → ∀ k, 0 ≤ k < 256 → P k = true.
Proof.
  intros Hall k Hk. rewrite forallb_forall in Hall. apply Hall.
  unfold bytes. apply in_map_iff. exists (Z.to_nat k).
  split; [lia|]. apply in_seq. lia.
Qed.

(** The 8-bit values survive the conversion to binary32 and back. *)
Lemma to_uint8_of_int k : 0 ≤ k < 256 → f32.to_uint8 (f32.of_int k) = k.
Proof.
  intros Hk. apply Z.eqb_eq.
  revert k Hk. apply forallb_bytes. vm_compute. reflexivity.
Qed.

Lemma quantizeByte_range s u : 0 ≤ quantizeByte s u < 256.
Proof. unfold quantizeByte. apply Z.mod_pos_bound. lia. Qed.

Lemma quantizeColor_channels bits x0 x1 x2 :
  quantizeColor bits (x0, x1, x2)
  = byteColor (quantizeByte ((8 - bits) mod 256) (f32.to_uint8 x0))
              (quantizeByte ((8 - bits) mod 256) (f32.to_uint8 x1))
              (quantizeByte ((8 - bits) mod 256) (f32.to_uint8 x2)).
Proof. reflexivity. Qed.

Lemma quantizeByte_binCentre bits n :
  1 ≤ bits ≤ 8 → 0 ≤ n < 256 →
  quantizeByte ((8 - bits) mod 256) n = binCentre bits n ∧
  0 ≤ binCentre bits n < 256 ∧
  Z.abs (binCentre bits n - n) ≤ 2 ^ (8 - bits) / 2.
Proof.
  intros Hb Hn.
  assert ((quantizeByte ((8 - bits) mod 256) n =? binCentre bits n)
          && (0 <=? binCentre bits n) && (binCentre bits n <? 256)
          && (Z.abs (binCentre bits n - n) <=? 2 ^ (8 - bits) / 2) = true)
    as Hcheck.
  { revert n Hn. apply forallb_bytes.
    assert (bits = 1 ∨ bits = 2 ∨ bits = 3 ∨ bits = 4 ∨ bits = 5 ∨ bits = 6
            ∨ bits = 7 ∨ bits = 8) as Hcases by lia.
    destruct Hcases as [->|[->|[->|[->|[->|[->|[->| ->]]]]]]];
      vm_compute; reflexivity. }
  apply andb_prop in Hcheck as [[[H1 H2]%andb_prop H3]%andb_prop H4].
  apply Z.eqb_eq in H1. apply Z.leb_le in H2, H4. apply Z.ltb_lt in H3.
  lia.
Qed.

(** A shift of 8 or more leaves nothing: the channel is shifted out, and
    the uint8 value of [1 << shift] is 0. *)
Lemma quantizeByte_wide s u : 8 ≤ s → 0 ≤ u < 256 → quantizeByte s u = 0.
Proof.
  intros Hs Hu. unfold quantizeByte.
  assert (2 ^ s = 2 ^ (s - 8) * 256) as Hpow
    by (change 256 with (2 ^ 8); rewrite <- Z.pow_add_r by lia; f_equal; lia).
  assert (0 < 2 ^ (s - 8)) by (apply Z.pow_pos_nonneg; lia).
  rewrite Z.shiftr_div_pow2, (Z.shiftl_mul_pow2 1) by lia.
  rewrite Z.div_small by nia.
  rewrite Z.mul_1_l, Hpow, Z.mod_mul by lia. by rewrite Z.shiftl_0_l.
Qed.

Lemma quantizeByte_idempotent s u :
  0 ≤ s → 0 ≤ u < 256 →
  quantizeByte s (quantizeByte s u) = quantizeByte s u.
Proof.
  intros Hs Hu. destruct (Z_lt_ge_dec s 8) as [Hlt|Hge].
  - apply Z.eqb_eq. revert u Hu. apply forallb_bytes.
    assert (s = 0 ∨ s = 1 ∨ s = 2 ∨ s = 3 ∨ s = 4 ∨ s = 5 ∨ s = 6 ∨ s = 7)
      as Hcases by lia.
    destruct Hcases as [->|[->|[->|[->|[->|[->|[->| ->]]]]]]];
      vm_compute; reflexivity.
  - rewrite (quantizeByte_wide s u) by lia. apply quantizeByte_wide; lia.
Qed.

Lemma quantizeColor_idempotent bits p :
  quantizeColor bits (quantizeColor bits p) = quantizeColor bits p.
Proof.
  destruct p as [[x0 x1] x2]. rewrite quantizeColor_channels.
  unfold byteColor at 1. rewrite quantizeColor_channels.
  pose proof (Z.mod_pos_bound (8 - bits) 256 ltac:(lia)) as Hs.
  rewrite !to_uint8_of_int by apply quantizeByte_range.
  rewrite !quantizeByte_idempotent; try done; try lia;
    unfold f32.to_uint8; apply Z.mod_pos_bound; lia.
Qed.

End quantize_facts.

(** With 1 to 8 bits per channel, [quantize] never panics and maps every
    8-bit channel value to the centre of its bin of width
    [2^(8 - bitsPerChannel)]: the value rounded down to a multiple of the
    width, plus half the width.  The result is again an 8-bit value (the
    uint8 addition does not wrap) and is at most half a bin away. *)
Theorem quantize_bin_centres (image : list noteshrink.rgbf) (bits : Z) :
  (1 ≤ bits ≤ 8)%Z →
  ∃ out,
    noteshrink.quantize image bits = Ok out ∧
    length out = length image ∧
    ∀ i r g b,
      (0 ≤ r < 256 ∧ 0 ≤ g < 256 ∧ 0 ≤ b < 256)%Z →
      image !! i = Some (byteColor r g b) →
      out !! i = Some (byteColor (binCentre bits r) (binCentre bits g)
                                 (binCentre bits b)) ∧
      (0 ≤ binCentre bits r < 256 ∧ 0 ≤ binCentre bits g < 256
       ∧ 0 ≤ binCentre bits b < 256)%Z ∧
      (Z.abs (binCentre bits r - r) ≤ 2 ^ (8 - bits) / 2
       ∧ Z.abs (binCentre bits g - g) ≤ 2 ^ (8 - bits) / 2
       ∧ Z.abs (binCentre bits b - b) ≤ 2 ^ (8 - bits) / 2)%Z.
Proof.
  intros Hbits. exists (quantizeColor bits <$> image).
  split; [apply quantize_map|]. split; [by rewrite length_fmap|].
  intros i r g b (Hr & Hg & Hb) Hi.
  rewrite list_lookup_fmap, Hi. cbn [fmap option_fmap option_map].
  unfold byteColor at 1.
  rewrite quantizeColor_channels, !to_uint8_of_int by done.
  destruct (quantizeByte_binCentre bits r Hbits Hr) as (-> & ? & ?).
  destruct (quantizeByte_binCentre bits g Hbits Hg) as (-> & ? & ?).
  destruct (quantizeByte_binCentre bits b Hbits Hb) as (-> & ? & ?).
  done.
Qed.

(** [quantize] is idempotent, for every image and every number of bits:
    quantizing a quantized image changes nothing. *)
Theorem quantize_idempotent (image : list noteshrink.rgbf) (bits : Z) :
  (out ← noteshrink.quantize image bits; noteshrink.quantize out bits)
  = noteshrink.quantize image bits.
Proof.
  rewrite quantize_map. cbn [mbind result_bind]. rewrite quantize_map.
  f_equal. rewrite <- list_fmap_compose. apply list_fmap_ext.
  intros i p _. apply quantizeColor_idempotent.
Qed.

(** Without a bit per channel, or with more than 8 bits, the uint8 shift
    [8 - bitsPerChannel] is 8 or more: the channel is shifted out, the
    uint8 constant [1 << shift] is 0, so there is no half bin, and every
    channel of every colour becomes 0. *)
Theorem quantize_shifts_everything_out (image : list noteshrink.rgbf)
    (bits : Z) :
  (bits = 0 ∨ 8 < bits < 256)%Z →
  noteshrink.quantize image bits
  = Ok (replicate (length image) (byteColor 0 0 0)).
Proof.
  intros Hbits. rewrite quantize_map. f_equal.
  assert (8 ≤ (8 - bits) mod 256)%Z as Hs.
  { destruct Hbits as [->|Hbits]; [done|].
    replace (8 - bits)%Z with (264 - bits + -1 * 256)%Z by lia.
    rewrite Z.mod_add, Z.mod_small by lia. lia. }
  induction image as [|[[x0 x1] x2] image IH]; [done|].
  rewrite fmap_cons, IH. cbn [length replicate]. f_equal.
  rewrite quantizeColor_channels.
  rewrite !quantizeByte_wide; try exact Hs; try done;
    unfold f32.to_uint8; apply Z.mod_pos_bound; lia.
Qed.

(** ** The background colour *)

Section background_facts.

Import noteshrink.

Lemma SFeqb_plain (x y : float32) :
  plainFloat x → plainFloat y → SFeqb x y = bool_decide (x = y).
Proof.
  intros Hx Hy. unfold SFeqb.
  destruct x as [[]|sx| |sx mx ex]; try done;
    destruct y as [[]|sy| |sy my ey]; try done;
    try (by destruct sx); try (by destruct sy);
    try (by destruct sx, sy).
  destruct sx, sy; try done.
  - rewrite SFcompare_finite_neg.
    destruct (Z.compare_spec ex ey) as [->|?|?];
      [|rewrite bool_decide_eq_false_2; [done|intros [=]; lia]..].
    destruct (Pos.compare_spec mx my) as [->|?|?]; simpl;
      [by rewrite bool_decide_eq_true_2
      |rewrite bool_decide_eq_false_2; [done|intros [=]; lia]..].
  - rewrite SFcompare_finite_pos.
    destruct (Z.compare_spec ex ey) as [->|?|?];
      [|rewrite bool_decide_eq_false_2; [done|intros [=]; lia]..].
    destruct (Pos.compare_spec mx my) as [->|?|?]; simpl;
      [by rewrite bool_decide_eq_true_2
      |rewrite bool_decide_eq_false_2; [done|intros [=]; lia]..].
Qed.

Lemma rgbf_eq_plain (a b : rgbf) :
  plainColor a → plainColor b → rgbf_eq a b = bool_decide (a = b).
Proof.
  destruct a as [[a0 a1] a2], b as [[b0 b1] b2].
  intros (Ha0 & Ha1 & Ha2) (Hb0 & Hb1 & Hb2). simpl in *.
  unfold rgbf_eq, f32.eq. rewrite !SFeqb_plain by done.
  repeat case_bool_decide; simpl; congruence.
Qed.

Lemma of_int_byte_plain k : (0 ≤ k < 256)%Z → plainFloat (f32.of_int k).
Proof.
  intros Hk.
  assert (match f32.of_int k with
          | S754_nan | S754_zero true => false | _ => true end = true) as H.
  { revert k Hk. apply forallb_bytes. vm_compute. reflexivity. }
  unfold plainFloat. by destruct (f32.of_int k) as [[]| | |].
Qed.

Lemma quantizeColor_plain bits p : plainColor (quantizeColor bits p).
Proof.
  destruct p as [[x0 x1] x2]. rewrite quantizeColor_channels.
  repeat split; apply of_int_byte_plain, quantizeByte_range.
Qed.

(** Reading and writing the count map at plain keys. *)
Lemma count_get_set (count : count_map) (k v : rgbf) (c : Z) :
  Forall (λ kc, plainColor kc.1) count → plainColor k → plainColor v →
  count_get (count_set count k c) v
  = if bool_decide (k = v) then c else count_get count v.
Proof.
  intros Hkeys Hk Hv.
  induction count as [|[k' c'] count IH]; simpl.
  - by rewrite rgbf_eq_plain.
  - apply Forall_cons in Hkeys as [Hk' Hkeys]. simpl in Hk'.
    rewrite (rgbf_eq_plain k' k) by done.
    destruct (decide (k' = k)) as [->|Hkk].
    + rewrite bool_decide_eq_true_2 by done. simpl.
      rewrite (rgbf_eq_plain k v) by done. by case_bool_decide.
    + rewrite bool_decide_eq_false_2 by done. simpl.
      rewrite (rgbf_eq_plain k' v) by done. rewrite IH by done.
      repeat case_bool_decide; congruence.
Qed.

Lemma count_set_keys (count : count_map) (k : rgbf) (c : Z) :
  Forall (λ kc, plainColor kc.1) count → plainColor k →
  Forall (λ kc, plainColor kc.1) (count_set count k c).
Proof.
  intros Hkeys Hk. induction count as [|[k' c'] count IH]; simpl.
  - constructor; [exact Hk|constructor].
  - apply Forall_cons in Hkeys as [Hk' Hkeys].
    destruct (rgbf_eq k' k); constructor; auto.
Qed.

Lemma occurrences_snoc (l : list rgbf) (x v : rgbf) :
  plainColor x → plainColor v →
  occurrences (l ++ [x]) v
  = occurrences l v + (if bool_decide (x = v) then 1 else 0).
Proof.
  intros Hx Hv. unfold occurrences.
  rewrite List.filter_app, length_app. f_equal. simpl.
  rewrite (rgbf_eq_plain v x) by done.
  repeat case_bool_decide; simpl; congruence.
Qed.

Lemma occurrences_elem (l : list rgbf) (v : rgbf) :
  Forall plainColor l → plainColor v → 1 ≤ occurrences l v → v ∈ l.
Proof.
  intros Hl Hv. unfold occurrences.
  induction l as [|x l IH]; simpl; [lia|].
  apply Forall_cons in Hl as [Hx Hl].
  rewrite (rgbf_eq_plain v x) by done.
  case_bool_decide as Heq; [subst; left|intros; right; auto].
Qed.

(** The invariant of the counting loop of [findBackgroundColor], after the
    elements [seen] that follow the first one. *)
Lemma findBackgroundColor_loop (first : rgbf) (rest : list rgbf) :
  Forall plainColor rest →
  ∃ count maxcount c,
    for_loop 1 (S (length rest)) (λ i '(count, maxcount, maxvalue),
      v ← index (first :: rest) i;
      let c := count_get count v in
      let c := (c + 1)%Z in
      let '(maxcount, maxvalue) :=
        if (c >? maxcount)%Z then (c, v) else (maxcount, maxvalue) in
      mret (count_set count v c, maxcount, maxvalue))
      ([], 1%Z, first) = Ok (count, maxcount, c) ∧
    ((c = first ∧ ∀ v, v ∈ rest → occurrences rest v ≤ 1) ∨
     (c ∈ rest ∧ 2 ≤ occurrences rest c ∧
      ∀ v, v ∈ rest → occurrences rest v ≤ occurrences rest c)).
Proof.
  intros Hplain.
  edestruct (for_loop_inv (λ (j : nat) (st : count_map * Z * rgbf),
      let '(count, maxcount, maxvalue) := st in
      let seen := take (j - 1) rest in
      Forall (λ kc, plainColor kc.1) count ∧
      (∀ v, plainColor v →
         count_get count v = Z.of_nat (occurrences seen v)) ∧
      ((maxcount = 1%Z ∧ maxvalue = first ∧
        ∀ v, plainColor v → occurrences seen v ≤ 1) ∨
       ((2 ≤ maxcount)%Z ∧ plainColor maxvalue ∧
        Z.of_nat (occurrences seen maxvalue) = maxcount ∧
        ∀ v, plainColor v → occurrences seen v ≤ occurrences seen maxvalue)))
    1 (S (length rest)))
    as ([[count maxcount] c] & Hrun & Hkeys & Hcount & Hmax);
    [| | |exists count, maxcount, c; split; [exact Hrun|]].
  - lia.
  - split; [done|]. split; [done|]. left. split; [done|]. split; [done|].
    intros v _. unfold occurrences. simpl. lia.
  - intros j [[count maxcount] maxvalue] [Hj1 Hj2] (Hkeys & Hcount & Hmax).
    destruct j as [|j]; [lia|].
    replace (S j - 1) with j in * by lia.
    replace (S (S j) - 1) with (S j) by lia.
    destruct (lookup_lt_is_Some_2 rest j) as [v Hv]; [lia|].
    rewrite (index_Some (first :: rest) (S j) v) by done.
    cbn [mbind result_bind].
    assert (plainColor v) as Hpv
      by (eapply Forall_lookup_1 in Hplain; [exact Hplain|exact Hv]).
    rewrite (take_S_r _ _ v) by done.
    pose proof (occurrences_snoc (take j rest) v v Hpv Hpv) as Hvv.
    rewrite bool_decide_eq_true_2 in Hvv by done.
    rewrite (Hcount v Hpv).
    assert (∀ u, plainColor u →
              occurrences (take j rest ++ [v]) u
              = occurrences (take j rest) u
                + (if bool_decide (v = u) then 1 else 0)) as Hocc
      by (intros u Hu; by apply occurrences_snoc).
    destruct (Z.gtb_spec (Z.of_nat (occurrences (take j rest) v) + 1) maxcount)
      as [Hgt|Hle];
      (eexists; split; [reflexivity|]);
      (split; [by apply count_set_keys|]);
      (split; [intros u Hu; rewrite count_get_set, Hocc by done;
               case_bool_decide; [subst; lia|rewrite Hcount by done; lia]|]).
    + right. split; [lia|]. split; [done|]. split; [lia|].
      intros u Hu. rewrite Hocc, Hvv by done.
      destruct Hmax as [(-> & _ & Hone)|(_ & Hpm & Hm & Hbound)].
      * pose proof (Hone u Hu). pose proof (Hone v Hpv).
        case_bool_decide; [subst; lia|lia].
      * pose proof (Hbound u Hu). pose proof (Hbound v Hpv).
        case_bool_decide; [subst; lia|lia].
    + destruct Hmax as [(-> & -> & Hone)|(Hmc & Hpm & Hm & Hbound)].
      * left. split; [done|]. split; [done|].
        intros u Hu. rewrite Hocc by done. specialize (Hone u Hu).
        case_bool_decide; [subst; lia|lia].
      * right. split; [done|]. split; [done|].
        assert (v ≠ maxvalue) as Hne by (intros ->; lia).
        rewrite (Hocc maxvalue) by done.
        rewrite bool_decide_eq_false_2 by done.
        split; [lia|]. intros u Hu. rewrite Hocc by done.
        specialize (Hbound u Hu).
        case_bool_decide; [subst; lia|lia].
  - replace (S (length rest) - 1) with (length rest) in * by lia.
    rewrite firstn_all in *.
    assert (∀ v, v ∈ rest → plainColor v) as Hin
      by (intros v; by apply Forall_forall).
    destruct Hmax as [(_ & -> & Hone)|(Hmc & Hpm & Hm & Hbound)].
    + left. split; [done|]. intros v Hv. apply Hone, Hin, Hv.
    + right. split; [apply occurrences_elem; [done|done|lia]|]. split; [lia|].
      intros v Hv. apply Hbound, Hin, Hv.
Qed.

End background_facts.

(** What [findBackgroundColor] returns on a list that is not empty.  It
    counts the quantized colours that follow the first one.  If none of
    them occurs twice there, the quantized first sample is returned;
    otherwise the result is a most frequent colour among those that follow
    the first.  The first sample itself is never counted. *)
Theorem findBackgroundColor_counts_after_first
    (p0 : noteshrink.rgbf) (ps : list noteshrink.rgbf) (bits : Z) :
  let first := quantizeColor bits p0 in
  let rest := quantizeColor bits <$> ps in
  ∃ c,
    noteshrink.findBackgroundColor (p0 :: ps) bits = Ok c ∧
    ((c = first ∧ ∀ v, v ∈ rest → occurrences rest v ≤ 1) ∨
     (c ∈ rest ∧ 2 ≤ occurrences rest c ∧
      ∀ v, v ∈ rest → occurrences rest v ≤ occurrences rest c)).
Proof.
  intros first rest.
  destruct (findBackgroundColor_loop first rest)
    as (count & maxcount & c & Hrun & Hc).
  { apply Forall_fmap, Forall_forall. intros p _. apply quantizeColor_plain. }
  exists c. split; [|exact Hc].
  unfold noteshrink.findBackgroundColor. rewrite quantize_map.
  cbn [mbind result_bind]. rewrite fmap_cons. fold first rest.
  rewrite (index_Some _ _ first) by done. cbn [mbind result_bind].
  cbn [length].
  match goal with
  | |- ?l ≫= _ = _ => replace l with (Ok (count, maxcount, c) : result _)
  end; [|symmetry; exact Hrun..].
  reflexivity.
Qed.

(** ** Clustering *)

Section clustering_facts.

Import noteshrink.

(** The first assignment of [kMeans]: every point goes to its nearest
    seed. *)
Lemma kMeans_first_assignment (data means : list rgbf) :
  means ≠ [] →
  ∃ clusters,
    for_range data (λ i d clusters,
      c ← closest d means;
      store clusters i c) (replicate (length data) 0) = Ok clusters ∧
    length clusters = length data ∧
    Forall (λ c, c < length means) clusters.
Proof.
  intros Hne.
  edestruct (for_range_inv (λ (j : nat) (cl : list nat),
    length cl = length data ∧ Forall (λ c, c < length means) cl) data)
    as (cl & Hrun & Hcl & Hr); [| |exists cl; split; [exact Hrun|done]].
  - split; [by rewrite length_replicate|].
    apply Forall_replicate. destruct means; simpl; [done|lia].
  - intros j p cl Hp [Hcl Hr].
    destruct (closest_lt p means Hne) as (m & -> & Hm).
    cbn [mbind result_bind].
    rewrite store_lt by (apply lookup_lt_Some in Hp; lia).
    eexists. split; [done|]. rewrite length_insert.
    split; [done|]. by apply Forall_insert.
Qed.

(** After at least one iteration the centres are those of some
    assignment of the points to the clusters. *)
Lemma kMeans_iterate_centres itrs data means mLen clusters :
  means ≠ [] →
  length clusters = length data →
  length mLen = length means →
  Forall (λ c, c < length means) clusters →
  ∃ means' clusters',
    kMeans_iterate (S itrs) data means mLen clusters = Ok means' ∧
    length means' = length means ∧
    length clusters' = length data ∧
    Forall (λ c, c < length means) clusters' ∧
    ∀ c, c < length means → means' !! c = Some (centreOf c data clusters').
Proof.
  revert means mLen clusters.
  induction itrs as [|itrs IH]; intros means mLen clusters Hne Hcl Hlen Hr.
  - cbn [kMeans_iterate].
    destruct (kMeans_update_run data clusters means mLen)
      as (means1 & mLen1 & -> & Hm1 & Hl1 & Hc1); [done..|].
    cbn [mbind result_bind].
    assert (means1 ≠ []) as Hne1
      by (destruct means1, means; simpl in *; done).
    destruct (kMeans_reassign_run data means1 clusters)
      as (clusters1 & changes & -> & Hcl1 & Hr1);
      [done|done|by rewrite Hm1|].
    cbn [mbind result_bind].
    exists means1, clusters.
    split; [by destruct (changes =? 0)%Z|]. done.
  - remember (S itrs) as n eqn:Hn. cbn [kMeans_iterate].
    destruct (kMeans_update_run data clusters means mLen)
      as (means1 & mLen1 & -> & Hm1 & Hl1 & Hc1); [done..|].
    cbn [mbind result_bind].
    assert (means1 ≠ []) as Hne1
      by (destruct means1, means; simpl in *; done).
    destruct (kMeans_reassign_run data means1 clusters)
      as (clusters1 & changes & -> & Hcl1 & Hr1);
      [done|done|by rewrite Hm1|].
    cbn [mbind result_bind].
    destruct (changes =? 0)%Z; [by exists means1, clusters|].
    subst n.
    destruct (IH means1 mLen1 clusters1)
      as (means' & clusters' & -> & Hm' & Hcl' & Hr' & Hc');
      [done|done|lia|done|].
    exists means', clusters'. rewrite <- Hm1.
    split; [done|]. split; [done|]. split; [done|]. split; [done|].
    intros c Hc. apply Hc'. lia.
Qed.

(** An update without data clears every centre. *)
Lemma kMeans_update_no_data (means : list rgbf) (mLen : list Z) :
  length mLen = length means →
  ∃ mLen',
    kMeans_update [] [] means mLen
    = Ok (replicate (length means) (0, 0, 0)%f32, mLen').
Proof.
  intros Hlen.
  destruct (kMeans_update_run [] [] means mLen)
    as (means' & mLen' & -> & Hm & _ & Hc); [done|done|done|].
  exists mLen'. do 2 f_equal. apply list_eq_same_length with (length means);
    [by rewrite length_replicate|done|].
  intros i x y Hi Hx Hy. rewrite Hc in Hx by done.
  apply lookup_replicate in Hy as [-> _]. by simplify_eq.
Qed.

(** Without data the first update clears every centre and nothing
    moves. *)
Lemma kMeans_no_data (k maxItr : Z) :
  (1 ≤ k)%Z → (1 ≤ maxItr)%Z →
  kMeans [] k maxItr = Ok (replicate (Z.to_nat k) (0, 0, 0)%f32).
Proof.
  intros Hk Hmax. unfold kMeans. cbv zeta.
  cbn [for_range for_range_from mbind result_bind length replicate].
  replace (Z.to_nat maxItr) with (S (Z.to_nat maxItr - 1)) by lia.
  cbn [kMeans_iterate].
  destruct (kMeans_update_no_data (kMeans_seeds k)
              (replicate (length (kMeans_seeds k)) 0%Z))
    as (mLen' & ->); [by rewrite length_replicate|].
  by rewrite kMeans_seeds_length.
Qed.

End clustering_facts.

(** [closest] panics exactly on an empty list of centres, with an index
    out of range at index 0; otherwise it returns the index of a centre at
    the least squared distance from the point, the lowest such index. *)
Theorem closest_lowest_nearest (p : noteshrink.rgbf)
    (means : list noteshrink.rgbf) :
  match noteshrink.closest p means with
  | Ok m => m < length means ∧ is_nearest p means m
  | Panic e => means = [] ∧ e = IndexOutOfRange 0 0
  end.
Proof.
  destruct means as [|m0 means]; [done|].
  destruct (closest_nearest p (m0 :: means)) as (m & -> & Hm); [done|].
  split; [|done]. destruct Hm as (cm & Hcm & _). by eapply lookup_lt_Some.
Qed.

(** The outcome of [kMeans] by the number [k] of clusters.  For [k >= 1]
    it never panics and returns exactly [k] centres, which are the seeds
    unchanged when [maxItr] allows no iteration.  For [k <= 0] there is no
    centre: it returns the empty list when there is no data, and panics
    with an index out of range at the first point otherwise. *)
Theorem kMeans_outcome_by_cluster_count (data : list noteshrink.rgbf)
    (k maxItr : Z) :
  ((1 ≤ k)%Z →
     ∃ means, noteshrink.kMeans data k maxItr = Ok means ∧
              length means = Z.to_nat k ∧
              ((maxItr ≤ 0)%Z → means = noteshrink.kMeans_seeds k)) ∧
  ((k ≤ 0)%Z →
     noteshrink.kMeans data k maxItr
     = match data with
       | [] => Ok []
       | _ :: _ => Panic (IndexOutOfRange 0 0)
       end).
Proof.
  split; [|apply kMeans_no_clusters].
  intros Hk. unfold noteshrink.kMeans.
  pose proof (kMeans_seeds_length k) as Hseeds.
  assert (noteshrink.kMeans_seeds k ≠ []) as Hne
    by (destruct (noteshrink.kMeans_seeds k); simpl in *; [lia|done]).
  destruct (kMeans_first_assignment data (noteshrink.kMeans_seeds k) Hne)
    as (cl & Hrun & Hcl & Hr).
  cbv zeta. rewrite Hrun. cbn [mbind result_bind].
  destruct (kMeans_iterate_run (Z.to_nat maxItr) data
              (noteshrink.kMeans_seeds k)
              (replicate (length (noteshrink.kMeans_seeds k)) 0%Z) cl)
    as (means & Hit & Hm); [done|done|by rewrite length_replicate|done|].
  exists means. split; [done|]. split; [lia|].
  intros Hmax. replace (Z.to_nat maxItr) with 0 in Hit by lia.
  simpl in Hit. congruence.
Qed.

(** With at least one cluster and at least one iteration, the centres
    returned by [kMeans] are the centres of an assignment of the points to
    the [k] clusters.  Each one is, in each channel, the binary32 sum of the
    channel over the points of its cluster, accumulated from zero in data
    order, times the binary32 reciprocal of their number (the mean up to
    the rounding of these operations), or the zero vector when the cluster
    is empty. *)
Theorem kMeans_centres_are_cluster_means (data : list noteshrink.rgbf)
    (k maxItr : Z) :
  (1 ≤ k)%Z → (1 ≤ maxItr)%Z →
  ∃ means clusters,
    noteshrink.kMeans data k maxItr = Ok means ∧
    length means = Z.to_nat k ∧
    length clusters = length data ∧
    Forall (λ c, c < Z.to_nat k) clusters ∧
    ∀ c, c < Z.to_nat k →
      (members c data clusters ≠ [] →
         means !! c = Some (meanRGB (members c data clusters))) ∧
      (members c data clusters = [] → means !! c = Some (0, 0, 0)%f32).
Proof.
  intros Hk Hmax. unfold noteshrink.kMeans.
  pose proof (kMeans_seeds_length k) as Hseeds.
  assert (noteshrink.kMeans_seeds k ≠ []) as Hne
    by (destruct (noteshrink.kMeans_seeds k); simpl in *; [lia|done]).
  destruct (kMeans_first_assignment data (noteshrink.kMeans_seeds k) Hne)
    as (cl & Hrun & Hcl & Hr).
  cbv zeta. rewrite Hrun. cbn [mbind result_bind].
  replace (Z.to_nat maxItr) with (S (Z.to_nat maxItr - 1)) by lia.
  destruct (kMeans_iterate_centres (Z.to_nat maxItr - 1) data
              (noteshrink.kMeans_seeds k)
              (replicate (length (noteshrink.kMeans_seeds k)) 0%Z) cl)
    as (means & clusters & Hit & Hm & Hcl' & Hr' & Hc);
    [done|done|by rewrite length_replicate|done|].
  rewrite Hseeds in *.
  exists means, clusters. split; [done|]. split; [done|]. split; [done|].
  split; [done|]. intros c Hlt. specialize (Hc c Hlt).
  unfold centreOf in Hc. destruct (members c data clusters); by split.
Qed.

(** Without data, [kMeans] with at least one cluster and one iteration
    returns [k] zero vectors: the first update clears every centre and no
    point moves. *)
Theorem kMeans_without_data (k maxItr : Z) :
  (1 ≤ k)%Z → (1 ≤ maxItr)%Z →
  noteshrink.kMeans [] k maxItr = Ok (replicate (Z.to_nat k) (0, 0, 0)%f32).
Proof. apply kMeans_no_data. Qed.

Section reassign_facts.

Import noteshrink.

Lemma differing_snoc (l l' : list nat) (a b : nat) :
  length l = length l' →
  differing (l ++ [a]) (l' ++ [b])
  = differing l l' + (if decide (a = b) then 0 else 1).
Proof.
  intros Hlen. unfold differing.
  rewrite zip_with_app by done.
  rewrite List.filter_app, length_app. f_equal. simpl.
  case_decide as Hab.
  - subst. by rewrite Nat.eqb_refl.
  - apply Nat.eqb_neq in Hab. by rewrite Hab.
Qed.

Lemma differing_zero (l l' : list nat) :
  length l = length l' → differing l l' = 0 ↔ l = l'.
Proof.
  revert l'. induction l as [|a l IH]; intros [|b l'] Hlen; try done.
  simpl in Hlen. injection Hlen as Hlen. specialize (IH l' Hlen).
  unfold differing in *. simpl.
  destruct (Nat.eqb_spec a b) as [->|Hab]; simpl.
  - rewrite IH. split; [by intros ->|by intros [=]].
  - split; [lia|by intros [=]].
Qed.

End reassign_facts.

(** The reassignment step of [kMeans].  With at least one centre it never
    panics; afterwards every point is assigned to the centre at the least
    squared distance (the lowest index among equally near ones), and the
    counter [changes] is the number of points whose cluster has changed: it
    is 0 exactly when the assignment is what it was. *)
Theorem kMeans_reassign_moves_to_nearest
    (data means : list noteshrink.rgbf) (clusters : list nat) :
  means ≠ [] →
  length clusters = length data →
  ∃ clusters' changes,
    noteshrink.kMeans_reassign data means clusters = Ok (clusters', changes) ∧
    length clusters' = length data ∧
    (∀ i p, data !! i = Some p →
       ∃ m, clusters' !! i = Some m ∧ is_nearest p means m) ∧
    changes = Z.of_nat (differing clusters clusters') ∧
    (changes = 0%Z ↔ clusters' = clusters).
Proof.
  intros Hne Hlen. unfold noteshrink.kMeans_reassign.
  edestruct (for_range_inv (λ (j : nat) (st : list nat * Z),
      length st.1 = length data ∧
      (∀ i p, i < j → data !! i = Some p →
         ∃ m, st.1 !! i = Some m ∧ is_nearest p means m) ∧
      drop j st.1 = drop j clusters ∧
      st.2 = Z.of_nat (differing (take j clusters) (take j st.1))) data)
    as ([cl ch] & Hrun & Hcl & Hnear & _ & Hch);
    [| |exists cl, ch; split; [exact Hrun|]].
  - cbn [fst snd]. split; [done|]. split; [intros; lia|]. done.
  - intros j p [cl ch] Hp (Hcl & Hnear & Hdrop & Hch). cbn [fst snd] in *.
    pose proof (lookup_lt_Some _ _ _ Hp) as Hj.
    destruct (closest_nearest p means Hne) as (m & -> & Hm).
    cbn [mbind result_bind].
    destruct (lookup_lt_is_Some_2 cl j) as [ci Hci]; [lia|].
    rewrite (index_Some _ _ _ Hci). cbn [mbind result_bind].
    assert (clusters !! j = Some ci) as Hcj.
    { rewrite <- (Nat.add_0_r j), <- lookup_drop, <- Hdrop, lookup_drop.
      by rewrite Nat.add_0_r. }
    assert (drop (S j) cl = drop (S j) clusters) as Hdrop'
      by (replace (S j) with (j + 1) by lia; by rewrite <- !drop_drop, Hdrop).
    case_decide as Hmc.
    + rewrite store_lt by lia. cbn [mbind result_bind].
      eexists. split; [done|]. cbn [fst snd]. rewrite length_insert.
      split; [done|]. split; [|split].
      * intros i q Hi Hq. destruct (decide (i = j)) as [->|Hij].
        { simplify_eq. exists m. split; [|done].
          apply list_lookup_insert_eq. lia. }
        rewrite list_lookup_insert_ne by done. apply Hnear; [lia|done].
      * by rewrite drop_insert_lt by lia.
      * rewrite (take_S_r clusters j ci) by done.
        rewrite (take_S_r (<[j:=m]> cl) j m)
          by (apply list_lookup_insert_eq; lia).
        rewrite take_insert_ge by lia.
        rewrite differing_snoc by (rewrite !length_take; lia).
        rewrite decide_False by done. lia.
    + subst ci.
      eexists. split; [done|]. cbn [fst snd].
      split; [done|]. split; [|split; [done|]].
      * intros i q Hi Hq. destruct (decide (i = j)) as [->|Hij].
        { simplify_eq. by exists m. }
        apply Hnear; [lia|done].
      * rewrite (take_S_r clusters j m), (take_S_r cl j m) by done.
        rewrite differing_snoc by (rewrite !length_take; lia).
        rewrite decide_True by done. lia.
  - cbn [fst snd] in *. rewrite !take_ge in Hch by lia.
    split; [done|]. split.
    { intros i p Hp. apply Hnear; [|done]. by eapply lookup_lt_Some. }
    split; [done|]. subst ch.
    pose proof (differing_zero clusters cl ltac:(lia)) as Hz.
    split; [intros H0; symmetry; apply Hz; lia|intros ->].
    assert (differing clusters clusters = 0) as -> by (by apply Hz). done.
Qed.

(** ** Sampling without replacement *)

Section shuffle_facts.

Import noteshrink.

(** [rand.Shuffle] with the swap of [samplePixels] permutes the slice. *)
Lemma Shuffle_permutes (rnd : nat → nat) n (l : list rgbf) :
  n ≤ length l →
  ∃ l',
    Shuffle rnd n (λ i j shuffled,
      sj ← index shuffled j;
      si ← index shuffled i;
      shuffled ← store shuffled i sj;
      store shuffled j si) l = Ok l' ∧
    l' ≡ₚ l.
Proof.
  revert l. induction n as [|i IH]; intros l Hn; [by exists l|].
  destruct i as [|i']; [by exists l|].
  rewrite Shuffle_step.
  pose proof (Nat.mod_upper_bound (rnd (S i')) (S (S i'))) as Hj.
  set (j := rnd (S i') mod S (S i')) in *.
  destruct (index_lt l j) as (sj & Hsj & ->); [lia|].
  cbn [mbind result_bind].
  destruct (index_lt l (S i')) as (si & Hsi & ->); [lia|].
  cbn [mbind result_bind]. rewrite store_lt by lia.
  cbn [mbind result_bind]. rewrite store_lt by (rewrite length_insert; lia).
  cbn [mbind result_bind].
  destruct (IH (<[j:=si]> (<[S i':=sj]> l))) as (l' & -> & Hl').
  - rewrite !length_insert. lia.
  - exists l'. split; [done|]. rewrite Hl'.
    by apply Permutation_insert_swap.
Qed.

Lemma samplePixels_prefix rnd img opt :
  (numSamples img opt ≤ Z.of_nat (length img))%Z →
  ∃ shuffled,
    shuffled ≡ₚ img ∧
    samplePixels rnd img opt
    = Ok (take (Z.to_nat (numSamples img opt)) shuffled).
Proof.
  intros Hn. unfold samplePixels. cbv zeta.
  rewrite copy_loop. cbn [mbind result_bind].
  destruct (Shuffle_permutes rnd (length img) img) as (l' & Hrun & Hl');
    [lia|].
  cbv zeta in Hrun. rewrite Hrun. cbn [mbind result_bind].
  rewrite prefix_loop by (rewrite (Permutation_length Hl'); lia).
  by exists l'.
Qed.

#[local] Open Scope Z_scope.

(** Multiplication by one is exact on a normal number. *)
Lemma mul_one_exact (mx : positive) (ex : Z) :
  2 ^ 23 ≤ Zpos mx < 2 ^ 24 → -23 ≤ ex ≤ 1 →
  (S754_finite false mx ex * 1)%f32 = S754_finite false mx ex.
Proof.
  intros Hmx Hex.
  change 1%f32 with (S754_finite false 8388608 (-23)).
  unfold f32.mul, SFmul. std_names. simpl xorb.
  unfold binary_round_aux.
  pose proof (shr_fexp_exact (mx * 8388608) (ex + -23)) as H1.
  cbv zeta in H1.
  assert (Zpos (digits2_pos (mx * 8388608)) = 47) as Hd.
  { apply digits2_unique. rewrite Pos2Z.inj_mul.
    change (2 ^ (47 - 1)) with (2 ^ 23 * 8388608).
    change (2 ^ 47) with (2 ^ 24 * 8388608). lia. }
  rewrite Hd in H1.
  assert (fexp f32.prec f32.emax (47 + (ex + -23)) - (ex + -23) = 23) as Hs
    by (unfold fexp, emin, f32.prec, f32.emax; lia).
  rewrite Hs in H1.
  destruct (shr_fexp f32.prec f32.emax (Zpos (mx * 8388608)) (ex + -23)
              loc_Exact) as [mrs' e'].
  destruct H1 as [_ H1]. destruct (H1 ltac:(lia)) as (-> & Hq & Hm1).
  cbv zeta in Hm1.
  assert (Zpos (mx * 8388608) / 2 ^ 23 = Zpos mx) as Hquot
    by (rewrite Pos2Z.inj_mul; change (Zpos 8388608) with (2 ^ 23);
        apply Z.div_mul; lia).
  rewrite Hquot in Hm1.
  assert (round_nearest_even (shr_m mrs') (loc_of_shr_record mrs') = Zpos mx)
    as Hround.
  { destruct Hm1 as [->|[_ Hlt]]; [done|].
    rewrite Pos2Z.inj_mul in Hlt. change (Zpos 8388608) with (2 ^ 23) in Hlt.
    lia. }
  rewrite Hround.
  replace (ex + -23 + 23) with ex by lia.
  pose proof (shr_fexp_exact mx ex) as H2. cbv zeta in H2.
  assert (Zpos (digits2_pos mx) = 24) as Hd2
    by (apply digits2_unique; exact Hmx).
  rewrite Hd2 in H2.
  assert (fexp f32.prec f32.emax (24 + ex) - ex = 0) as Hs2
    by (unfold fexp, emin, f32.prec, f32.emax; lia).
  rewrite Hs2 in H2.
  destruct (shr_fexp f32.prec f32.emax (Zpos mx) ex loc_Exact) as [mrs'' e''].
  destruct H2 as [H2 _]. destruct (H2 ltac:(lia)) as (-> & _ & ->).
  destruct (Z.leb_spec ex (f32.emax - f32.prec)); [done|].
  unfold f32.emax, f32.prec in *. lia.
Qed.

(** Integers up to [2^24] survive the conversion to binary32 and back. *)
Lemma to_int_of_int n : 0 ≤ n ≤ 2 ^ 24 → f32.to_int (f32.of_int n) = n.
Proof.
  intros Hn. destruct (Z.eq_dec n 0) as [->|Hne]; [done|].
  destruct (of_int_small n) as (mx & ex & -> & Hmx & Hex & Hval); [lia|].
  unfold f32.to_int.
  assert (Z.shiftl (Zpos mx) ex = n) as ->.
  { destruct (Z_le_gt_dec 0 ex) as [Hpos|Hneg].
    - rewrite Z.shiftl_mul_pow2 by done.
      rewrite pow2_split in Hval by lia.
      pose proof (pow2_pos 200 ltac:(lia)). nia.
    - replace ex with (- (- ex)) by lia.
      rewrite Z.shiftl_opp_r, Z.shiftr_div_pow2 by lia.
      pose proof (pow2_pos (- ex) ltac:(lia)).
      pose proof (pow2_pos (ex + 200) ltac:(lia)).
      assert (2 ^ 200 = 2 ^ (- ex) * 2 ^ (ex + 200)) as Hx
        by (rewrite <- pow2_split by lia; f_equal; lia).
      rewrite Hx in Hval.
      assert (Zpos mx = n * 2 ^ (- ex)) as -> by nia.
      apply Z.div_mul. lia. }
  unfold f32.min_int64, f32.max_int64.
  destruct (Z.leb_spec (-9223372036854775808) n); [|lia].
  destruct (Z.leb_spec n 9223372036854775807); [done|lia].
Qed.

(** With the sample fraction 1, as many samples are asked for as there are
    pixels, up to [2^24] of them. *)
Lemma numSamples_full (img : list rgbf) opt :
  Z.of_nat (length img) ≤ 2 ^ 24 →
  SampleFraction opt = 1%f32 →
  numSamples img opt = Z.of_nat (length img).
Proof.
  intros Hlen Hf. unfold numSamples. rewrite Hf.
  destruct (Z.eq_dec (Z.of_nat (length img)) 0) as [->|Hne]; [done|].
  destruct (of_int_small (Z.of_nat (length img)))
    as (mx & ex & Hx & Hmx & Hex & Hval); [lia|].
  rewrite <- (to_int_of_int (Z.of_nat (length img))) at 2 by lia.
  rewrite Hx. by rewrite mul_one_exact.
Qed.

End shuffle_facts.

(** [samplePixels] draws without replacement.  On an image of at most
    [2^24] pixels and for a sample fraction that is a binary32 number at
    most one, the samples are the first [int(float32(N) * f)] elements of a
    permutation of the pixels, whatever the random source draws: no pixel
    is returned more often than it occurs in the image. *)
Theorem samplePixels_without_replacement (rnd : nat → nat)
    (img : list noteshrink.rgbf) (opt : noteshrink.Option) :
  (Z.of_nat (length img) ≤ 2 ^ 24)%Z →
  is_binary32 (noteshrink.SampleFraction opt) = true →
  f32.le (noteshrink.SampleFraction opt) 1%f32 = true →
  ∃ samples shuffled,
    noteshrink.samplePixels rnd img opt = Ok samples ∧
    shuffled ≡ₚ img ∧
    samples = take (Z.to_nat (noteshrink.numSamples img opt)) shuffled ∧
    samples ⊆+ img.
Proof.
  intros Hsize Hvalid Hle.
  pose proof (numSamples_le_length img opt Hsize Hvalid Hle) as Hn.
  destruct (samplePixels_prefix rnd img opt Hn) as (shuffled & Hperm & Hrun).
  eexists _, shuffled. split; [exact Hrun|]. split; [done|]. split; [done|].
  etransitivity; [apply submseteq_take|by apply Permutation_submseteq].
Qed.

(** With the sample fraction 1, on an image of at most [2^24] pixels,
    [samplePixels] returns every pixel exactly once, in a shuffled
    order. *)
Theorem samplePixels_full_fraction (rnd : nat → nat)
    (img : list noteshrink.rgbf) (opt : noteshrink.Option) :
  (Z.of_nat (length img) ≤ 2 ^ 24)%Z →
  noteshrink.SampleFraction opt = 1%f32 →
  ∃ samples,
    noteshrink.samplePixels rnd img opt = Ok samples ∧ samples ≡ₚ img.
Proof.
  intros Hsize Hf.
  pose proof (numSamples_full img opt Hsize Hf) as Hn.
  destruct (samplePixels_prefix rnd img opt ltac:(lia))
    as (shuffled & Hperm & Hrun).
  exists shuffled. split; [|done]. rewrite Hrun, Hn, Nat2Z.id.
  f_equal. apply take_ge. by rewrite (Permutation_length Hperm).
Qed.

(** ** Hue, saturation and value of 8-bit colours *)

Section hsv_facts.

Import noteshrink.

#[local] Open Scope Z_scope.

(** A property checked on the table of scaled channels holds of every
    8-bit value. *)
Lemma forallb_chanTable (P : Z → float32 → bool) :
  forallb (λ nx, P nx.1 nx.2) chanTable = true →
  ∀ n, 0 ≤ n < 256 → P n (chan n) = true.
Proof.
  intros Hall n Hn. rewrite forallb_forall in Hall.
  apply (Hall (n, chan n)). unfold chanTable.
  apply in_map_iff. exists n. split; [done|].
  unfold bytes. apply in_map_iff. exists (Z.to_nat n).
  split; [lia|]. apply in_seq. lia.
Qed.

Lemma forallb_chanTable2 (P : Z → float32 → Z → float32 → bool) :
  forallb (λ ax, forallb (λ bx, P ax.1 ax.2 bx.1 bx.2) chanTable) chanTable
  = true →
  ∀ a b, 0 ≤ a < 256 → 0 ≤ b < 256 → P a (chan a) b (chan b) = true.
Proof.
  intros Hall a b Ha Hb.
  apply (forallb_chanTable (λ b y, P a (chan a) b y)); [|done].
  apply (forallb_chanTable
           (λ a x, forallb (λ bx, P a x bx.1 bx.2) chanTable)); done.
Qed.

(** The scaled channels are ordered as the 8-bit values are, so the
    largest and the smallest scaled channel are those of the largest and
    the smallest value. *)
Lemma chan_max_min a b :
  0 ≤ a < 256 → 0 ≤ b < 256 →
  max (chan a) (chan b) = chan (Z.max a b) ∧
  min (chan a) (chan b) = chan (Z.min a b).
Proof.
  intros Ha Hb.
  assert ((if (chan a >? chan b)%f32 then b <? a else a <=? b) = true) as H.
  { revert a b Ha Hb.
    apply (forallb_chanTable2
             (λ a x b y, if (x >? y)%f32 then b <? a else a <=? b)).
    vm_compute. reflexivity. }
  unfold max, min. destruct (chan a >? chan b)%f32.
  - apply Z.ltb_lt in H. by rewrite Z.max_l, Z.min_r by lia.
  - apply Z.leb_le in H. by rewrite Z.max_r, Z.min_l by lia.
Qed.

(** The saturation computed from two 8-bit values lies between 0 and 1,
    and is 0 only when they are equal. *)
Lemma saturationOf_range M m :
  0 ≤ m ≤ M → M < 256 →
  let s := saturationOf (chan M) (chan m) in
  is_binary32 s = true ∧ f32.is_finite s = true ∧
  f32.le 0%f32 s = true ∧ f32.le s 1%f32 = true ∧
  (m = M → s = 0%f32) ∧ (m < M → (0 <? s)%f32 = true).
Proof.
  intros Hm HM.
  pose (check := λ (M : Z) (x : float32) (m : Z) (y : float32),
          if m <=? M then
            (λ s : float32,
               is_binary32 s && f32.is_finite s && f32.le 0%f32 s
               && f32.le s 1%f32
               && (if m =? M
                   then match s with S754_zero false => true | _ => false end
                   else (0 <? s)%f32)) (saturationOf x y)
          else true).
  assert (check M (chan M) m (chan m) = true) as H.
  { apply (forallb_chanTable2 check); [|lia..]. vm_compute. reflexivity. }
  unfold check in H. clear check.
  destruct (Z.leb_spec m M); [|lia]. cbv beta in H.
  apply andb_prop in H as [[[[H1 H2]%andb_prop H3]%andb_prop H4]%andb_prop H5].
  cbv zeta. split; [done|]. split; [done|]. split; [done|]. split; [done|].
  destruct (Z.eqb_spec m M).
  - split; [intros _|lia].
    by destruct (saturationOf (chan M) (chan m)) as [[]| | |].
  - split; [lia|done].
Qed.

(** Every scaled channel is a finite number between 0 and 1. *)
Lemma chan_range n :
  0 ≤ n < 256 →
  f32.is_finite (chan n) = true ∧
  f32.le 0%f32 (chan n) = true ∧ f32.le (chan n) 1%f32 = true.
Proof.
  intros Hn.
  assert (f32.is_finite (chan n) && f32.le 0%f32 (chan n)
          && f32.le (chan n) 1%f32 = true) as H.
  { revert n Hn.
    apply (forallb_chanTable
             (λ _ x, f32.is_finite x && f32.le 0%f32 x && f32.le x 1%f32)).
    vm_compute. reflexivity. }
  by apply andb_prop in H as [[H1 H2]%andb_prop H3].
Qed.

(** The value and the saturation that [rgbToHsv] returns for an 8-bit
    colour, in terms of its largest and smallest channel. *)
Lemma rgbToHsv_byteColor r g b :
  0 ≤ r < 256 → 0 ≤ g < 256 → 0 ≤ b < 256 →
  (rgbToHsv (byteColor r g b)).2 = chan (Z.max (Z.max r g) b) ∧
  (rgbToHsv (byteColor r g b)).1.2
  = saturationOf (chan (Z.max (Z.max r g) b)) (chan (Z.min (Z.min r g) b)).
Proof.
  intros Hr Hg Hb.
  destruct (chan_max_min r g Hr Hg) as [Hmax1 Hmin1].
  destruct (chan_max_min (Z.max r g) b ltac:(lia) Hb) as [Hmax2 Hmin2].
  destruct (chan_max_min (Z.min r g) b ltac:(lia) Hb) as [_ Hmin3].
  unfold rgbToHsv, byteColor. cbv zeta. cbn [fst snd].
  change (f32.of_int r / 255)%f32 with (chan r).
  change (f32.of_int g / 255)%f32 with (chan g).
  change (f32.of_int b / 255)%f32 with (chan b).
  rewrite Hmax1, Hmax2, Hmin1, Hmin3. done.
Qed.

(** For a grey the hue is 0 as well. *)
Lemma rgbToHsv_grey n :
  0 ≤ n < 256 → rgbToHsv (byteColor n n n) = (0%f32, 0%f32, chan n).
Proof.
  intros Hn.
  assert (bool_decide (rgbToHsv (byteColor n n n) = (0%f32, 0%f32, chan n))
          = true) as H; [|by apply bool_decide_eq_true_1 in H].
  revert n Hn. apply forallb_bytes. vm_compute. reflexivity.
Qed.

End hsv_facts.

(** [rgbToHsv] on a colour with 8-bit channels.  The value is the largest
    channel divided by 255; value and saturation are finite numbers between
    0 and 1; and the saturation is 0 exactly for a grey, for which the hue
    is 0 too. *)
Theorem rgbToHsv_of_byte_color (r g b : Z) :
  (0 ≤ r < 256)%Z → (0 ≤ g < 256)%Z → (0 ≤ b < 256)%Z →
  ∃ h s v,
    noteshrink.rgbToHsv (byteColor r g b) = (h, s, v) ∧
    v = (f32.of_int (Z.max (Z.max r g) b) / 255)%f32 ∧
    f32.is_finite v = true ∧ f32.le 0%f32 v = true ∧ f32.le v 1%f32 = true ∧
    f32.is_finite s = true ∧ f32.le 0%f32 s = true ∧ f32.le s 1%f32 = true ∧
    (r = g ∧ g = b → h = 0%f32 ∧ s = 0%f32) ∧
    (¬ (r = g ∧ g = b) → (0 <? s)%f32 = true).
Proof.
  intros Hr Hg Hb.
  destruct (rgbToHsv_byteColor r g b Hr Hg Hb) as [Hv Hs].
  destruct (noteshrink.rgbToHsv (byteColor r g b)) as [[h s] v] eqn:Hhsv.
  cbn [fst snd] in Hv, Hs. exists h, s, v. split; [done|].
  split; [exact Hv|].
  destruct (chan_range (Z.max (Z.max r g) b) ltac:(lia)) as (Hf & H0 & H1).
  fold (chan (Z.max (Z.max r g) b)) in Hv. rewrite <- Hv in Hf, H0, H1.
  split; [done|]. split; [done|]. split; [done|].
  destruct (saturationOf_range (Z.max (Z.max r g) b) (Z.min (Z.min r g) b))
    as (_ & Hsf & Hs0 & Hs1 & Hgrey & Hcol); [lia|lia|].
  cbv zeta in *. rewrite <- Hs in Hsf, Hs0, Hs1, Hgrey, Hcol.
  split; [done|]. split; [done|]. split; [done|]. split.
  - intros [-> ->]. rewrite rgbToHsv_grey in Hhsv by done. by simplify_eq.
  - intros Hne. apply Hcol. lia.
Qed.

(** A grey with an 8-bit value survives the round trip through HSV
    unchanged: hue and saturation are 0, the value is the channel divided
    by 255, and [hsvToRgb] gives the three channels back exactly. *)
Theorem hsv_round_trip_of_grey (n : Z) :
  (0 ≤ n < 256)%Z →
  noteshrink.rgbToHsv (byteColor n n n)
  = (0%f32, 0%f32, (f32.of_int n / 255)%f32) ∧
  noteshrink.hsvToRgb 0%f32 0%f32 (f32.of_int n / 255)%f32 = byteColor n n n.
Proof.
  intros Hn. split; [by apply rgbToHsv_grey|].
  assert (bool_decide (noteshrink.hsvToRgb 0%f32 0%f32 (chan n)
                       = byteColor n n n) = true) as H;
    [|by apply bool_decide_eq_true_1 in H].
  revert n Hn. apply forallb_bytes. vm_compute. reflexivity.
Qed.

(** [round] at the 8-bit values and half-way between them: an integer is
    left as it is, and a half is rounded upwards. *)
Theorem round_of_byte_and_half (n : Z) :
  (0 ≤ n < 256)%Z →
  noteshrink.round (f32.of_int n) = f32.of_int n ∧
  noteshrink.round (f32.of_int (2 * n + 1) / f32.of_int 2)%f32
  = f32.of_int (n + 1).
Proof.
  intros Hn.
  assert (bool_decide (noteshrink.round (f32.of_int n) = f32.of_int n)
          && bool_decide
               (noteshrink.round (f32.of_int (2 * n + 1) / f32.of_int 2)%f32
                = f32.of_int (n + 1)) = true) as H.
  { revert n Hn. apply forallb_bytes. vm_compute. reflexivity. }
  apply andb_prop in H as [H1 H2].
  apply bool_decide_eq_true_1 in H1, H2. by split.
Qed.

(** ** Classification, remapping and stretching *)

Section classify_facts.

Import noteshrink.

(** Nothing is at a positive threshold from itself. *)
Lemma zero_below_threshold (t : float32) :
  (0 <? t)%f32 = true → (abs (0 - 0) >=? t)%f32 = false.
Proof. by destruct t as [[]|[]| |[] m e]. Qed.

Lemma abs_diff_self (x t : float32) :
  f32.is_finite x = true → (0 <? t)%f32 = true →
  (abs (x - x) >=? t)%f32 = false.
Proof.
  intros Hx Ht. rewrite sub_self by done.
  by destruct t as [[]|[]| |[] m e].
Qed.

(** An 8-bit colour is not foreground against itself when both thresholds
    are positive. *)
Lemma isForeground_self (c : rgbf) opt :
  isByteColor c →
  (0 <? BrightnessThreshold opt)%f32 = true →
  (0 <? SaturationThreshold opt)%f32 = true →
  isForeground c c opt = false.
Proof.
  intros (r & g & b & (Hr & Hg & Hb) & ->) Hbt Hst.
  destruct (rgbToHsv_byteColor r g b Hr Hg Hb) as [Hv Hs].
  destruct (chan_range (Z.max (Z.max r g) b) ltac:(lia)) as (Hvf & _).
  destruct (saturationOf_range (Z.max (Z.max r g) b) (Z.min (Z.min r g) b))
    as (_ & Hsf & _); [lia|lia|]. cbv zeta in Hsf.
  unfold isForeground.
  rewrite <- !rgbToHsv_value, <- !rgbToHsv_saturation, Hv, Hs, <- !abs_ge.
  by rewrite !abs_diff_self.
Qed.

(** The division of a zero is never positive. *)
Lemma zero_div_not_positive (d : float32) :
  ((S754_zero false / d) >? 0)%f32 = false.
Proof. by destruct d as [[]|[]| |[] m e]. Qed.

End classify_facts.

(** [createForegroundMask] never panics and returns one flag per sample,
    the flag of sample [i] being the classification of that sample against
    the reference colour.  A sample that is the reference colour itself, an
    8-bit colour, is background whenever both thresholds are positive. *)
Theorem createForegroundMask_one_flag_per_sample (bgColor : noteshrink.rgbf)
    (samples : list noteshrink.rgbf) (opt : noteshrink.Option) :
  ∃ mask,
    noteshrink.createForegroundMask bgColor samples opt = Ok mask ∧
    length mask = length samples ∧
    (∀ i p, samples !! i = Some p →
       mask !! i = Some (isForeground bgColor p opt)) ∧
    (isByteColor bgColor →
     (0 <? noteshrink.BrightnessThreshold opt)%f32 = true →
     (0 <? noteshrink.SaturationThreshold opt)%f32 = true →
     ∀ i, samples !! i = Some bgColor → mask !! i = Some false).
Proof.
  eexists. split; [apply createForegroundMask_map|].
  split; [by rewrite length_fmap|]. split.
  - intros i p Hp. by rewrite list_lookup_fmap, Hp.
  - intros Hbyte Hbt Hst i Hi. rewrite list_lookup_fmap, Hi. simpl.
    by rewrite isForeground_self.
Qed.

(** With a palette of one entry, [applyPalette] paints every pixel with the
    rendered background colour: the only entry has index 0, and index 0 is
    always replaced by the background. *)
Theorem applyPalette_single_entry (img : list noteshrink.rgbf)
    (c origBgColor bgColor : noteshrink.rgbf) (opt : noteshrink.Option) :
  noteshrink.applyPalette img [c] origBgColor bgColor opt
  = Ok (replicate (length img) bgColor).
Proof.
  destruct (noteshrink.applyPalette img [c] origBgColor bgColor opt)
    as [out|e] eqn:Hrun; [|by apply applyPalette_Panic_inv in Hrun].
  apply applyPalette_Ok_inv in Hrun. f_equal.
  apply list_eq_same_length with (length img);
    [by rewrite length_replicate|symmetry; by eapply Forall2_length|].
  intros i x y Hi Hx Hy. apply lookup_replicate in Hy as [-> _].
  destruct (lookup_lt_is_Some_2 img i Hi) as [p Hp].
  destruct (Forall2_lookup_l _ _ _ _ _ Hrun Hp) as (x' & Hx' & Hrem).
  assert (x' = x) as -> by congruence.
  apply remapped_color in Hrem as [->|(j & Hj & Hlook)]; [done|].
  apply lookup_lt_Some in Hlook. simpl in Hlook. lia.
Qed.

(** [saturatePalette] keeps the number of entries and stretches the
    saturations to the full range.  An entry whose saturation is the
    smallest one found becomes the grey of its value; an entry whose
    saturation is the largest one found gets the saturation 1, provided the
    computed range is a positive finite number. *)
Theorem saturatePalette_stretches_to_full_range
    (palette : list noteshrink.rgbf) :
  length (noteshrink.saturatePalette palette) = length palette ∧
  ∀ maxSat minSat i p h s v,
    saturationRange palette = (maxSat, minSat) →
    palette !! i = Some p →
    noteshrink.rgbToHsv p = (h, s, v) →
    (s = minSat → f32.is_finite minSat = true →
       noteshrink.saturatePalette palette !! i
       = Some (v * 255, v * 255, v * 255)%f32) ∧
    (s = maxSat →
     f32.is_finite (maxSat - minSat)%f32 = true →
     (0 <? maxSat - minSat)%f32 = true →
       noteshrink.saturatePalette palette !! i
       = Some (noteshrink.hsvToRgb h 1%f32 v)).
Proof.
  split; [apply saturatePalette_length|].
  intros maxSat minSat i p h s v Hrange Hp Hhsv.
  rewrite saturatePalette_range, Hrange, list_lookup_fmap, Hp.
  cbn [fmap option_fmap option_map]. rewrite Hhsv. split.
  - intros -> Hfin. f_equal. rewrite sub_self by done.
    unfold noteshrink.hsvToRgb. by rewrite zero_div_not_positive.
  - intros -> Hfin Hpos. do 2 f_equal.
    destruct (maxSat - minSat)%f32 as [[]|[]| |sd md ed]; try done.
    apply div_self_finite.
Qed.

(** ** The whole pipeline *)

Section pipeline_facts.

Import noteshrink.

Lemma load_length img :
  length (load img) = Z.to_nat (Dy img) * Z.to_nat (Dx img).
Proof.
  rewrite load_rows.
  apply (rows_lookup (λ y, (λ x, pixelOf img x y)
                             <$> seq 0 (Z.to_nat (Dx img)))).
  intros y. by rewrite length_fmap, length_seq.
Qed.

Lemma roundColor_zero : roundColor (0, 0, 0)%f32 = (0, 0, 0)%f32.
Proof. reflexivity. Qed.

(** For bounds that start at the origin every pixel is stored: the pixels
    are the remapped ones, in order. *)
Lemma Shrink_pixels_at_origin (input : Image) (result : list rgbf)
    (pix : list (Z * Z * Z * Z)) :
  let w := Z.to_nat (Dx input) in
  let h := Z.to_nat (Dy input) in
  MinX input = 0%Z → MinY input = 0%Z →
  length result = h * w → length pix = h * w →
  (∀ r c, r < h → c < w →
     pix !! (r * w + c) = Some (renderedAt input result c r)) →
  pix = rgba8 <$> result.
Proof.
  intros w h HX HY Hres Hpix Hat.
  apply list_eq_same_length with (h * w);
    [by rewrite length_fmap|done|].
  intros i x y Hi Hx Hy.
  assert (0 < w) as Hw by (destruct w; lia).
  assert (i = i / w * w + i mod w) as Hdec
    by (rewrite Nat.mul_comm; apply Nat.div_mod_eq).
  assert (i mod w < w) as Hc by (apply Nat.mod_upper_bound; lia).
  assert (i / w < h) as Hr by (apply Nat.Div0.div_lt_upper_bound; lia).
  rewrite Hdec, (Hat _ _ Hr Hc) in Hx.
  rewrite list_lookup_fmap in Hy.
  destruct (result !! i) as [p|] eqn:Hp; [|done].
  rewrite (renderedAt_origin input result (i / w) (i mod w) p) in Hx;
    [simpl in Hy; congruence|done|done|done|done|].
  fold w. by rewrite <- Hdec.
Qed.

(** What a run of [Shrink] that returns an image went through. *)
Lemma Shrink_Ok_pixels rnd input option out :
  let opt := default MakeDefaultOption option in
  let w := Z.to_nat (Dx input) in
  let h := Z.to_nat (Dy input) in
  Shrink rnd input option = Ok out →
  ∃ samples palette origBgColor result,
    samplePixels rnd (load input) opt = Ok samples ∧
    createPalette samples opt = Ok (palette, origBgColor) ∧
    applyPalette (load input)
      (if Saturate opt then saturatePalette palette else palette)
      origBgColor
      (if WhiteBackground opt then (255, 255, 255)%f32 else origBgColor) opt
    = Ok result ∧
    length result = h * w ∧
    length (Pix out) = h * w ∧
    ∀ r c, r < h → c < w →
      Pix out !! (r * w + c) = Some (renderedAt input result c r).
Proof.
  intros opt w h Hrun.
  destruct (Shrink_Ok_inv _ _ _ _ Hrun)
    as (samples & palette & bg & result & Hs & Hp & Hr & Hfill).
  exists samples, palette, bg, result.
  split; [done|]. split; [done|]. split; [done|].
  assert (0 ≤ Dx input ∧ 0 ≤ Dy input)%Z as [Hx Hy].
  { unfold NewRGBA in Hfill.
    destruct (Dx input <? 0)%Z eqn:Hdx; [done|].
    destruct (Dy input <? 0)%Z eqn:Hdy; [done|]. lia. }
  pose proof (Forall2_length _ _ _ (applyPalette_Ok_inv _ _ _ _ _ _ Hr))
    as Hlen.
  rewrite load_length in Hlen. fold w h in Hlen.
  destruct (Shrink_fill input result Hx Hy)
    as (out' & Hfill' & _ & _ & _ & _ & Hl & Hpix); [by fold w h|].
  pose proof (eq_trans (eq_sym Hfill') Hfill) as [= <-]. done.
Qed.

(** The pixels of an image returned by [Shrink]: four zeros, or the opaque
    8-bit form of the rendered background colour or of a palette entry of
    index at least 1. *)
Lemma Shrink_pixel_colors rnd input option out :
  let opt := default MakeDefaultOption option in
  (f32.min_int64 < NumColors opt ≤ f32.max_int64)%Z →
  Shrink rnd input option = Ok out →
  ∃ (palette : list rgbf) (bgColor : rgbf) (result : list rgbf),
    1 ≤ length palette ≤ Nat.max 1 (Z.to_nat (NumColors opt)) ∧
    length result
    = Z.to_nat (Dy input) * Z.to_nat (Dx input) ∧
    length (Pix out) = Z.to_nat (Dy input) * Z.to_nat (Dx input) ∧
    (∀ r c, r < Z.to_nat (Dy input) → c < Z.to_nat (Dx input) →
       Pix out !! (r * Z.to_nat (Dx input) + c)
       = Some (renderedAt input result c r)) ∧
    result ⊆ bgColor :: drop 1 palette.
Proof.
  intros opt Hint Hrun.
  destruct (Shrink_Ok_pixels _ _ _ _ Hrun)
    as (samples & palette & bg & result & _ & Hp & Hr & Hlen & Hpl & Hpix).
  fold opt in Hp, Hr.
  apply createPalette_Ok_length in Hp; [|done].
  set (palette' := if Saturate opt then saturatePalette palette
                   else palette) in Hr.
  set (bgColor := if WhiteBackground opt then _ else _) in Hr.
  exists palette', bgColor, result.
  split.
  { unfold palette'. destruct (Saturate opt);
      [rewrite saturatePalette_length|]; lia. }
  split; [done|]. split; [done|]. split; [done|].
  apply applyPalette_Ok_inv in Hr.
  intros c Hc. apply list_elem_of_lookup in Hc as [i Hi].
  destruct (Forall2_lookup_r _ _ _ _ _ Hr Hi) as (p & _ & Hpc).
  destruct (remapped_color _ _ _ _ _ _ Hpc) as [->|(j & Hj & Hc')];
    [left|right].
  apply list_elem_of_lookup. exists (j - 1).
  rewrite lookup_drop. by replace (1 + (j - 1)) with j by lia.
Qed.

Lemma length_remove_dups_subseteq {A} `{EqDecision A} (l k : list A) :
  l ⊆ k → length (remove_dups l) ≤ length k.
Proof.
  intros Hsub.
  apply submseteq_length, NoDup_submseteq; [apply NoDup_remove_dups|].
  intros x Hx. apply Hsub. by rewrite elem_of_remove_dups in Hx.
Qed.

End pipeline_facts.

(** When no sample is foreground, clustering has no data: the palette is
    the background colour followed by [NumColors - 1] black entries. *)
Theorem createPalette_without_foreground (samples : list noteshrink.rgbf)
    (opt : noteshrink.Option) (bgColor : noteshrink.rgbf) :
  samples ≠ [] →
  (2 ≤ noteshrink.NumColors opt ≤ f32.max_int64)%Z →
  (1 ≤ noteshrink.KmeansMaxIter opt)%Z →
  noteshrink.findBackgroundColor samples 6 = Ok bgColor →
  Forall (λ p, isForeground bgColor p opt = false) samples →
  noteshrink.createPalette samples opt
  = Ok (bgColor :: replicate (Z.to_nat (noteshrink.NumColors opt - 1))
                             (0, 0, 0)%f32,
        bgColor).
Proof.
  intros Hne Hk Hitr Hbg Hall.
  destruct (createPalette_run samples opt Hne Hk)
    as (bg' & means & Hbg' & Hmeans & _ & ->).
  assert (bg' = bgColor) as -> by congruence.
  assert (List.filter (λ p, isForeground bgColor p opt) samples = []) as Hnil.
  { clear -Hall. induction Hall as [|p l Hp _ IH]; [done|].
    simpl. by rewrite Hp. }
  rewrite Hnil, kMeans_no_data in Hmeans by lia.
  injection Hmeans as <-. by rewrite fmap_replicate.
Qed.

(** [Shrink] returns an image whenever at least one sample is drawn and at
    least two colours are asked for.  On an input of at most [2^24] pixels,
    with a sample fraction that is a binary32 number at most one and makes
    [int(float32(N) * f)] at least 1, and with [NumColors >= 2], no stage
    panics, whatever the random source draws.  The image has the bounds of
    the input and [Dy * Dx] pixels.  Its pixel in column [c] and row [r] is
    the opaque remapped pixel of index [y * Dx + x] when it lies at a point
    [(x, y)] that the loops visit, and four zeros otherwise; for bounds that
    start at the origin the pixels are the remapped pixels, in order. *)
Theorem Shrink_returns_an_image (rnd : nat → nat) (input : noteshrink.Image)
    (option : option noteshrink.Option) :
  let opt := default noteshrink.MakeDefaultOption option in
  let img := noteshrink.load input in
  let w := Z.to_nat (noteshrink.Dx input) in
  let h := Z.to_nat (noteshrink.Dy input) in
  (Z.of_nat (length img) ≤ 2 ^ 24)%Z →
  is_binary32 (noteshrink.SampleFraction opt) = true →
  f32.le (noteshrink.SampleFraction opt) 1%f32 = true →
  (1 ≤ noteshrink.numSamples img opt)%Z →
  (2 ≤ noteshrink.NumColors opt ≤ f32.max_int64)%Z →
  ∃ samples palette origBgColor result out,
    noteshrink.samplePixels rnd img opt = Ok samples ∧
    noteshrink.createPalette samples opt = Ok (palette, origBgColor) ∧
    noteshrink.applyPalette img
      (if noteshrink.Saturate opt then noteshrink.saturatePalette palette
       else palette)
      origBgColor
      (if noteshrink.WhiteBackground opt then (255, 255, 255)%f32
       else origBgColor) opt = Ok result ∧
    noteshrink.Shrink rnd input option = Ok out ∧
    noteshrink.RectMinX out = noteshrink.MinX input ∧
    noteshrink.RectMinY out = noteshrink.MinY input ∧
    noteshrink.RectDx out = noteshrink.Dx input ∧
    noteshrink.RectDy out = noteshrink.Dy input ∧
    length (noteshrink.Pix out) = h * w ∧
    (∀ r c, r < h → c < w →
       noteshrink.Pix out !! (r * w + c)
       = Some (renderedAt input result c r)) ∧
    (noteshrink.MinX input = 0%Z → noteshrink.MinY input = 0%Z →
     noteshrink.Pix out = rgba8 <$> result).
Proof.
  intros opt img w h Hsize Hvalid Hle Hone Hk.
  pose proof (numSamples_le_length img opt Hsize Hvalid Hle) as Hn.
  destruct (samplePixels_run rnd img opt Hn) as (samples & Hsamples & Hlen).
  assert (samples ≠ []) as Hne by (intros ->; simpl in Hlen; lia).
  destruct (createPalette_run samples opt Hne Hk)
    as (bg & means & _ & _ & _ & Hpal).
  set (palette := if noteshrink.Saturate opt
                  then noteshrink.saturatePalette (bg :: (roundColor <$> means))
                  else bg :: (roundColor <$> means)).
  set (bgColor := if noteshrink.WhiteBackground opt
                  then (255, 255, 255)%f32 else bg).
  assert (palette ≠ []) as Hpne.
  { intros Hnil. apply (f_equal length) in Hnil. revert Hnil.
    unfold palette. destruct (noteshrink.Saturate opt);
      [rewrite saturatePalette_length|]; done. }
  destruct (noteshrink.applyPalette img palette bg bgColor opt)
    as [result|e] eqn:Hres;
    [|by apply applyPalette_Panic_inv in Hres].
  pose proof (Forall2_length _ _ _ (applyPalette_Ok_inv _ _ _ _ _ _ Hres))
    as Hrlen.
  pose proof (load_length input) as Hload. fold img w h in Hload.
  assert (1 ≤ h * w) as Hpos.
  { rewrite <- Hload. destruct img; simpl in *; [|lia].
    pose proof (numSamples_empty opt). lia. }
  destruct (Shrink_fill input result)
    as (out & Hfill & R1 & R2 & R3 & R4 & R5 & R6);
    [unfold w, h in *; lia|unfold w, h in *; lia|fold w h; lia|].
  exists samples, (bg :: (roundColor <$> means)), bg, result, out.
  split; [done|]. split; [done|]. split; [done|]. split.
  { unfold noteshrink.Shrink. cbv zeta. fold opt img.
    rewrite Hsamples. cbn [mbind result_bind].
    rewrite Hpal. cbn [mbind result_bind].
    fold palette bgColor. rewrite Hres. cbn [mbind result_bind].
    exact Hfill. }
  split; [done|]. split; [done|]. split; [done|]. split; [done|].
  split; [done|]. split; [exact R6|].
  intros HX HY.
  apply (Shrink_pixels_at_origin input result);
    [done|done|fold w h; lia|exact R5|exact R6].
Qed.

(** Every colour written by [applyPalette] is the rendered background
    colour or a palette entry of index at least 1, so the output has no more
    distinct colours than the palette has entries (one, for a palette
    without entries); [applyPalette] panics only on an empty palette. *)
Theorem applyPalette_output_colors (img palette : list noteshrink.rgbf)
    (origBgColor bgColor : noteshrink.rgbf) (opt : noteshrink.Option) :
  match noteshrink.applyPalette img palette origBgColor bgColor opt with
  | Ok out =>
      Forall (λ c, c = bgColor ∨ ∃ i, 1 ≤ i ∧ palette !! i = Some c) out ∧
      length (remove_dups out) ≤ Nat.max 1 (length palette)
  | Panic _ => palette = []
  end.
Proof.
  destruct (noteshrink.applyPalette img palette origBgColor bgColor opt)
    as [out|e] eqn:Hrun; [|by eapply applyPalette_Panic_inv].
  apply applyPalette_Ok_inv in Hrun.
  assert (Forall (λ c, c = bgColor ∨ ∃ i, 1 ≤ i ∧ palette !! i = Some c) out)
    as Hout.
  { apply Forall_forall. intros c Hc.
    apply list_elem_of_lookup in Hc as [i Hi].
    destruct (Forall2_lookup_r _ _ _ _ _ Hrun Hi) as (p & _ & Hpc).
    by eapply remapped_color. }
  split; [done|].
  transitivity (length (bgColor :: drop 1 palette)).
  - apply length_remove_dups_subseteq. intros c Hc.
    rewrite Forall_forall in Hout.
    destruct (Hout c Hc) as [->|(i & Hi & Hc')]; [left|right].
    apply list_elem_of_lookup. exists (i - 1).
    rewrite lookup_drop. by replace (1 + (i - 1)) with i by lia.
  - simpl. rewrite length_drop. lia.
Qed.

(** An image returned by [Shrink] holds few colours.  Each of its pixels
    is the opaque 8-bit form of the rendered background colour or of a
    palette entry of index at least 1, or four zeros at a point that the
    storing loops did not reach.  So the image has at most [NumColors + 1]
    distinct pixels, and at most [NumColors] when the bounds of the input
    start at the origin, where every pixel is stored ([NumColors] counted
    as 1 when it is less). *)
Theorem Shrink_distinct_pixels (rnd : nat → nat) (input : noteshrink.Image)
    (option : option noteshrink.Option) (out : noteshrink.RGBA) :
  let opt := default noteshrink.MakeDefaultOption option in
  (f32.min_int64 < noteshrink.NumColors opt ≤ f32.max_int64)%Z →
  noteshrink.Shrink rnd input option = Ok out →
  length (remove_dups (noteshrink.Pix out))
  ≤ S (Nat.max 1 (Z.to_nat (noteshrink.NumColors opt))) ∧
  (noteshrink.MinX input = 0%Z → noteshrink.MinY input = 0%Z →
   length (remove_dups (noteshrink.Pix out))
   ≤ Nat.max 1 (Z.to_nat (noteshrink.NumColors opt))).
Proof.
  intros opt Hint Hrun.
  destruct (Shrink_pixel_colors _ _ _ _ Hint Hrun)
    as (palette & bgColor & result & Hpal & Hlen & Hpl & Hpix & Hsub).
  fold opt in Hpal.
  assert (length (rgba8 <$> (bgColor :: drop 1 palette))
          ≤ Nat.max 1 (Z.to_nat (noteshrink.NumColors opt))) as Hcount
    by (rewrite length_fmap; simpl; rewrite length_drop; lia).
  split.
  - transitivity
      (length ((0, 0, 0, 0)%Z :: (rgba8 <$> (bgColor :: drop 1 palette))));
      [|simpl in *; lia].
    apply length_remove_dups_subseteq. intros px Hpx.
    apply list_elem_of_lookup in Hpx as [i Hi].
    set (w := Z.to_nat (noteshrink.Dx input)) in *.
    set (h := Z.to_nat (noteshrink.Dy input)) in *.
    pose proof (lookup_lt_Some _ _ _ Hi) as Hlt. rewrite Hpl in Hlt.
    assert (0 < w) as Hw by (destruct w; lia).
    assert (i = i / w * w + i mod w) as Hdec
      by (rewrite Nat.mul_comm; apply Nat.div_mod_eq).
    assert (i mod w < w) as Hc by (apply Nat.mod_upper_bound; lia).
    assert (i / w < h) as Hr by (apply Nat.Div0.div_lt_upper_bound; lia).
    rewrite Hdec, (Hpix _ _ Hr Hc) in Hi. injection Hi as <-.
    destruct (renderedAt_cases input result (i mod w) (i / w))
      as [->|Hin]; [left|right].
    apply list_elem_of_fmap in Hin as (c & -> & Hc').
    apply list_elem_of_fmap. exists c. split; [done|]. by apply Hsub.
  - intros HX HY. etransitivity; [|exact Hcount].
    rewrite (Shrink_pixels_at_origin input result (noteshrink.Pix out))
      by done.
    apply length_remove_dups_subseteq. intros px Hpx.
    apply list_elem_of_fmap in Hpx as (c & -> & Hc').
    apply list_elem_of_fmap. exists c. split; [done|]. by apply Hsub.
Qed.

(** ** Concrete runs *)

(** Claim C2 at the samples black, white, white, black, black.  The
    quantized list holds the colour (2,2,2) three times and (254,254,254)
    twice; the most frequent is (2,2,2), and [findBackgroundColor] returns
    (254,254,254): the first sample is never entered in the count map. *)
Lemma findBackgroundColor_misses_most_frequent :
  let a := (f32.of_int 0, f32.of_int 0, f32.of_int 0) in
  let b := (255, 255, 255)%f32 in
  let samples := [a; b; b; a; a] in
  let qa := quantizeColor 6 a in
  let qb := quantizeColor 6 b in
  qa = (f32.of_int 2, f32.of_int 2, f32.of_int 2) ∧
  qb = (f32.of_int 254, f32.of_int 254, f32.of_int 254) ∧
  noteshrink.quantize samples 6 = Ok [qa; qb; qb; qa; qa] ∧
  mostFrequent [qa; qb; qb; qa; qa] = Some qa ∧
  noteshrink.findBackgroundColor samples 6 = Ok qb.
Proof. repeat split; vm_compute; reflexivity. Qed.

(** The round trip at the colour (255, 0, 2^-20), whose third channel is
    not an integer.  All channels lie in [0, 255]; [rgbToHsv] gives the
    hue 1 (the sum [h + 6] rounds to 6), [hsvToRgb] then takes no case of
    its switch and returns white, 255 away from the green channel of the
    input.  The pixels that [load] produces have integer channels, and no
    caller of [rgbToHsv] passes such a colour. *)
Lemma hsv_round_trip_loses_color :
  let c := (255%f32, 0%f32, S754_finite false 8388608 (-43)) in
  f32.le 0%f32 c.2 = true ∧ f32.le c.2 255%f32 = true ∧
  noteshrink.rgbToHsv c = (1%f32, 1%f32, 1%f32) ∧
  roundTrip c = (255, 255, 255)%f32 ∧
  ((roundTrip c).1.2 - c.1.2)%f32 = 255%f32 ∧
  withinTolerance c = false.
Proof. vm_compute. repeat split. Qed.

(** On the colours whose channels are multiples of 17 (a grid of 4096
    colours with 8-bit channels) the round trip stays within the
    tolerance: there the hue is below 1. *)
Lemma hsv_round_trip_on_grid :
  let grid := (λ i, f32.of_int (17 * i)) <$> seqZ 0 16 in
  forallb (λ r, forallb (λ g, forallb (λ b, withinTolerance (r, g, b))
                                      grid) grid) grid = true.
Proof. vm_compute. reflexivity. Qed.

(** At the hue 1, for every saturation that is positive and every value,
    [hsvToRgb] returns a grey: [int(h * 6)] is 6, which no case of the
    switch takes. *)
Lemma hsvToRgb_hue_one_is_grey (s v : float32) :
  (s >? 0)%f32 = true →
  noteshrink.hsvToRgb 1%f32 s v = (v * 255, v * 255, v * 255)%f32.
Proof. intros Hs. unfold noteshrink.hsvToRgb. rewrite Hs. reflexivity. Qed.

(** With [N = 100] and the fraction nearest to 0.29 the product rounds up
    to 29 in binary32, one more than the floor of the exact product. *)
Lemma samplePixels_rounds_product :
  let img := replicate 100 (0, 0, 0)%f32 in
  let opt := {| noteshrink.SampleFraction := (f32.of_int 29 / f32.of_int 100)%f32;
                noteshrink.BrightnessThreshold := 1%f32;
                noteshrink.SaturationThreshold := 1%f32;
                noteshrink.NumColors := 8;
                noteshrink.KmeansMaxIter := 40;
                noteshrink.Saturate := true;
                noteshrink.WhiteBackground := true |} in
  noteshrink.numSamples img opt = 29%Z ∧
  f32.floor_scaled 100 (noteshrink.SampleFraction opt) = 28%Z.
Proof. split; vm_compute; reflexivity. Qed.

(** The rounding of [round] is done on the binary32 sum [v + 0.5].  A
    cluster of 82 points whose channel values add up to 41 has the centre
    [41 * (1/82)], just below one half in binary32, and [round] makes it 1. *)
Lemma round_of_centre_below_half :
  let c := (f32.of_int 41 * (1 / f32.of_int 82))%f32 in
  (c <? f32.of_int 1 / f32.of_int 2)%f32 = true ∧
  noteshrink.round c = f32.of_int 1.
Proof. split; vm_compute; reflexivity. Qed.

(** A palette of one grey with 8-bit channels has equal largest and smallest
    saturation, and [saturatePalette] returns it as it is: the grey of a
    grey is itself. *)
Lemma saturatePalette_keeps_grey :
  forallb (λ x, let grey := (f32.of_int x, f32.of_int x, f32.of_int x) in
                bool_decide (noteshrink.saturatePalette [grey] = [grey]))
          (seqZ 0 256) = true.
Proof. vm_compute. reflexivity. Qed.

(** Claim C1 on an image of two pixels, a light one and a dark one, with
    the original background colour (250, 250, 250), white as the rendered
    background colour and the default thresholds.  The light pixel is
    background and comes out white; the dark one is foreground, its nearest
    palette entry has index 1, and it comes out as that entry. *)
Lemma applyPalette_remaps_every_pixel_witness :
  let light := (f32.of_int 250, f32.of_int 250, f32.of_int 248) in
  let dark := (f32.of_int 10, f32.of_int 10, f32.of_int 10) in
  let bg := (f32.of_int 250, f32.of_int 250, f32.of_int 250) in
  let white := (255, 255, 255)%f32 in
  let palette := [bg; (f32.of_int 12, f32.of_int 12, f32.of_int 12)] in
  isForeground bg light noteshrink.MakeDefaultOption = false ∧
  isForeground bg dark noteshrink.MakeDefaultOption = true ∧
  noteshrink.applyPalette [light; dark] palette bg white
    noteshrink.MakeDefaultOption
  = Ok [white; (f32.of_int 12, f32.of_int 12, f32.of_int 12)].
Proof.
  intros light dark bg white palette.
  assert (isForeground bg light noteshrink.MakeDefaultOption = false) as Hl
    by (vm_compute; reflexivity).
  assert (isForeground bg dark noteshrink.MakeDefaultOption = true) as Hd
    by (vm_compute; reflexivity).
  split; [exact Hl|]. split; [exact Hd|].
  generalize (applyPalette_remaps_every_pixel [light; dark] palette bg white
                noteshrink.MakeDefaultOption).
  destruct (noteshrink.applyPalette [light; dark] palette bg white
              noteshrink.MakeDefaultOption) as [out|e];
    [|intros Hp; discriminate Hp].
  intros [Hlen Hout].
  pose proof (Hout 0 light eq_refl) as H0. rewrite Hl in H0.
  pose proof (Hout 1 dark eq_refl) as H1. rewrite Hd in H1.
  destruct H1 as (m & cm & (cm' & Hcm' & Hleast & _) & Hcm & H1).
  destruct m as [|[|m]]; [|clear Hleast|discriminate Hcm].
  - specialize (Hleast 1 _ eq_refl).
    injection Hcm' as <-. vm_compute in Hleast. discriminate Hleast.
  - injection Hcm as <-.
    destruct out as [|a [|b [|c out]]]; try discriminate Hlen.
    injection H0 as ->. injection H1 as ->. reflexivity.
Defined.

(** Claim C10 on an image of 3 x 3 pixels whose bounds run from (1, 1) to
    (4, 4): the pixel at (1, 1) is black and the other eight are white;
    outside its bounds the image gives four zeros.  Every pixel is sampled
    and two colours are asked for.  [load] reads the points (0, 0) to
    (2, 2), five of which lie outside the bounds, and [SetRGBA] stores at
    the same points, four of which lie inside: the other five pixels of the
    returned image keep the four zeros they were created with.  The image
    holds three distinct colours. *)
Lemma Shrink_ignores_bounds_origin :
  let input := {| noteshrink.MinX := 1; noteshrink.MinY := 1;
                  noteshrink.Dx := 3; noteshrink.Dy := 3;
                  noteshrink.At := λ x y,
                    if (1 <=? x)%Z && (x <? 4)%Z && (1 <=? y)%Z && (y <? 4)%Z
                    then (if (x =? 1)%Z && (y =? 1)%Z
                          then (0, 0, 0, 65535)%Z
                          else (65535, 65535, 65535, 65535)%Z)
                    else (0, 0, 0, 0)%Z |} in
  let opt := {| noteshrink.SampleFraction := 1%f32;
                noteshrink.BrightnessThreshold := (f32.of_int 1 / f32.of_int 4)%f32;
                noteshrink.SaturationThreshold := (f32.of_int 1 / f32.of_int 5)%f32;
                noteshrink.NumColors := 2;
                noteshrink.KmeansMaxIter := 40;
                noteshrink.Saturate := false;
                noteshrink.WhiteBackground := false |} in
  let pix := [(2, 2, 2, 255); (255, 255, 255, 255); (0, 0, 0, 0);
              (255, 255, 255, 255); (255, 255, 255, 255); (0, 0, 0, 0);
              (0, 0, 0, 0); (0, 0, 0, 0); (0, 0, 0, 0)]%Z in
  noteshrink.load input
  = [byteColor 0 0 0; byteColor 0 0 0; byteColor 0 0 0;
     byteColor 0 0 0; byteColor 0 0 0; byteColor 255 255 255;
     byteColor 0 0 0; byteColor 255 255 255; byteColor 255 255 255] ∧
  noteshrink.Shrink (λ i, i) input (Some opt)
  = Ok {| noteshrink.Pix := pix;
          noteshrink.RectMinX := 1; noteshrink.RectMinY := 1;
          noteshrink.RectDx := 3; noteshrink.RectDy := 3 |} ∧
  length (remove_dups pix) = 3 ∧
  noteshrink.NumColors opt = 2%Z.
Proof. repeat split; vm_compute; reflexivity. Qed.

(** Claim C3 on two samples with the default options. *)
Lemma createPalette_length_and_order_witness :
  let samples := [(f32.of_int 250, f32.of_int 250, f32.of_int 248);
                  (f32.of_int 10, f32.of_int 10, f32.of_int 10)] in
  ∃ palette bgColor,
    noteshrink.createPalette samples noteshrink.MakeDefaultOption
    = Ok (palette, bgColor) ∧
    Z.of_nat (length palette) = 8%Z.
Proof.
  intros samples.
  destruct (createPalette_length_and_order samples noteshrink.MakeDefaultOption)
    as (bgColor & means & _ & _ & _ & Hrun & Hlen).
  - discriminate.
  - vm_compute. split; discriminate.
  - exists (bgColor :: (roundColor <$> means)), bgColor.
    split; [exact Hrun|exact Hlen].
Defined.

(** Claim C4 on the palette that holds pure red alone. *)
Lemma saturatePalette_equal_saturation_gives_grey_witness :
  noteshrink.saturatePalette [(255, 0, 0)%f32] = greyOf <$> [(255, 0, 0)%f32].
Proof.
  apply (saturatePalette_equal_saturation_gives_grey [(255, 0, 0)%f32] 1%f32).
  - discriminate.
  - repeat constructor.
  - reflexivity.
  - reflexivity.
  - reflexivity.
Defined.

(** Claim C5 on an image of one pixel with the sample fraction 0. *)
Lemma Shrink_does_not_validate_witness :
  let input := {| noteshrink.MinX := 0; noteshrink.MinY := 0;
                  noteshrink.Dx := 1; noteshrink.Dy := 1;
                  noteshrink.At := λ _ _, (65535, 65535, 65535, 65535)%Z |} in
  let opt := {| noteshrink.SampleFraction := 0%f32;
                noteshrink.BrightnessThreshold := (f32.of_int 1 / f32.of_int 4)%f32;
                noteshrink.SaturationThreshold := (f32.of_int 1 / f32.of_int 5)%f32;
                noteshrink.NumColors := 8;
                noteshrink.KmeansMaxIter := 40;
                noteshrink.Saturate := true;
                noteshrink.WhiteBackground := true |} in
  noteshrink.Shrink (λ _, 0) input (Some opt) = Panic (IndexOutOfRange 0 0).
Proof.
  intros input opt.
  destruct (Shrink_does_not_validate (λ _, 0) input (Some opt)) as [Hbad _].
  apply Hbad. left. reflexivity.
Defined.

(** Claim C7 on four pixels with the sample fraction one half. *)
Lemma samplePixels_count_witness :
  let img := replicate 4 (0, 0, 0)%f32 in
  let opt := {| noteshrink.SampleFraction := (f32.of_int 1 / f32.of_int 2)%f32;
                noteshrink.BrightnessThreshold := (f32.of_int 1 / f32.of_int 4)%f32;
                noteshrink.SaturationThreshold := (f32.of_int 1 / f32.of_int 5)%f32;
                noteshrink.NumColors := 8;
                noteshrink.KmeansMaxIter := 40;
                noteshrink.Saturate := true;
                noteshrink.WhiteBackground := true |} in
  (Z.of_nat (length img) ≤ 2 ^ 24)%Z ∧
  is_binary32 (noteshrink.SampleFraction opt) = true ∧
  f32.le (noteshrink.SampleFraction opt) 1%f32 = true ∧
  ∃ samples,
    noteshrink.samplePixels (λ i, i) img opt = Ok samples ∧
    length samples = 2.
Proof.
  intros img opt.
  assert (Z.of_nat (length img) ≤ 2 ^ 24)%Z as Hsize by (simpl; lia).
  assert (is_binary32 (noteshrink.SampleFraction opt) = true) as Hvalid
    by (vm_compute; reflexivity).
  assert (f32.le (noteshrink.SampleFraction opt) 1%f32 = true) as Hle
    by (vm_compute; reflexivity).
  split; [exact Hsize|]. split; [exact Hvalid|]. split; [exact Hle|].
  destruct (samplePixels_count (λ i, i) img opt Hsize Hvalid Hle)
    as (samples & Hrun & Hlen & _).
  exists samples. split; [exact Hrun|].
  change (noteshrink.numSamples img opt) with 2%Z in Hlen. lia.
Defined.

(** Claim C8 on three points and three centres, the third of which has no
    point: the first centre is the point of cluster 0, the second one the
    sum (22, 22, 22) of the points of cluster 1 times one half, and the
    third one the zero vector. *)
Lemma kMeans_update_recomputes_means_witness :
  let p := byteColor 10 10 10 in
  let q := byteColor 200 0 0 in
  let r := byteColor 12 12 12 in
  ∃ mLen',
    noteshrink.kMeans_update [p; q; r] [1; 0; 1] (noteshrink.kMeans_seeds 3)
      [0%Z; 0%Z; 0%Z]
    = Ok ([q; byteColor 11 11 11; (0, 0, 0)%f32], mLen').
Proof.
  intros p q r.
  destruct (kMeans_update_recomputes_means [p; q; r] [1; 0; 1]
              (noteshrink.kMeans_seeds 3) [0%Z; 0%Z; 0%Z])
    as (means' & mLen' & Hrun & Hlen & Hc).
  - reflexivity.
  - reflexivity.
  - repeat constructor.
  - exists mLen'. rewrite Hrun. do 2 f_equal.
    destruct (Hc 0) as [H0 _]; [vm_compute; lia|].
    destruct (Hc 1) as [H1 _]; [vm_compute; lia|].
    destruct (Hc 2) as [_ H2]; [vm_compute; lia|].
    specialize (H0 ltac:(discriminate)).
    specialize (H1 ltac:(discriminate)).
    specialize (H2 eq_refl).
    destruct means' as [|a [|b [|c [|d means']]]]; try discriminate Hlen.
    injection H0 as ->. injection H1 as ->. injection H2 as ->.
    vm_compute. reflexivity.
Defined.

(** Claim C8 at white points in one cluster, whose mean is white, 255 in
    every channel.  With seven points the sum 1785 times the binary32
    reciprocal of 7 is [255 + 2^-16].  With 140000 points the sum is no
    longer exact once it has passed [2^24], and the centre is about 255.53
    in every channel, which [round] makes 256. *)
Lemma kMeans_update_is_not_the_mean :
  let white := (255, 255, 255)%f32 in
  let c7 := S754_finite false 16711681 (-16) in
  let c := S754_finite false 16746416 (-16) in
  noteshrink.kMeans_update (replicate 7 white) (replicate 7 0)
    [(0, 0, 0)%f32] [0%Z]
  = Ok ([(c7, c7, c7)], [7%Z]) ∧
  (255 <? c7)%f32 = true ∧
  (∃ mLen',
     noteshrink.kMeans_update (replicate (Z.to_nat 140000) white)
       (replicate (Z.to_nat 140000) 0) [(0, 0, 0)%f32] [0%Z]
     = Ok ([(c, c, c)], mLen')) ∧
  (f32.of_int 511 / f32.of_int 2 <? c)%f32 = true ∧
  noteshrink.round c = f32.of_int 256.
Proof.
  intros white c7 c.
  split; [vm_compute; reflexivity|]. split; [vm_compute; reflexivity|].
  split; [|split; vm_compute; reflexivity].
  destruct (kMeans_update_run (replicate (Z.to_nat 140000) white)
              (replicate (Z.to_nat 140000) 0) [(0, 0, 0)%f32] [0%Z])
    as (means' & mLen' & Hrun & Hlen & _ & Hc).
  - by rewrite !length_replicate.
  - reflexivity.
  - apply Forall_replicate. simpl. lia.
  - exists mLen'. rewrite Hrun. do 2 f_equal.
    specialize (Hc 0 ltac:(simpl; lia)).
    assert (match members 0 (replicate (Z.to_nat 140000) white)
                    (replicate (Z.to_nat 140000) 0) with
            | [] => (0, 0, 0)%f32
            | pts => meanRGB pts
            end = (c, c, c)) as Hval by (vm_compute; reflexivity).
    rewrite Hval in Hc.
    destruct means' as [|a [|b means']]; try discriminate Hlen.
    injection Hc as ->. reflexivity.
Qed.

(** ** The further properties on concrete inputs *)

(** [load] on an image of 2 x 2 points: four pixels, the last one being
    that of the point (1, 1). *)
Lemma load_row_major_witness :
  let img := {| noteshrink.MinX := 0; noteshrink.MinY := 0;
                  noteshrink.Dx := 2; noteshrink.Dy := 2;
                noteshrink.At := λ x y, (257 * x, 257 * y, 0, 65535)%Z |} in
  length (noteshrink.load img) = 4 ∧
  noteshrink.load img !! 3 = Some (byteColor 1 1 0).
Proof.
  intros img. destruct (load_row_major img) as (Hlen & Hlook & _).
  split; [exact Hlen|]. apply (Hlook 1 1); simpl; lia.
Defined.

(** [quantize] with 6 bits on the colour (10, 200, 255). *)
Lemma quantize_bin_centres_witness :
  ∃ out,
    noteshrink.quantize [byteColor 10 200 255] 6 = Ok out ∧
    out !! 0 = Some (byteColor 10 202 254).
Proof.
  destruct (quantize_bin_centres [byteColor 10 200 255] 6)
    as (out & Hrun & _ & Hout); [lia|].
  exists out. split; [exact Hrun|].
  apply (Hout 0 10%Z 200%Z 255%Z); [lia|reflexivity].
Defined.

(** [quantize] without a bit per channel. *)
Lemma quantize_shifts_everything_out_witness :
  noteshrink.quantize [byteColor 10 200 255] 0 = Ok [byteColor 0 0 0].
Proof.
  apply (quantize_shifts_everything_out [byteColor 10 200 255] 0).
  left. reflexivity.
Defined.

(** [kMeans] with two clusters and without an iteration. *)
Lemma kMeans_outcome_by_cluster_count_witness :
  ∃ means,
    noteshrink.kMeans [byteColor 10 10 10] 2 0 = Ok means ∧
    length means = 2 ∧ means = noteshrink.kMeans_seeds 2.
Proof.
  destruct (kMeans_outcome_by_cluster_count [byteColor 10 10 10] 2 0)
    as [Hpos _].
  destruct Hpos as (means & Hrun & Hlen & Hseeds); [lia|].
  exists means. split; [exact Hrun|]. split; [exact Hlen|].
  apply Hseeds. lia.
Defined.

(** [kMeans] with two clusters and one iteration on two points: each
    point is alone in its cluster and is its centre. *)
Lemma kMeans_centres_are_cluster_means_witness :
  let data := [byteColor 250 0 0; byteColor 250 250 250] in
  ∃ clusters,
    noteshrink.kMeans data 2 1 = Ok data ∧
    length clusters = 2 ∧
    ∀ c, c < 2 →
      (members c data clusters ≠ [] →
         data !! c = Some (meanRGB (members c data clusters))) ∧
      (members c data clusters = [] → data !! c = Some (0, 0, 0)%f32).
Proof.
  intros data.
  destruct (kMeans_centres_are_cluster_means data 2 1)
    as (means & clusters & Hrun & _ & Hlen & _ & Hc); [lia|lia|].
  assert (noteshrink.kMeans data 2 1 = Ok data) as Hval
    by (vm_compute; reflexivity).
  rewrite Hval in Hrun. injection Hrun as <-.
  exists clusters. split; [reflexivity|]. split; [exact Hlen|exact Hc].
Defined.

(** [kMeans] with three clusters and no data. *)
Lemma kMeans_without_data_witness :
  noteshrink.kMeans [] 3 1
  = Ok [(0, 0, 0)%f32; (0, 0, 0)%f32; (0, 0, 0)%f32].
Proof. apply (kMeans_without_data 3 1); lia. Defined.

(** The reassignment of two points to two centres, from the assignment
    that has both in cluster 0: the second point moves to cluster 1, whose
    centre is its nearest, and one change is counted. *)
Lemma kMeans_reassign_moves_to_nearest_witness :
  let data := [byteColor 10 10 10; byteColor 240 240 240] in
  let means := [byteColor 0 0 0; byteColor 255 255 255] in
  noteshrink.kMeans_reassign data means [0; 0] = Ok ([0; 1], 1%Z) ∧
  is_nearest (byteColor 10 10 10) means 0 ∧
  is_nearest (byteColor 240 240 240) means 1.
Proof.
  intros data means.
  destruct (kMeans_reassign_moves_to_nearest data means [0; 0])
    as (clusters' & changes & Hrun & _ & Hnear & _);
    [discriminate|reflexivity|].
  assert (noteshrink.kMeans_reassign data means [0; 0] = Ok ([0; 1], 1%Z))
    as Hval by (vm_compute; reflexivity).
  rewrite Hval in Hrun. injection Hrun as <- <-.
  split; [reflexivity|]. split.
  - destruct (Hnear 0 _ eq_refl) as (m & [= <-] & Hm). exact Hm.
  - destruct (Hnear 1 _ eq_refl) as (m & [= <-] & Hm). exact Hm.
Defined.

(** Half of four pixels, drawn without replacement. *)
Lemma samplePixels_without_replacement_witness :
  let img := [byteColor 1 1 1; byteColor 2 2 2; byteColor 3 3 3;
              byteColor 4 4 4] in
  let opt := {| noteshrink.SampleFraction := (f32.of_int 1 / f32.of_int 2)%f32;
                noteshrink.BrightnessThreshold := (f32.of_int 1 / f32.of_int 4)%f32;
                noteshrink.SaturationThreshold := (f32.of_int 1 / f32.of_int 5)%f32;
                noteshrink.NumColors := 8;
                noteshrink.KmeansMaxIter := 40;
                noteshrink.Saturate := true;
                noteshrink.WhiteBackground := true |} in
  ∃ samples,
    noteshrink.samplePixels (λ i, i) img opt = Ok samples ∧ samples ⊆+ img.
Proof.
  intros img opt.
  destruct (samplePixels_without_replacement (λ i, i) img opt)
    as (samples & shuffled & Hrun & _ & _ & Hsub);
    [simpl; lia|vm_compute; reflexivity|vm_compute; reflexivity|].
  exists samples. split; [exact Hrun|exact Hsub].
Defined.

(** All of four pixels, with the sample fraction 1. *)
Lemma samplePixels_full_fraction_witness :
  let img := [byteColor 1 1 1; byteColor 2 2 2; byteColor 3 3 3;
              byteColor 4 4 4] in
  let opt := {| noteshrink.SampleFraction := 1%f32;
                noteshrink.BrightnessThreshold := (f32.of_int 1 / f32.of_int 4)%f32;
                noteshrink.SaturationThreshold := (f32.of_int 1 / f32.of_int 5)%f32;
                noteshrink.NumColors := 8;
                noteshrink.KmeansMaxIter := 40;
                noteshrink.Saturate := true;
                noteshrink.WhiteBackground := true |} in
  ∃ samples,
    noteshrink.samplePixels (λ i, i) img opt = Ok samples ∧ samples ≡ₚ img.
Proof.
  intros img opt.
  apply (samplePixels_full_fraction (λ i, i) img opt);
    [simpl; lia|reflexivity].
Defined.

(** [rgbToHsv] on pure red: the value is 1 and the saturation is
    positive. *)
Lemma rgbToHsv_of_byte_color_witness :
  ∃ h s v,
    noteshrink.rgbToHsv (byteColor 255 0 0) = (h, s, v) ∧
    v = (f32.of_int 255 / 255)%f32 ∧ (0 <? s)%f32 = true.
Proof.
  destruct (rgbToHsv_of_byte_color 255 0 0)
    as (h & s & v & Hhsv & Hv & _ & _ & _ & _ & _ & _ & _ & Hpos);
    [lia|lia|lia|].
  exists h, s, v. split; [exact Hhsv|]. split; [exact Hv|].
  apply Hpos. intros [H _]. discriminate H.
Defined.

(** The round trip of the grey 128. *)
Lemma hsv_round_trip_of_grey_witness :
  noteshrink.hsvToRgb 0%f32 0%f32 (f32.of_int 128 / 255)%f32
  = byteColor 128 128 128.
Proof. apply (hsv_round_trip_of_grey 128). lia. Defined.

(** [round] at 7 and at 7.5. *)
Lemma round_of_byte_and_half_witness :
  noteshrink.round (f32.of_int 7) = f32.of_int 7 ∧
  noteshrink.round (f32.of_int 15 / f32.of_int 2)%f32 = f32.of_int 8.
Proof. apply (round_of_byte_and_half 7). lia. Defined.

(** The mask of a white and a black sample against white, with the default
    thresholds: the white one is background. *)
Lemma createForegroundMask_one_flag_per_sample_witness :
  ∃ mask,
    noteshrink.createForegroundMask (byteColor 255 255 255)
      [byteColor 255 255 255; byteColor 0 0 0] noteshrink.MakeDefaultOption
    = Ok mask ∧
    mask !! 0 = Some false.
Proof.
  destruct (createForegroundMask_one_flag_per_sample (byteColor 255 255 255)
              [byteColor 255 255 255; byteColor 0 0 0]
              noteshrink.MakeDefaultOption)
    as (mask & Hrun & _ & _ & Hself).
  exists mask. split; [exact Hrun|]. apply Hself.
  - exists 255%Z, 255%Z, 255%Z. split; [lia|reflexivity].
  - reflexivity.
  - reflexivity.
  - reflexivity.
Defined.

(** The stretch of a palette that holds pure red and a grey: the grey,
    least saturated, stays a grey, and red, most saturated, keeps the
    saturation 1. *)
Lemma saturatePalette_stretches_to_full_range_witness :
  let palette := [byteColor 255 0 0; byteColor 128 128 128] in
  noteshrink.saturatePalette palette !! 1
  = Some (f32.of_int 128 / 255 * 255, f32.of_int 128 / 255 * 255,
          f32.of_int 128 / 255 * 255)%f32 ∧
  noteshrink.saturatePalette palette !! 0
  = Some (noteshrink.hsvToRgb 0%f32 1%f32 1%f32).
Proof.
  intros palette.
  destruct (saturatePalette_stretches_to_full_range palette) as [_ Hall].
  split.
  - apply (Hall 1%f32 0%f32 1 (byteColor 128 128 128) 0%f32 0%f32
             (f32.of_int 128 / 255)%f32); reflexivity.
  - apply (Hall 1%f32 0%f32 0 (byteColor 255 0 0) 0%f32 1%f32 1%f32);
      reflexivity.
Defined.

(** The palette of two white samples with the default options: the
    background followed by seven black entries. *)
Lemma createPalette_without_foreground_witness :
  noteshrink.createPalette [byteColor 255 255 255; byteColor 255 255 255]
    noteshrink.MakeDefaultOption
  = Ok (byteColor 254 254 254 :: replicate 7 (0, 0, 0)%f32,
        byteColor 254 254 254).
Proof.
  apply (createPalette_without_foreground
           [byteColor 255 255 255; byteColor 255 255 255]
           noteshrink.MakeDefaultOption (byteColor 254 254 254)).
  - discriminate.
  - simpl. unfold f32.max_int64. lia.
  - simpl. lia.
  - reflexivity.
  - repeat constructor.
Defined.

(** [Shrink] on an image of 2 x 2 points, one of them dark, with every
    pixel sampled and two colours: the dark pixel keeps its colour and the
    three light ones get the background colour. *)
Lemma Shrink_returns_an_image_witness :
  let input := {| noteshrink.MinX := 0; noteshrink.MinY := 0;
                  noteshrink.Dx := 2; noteshrink.Dy := 2;
                  noteshrink.At := λ x y,
                    if (x + y =? 0)%Z then (2570, 2570, 2570, 65535)%Z
                    else (64250, 64250, 63736, 65535)%Z |} in
  let opt := {| noteshrink.SampleFraction := 1%f32;
                noteshrink.BrightnessThreshold := (f32.of_int 1 / f32.of_int 4)%f32;
                noteshrink.SaturationThreshold := (f32.of_int 1 / f32.of_int 5)%f32;
                noteshrink.NumColors := 2;
                noteshrink.KmeansMaxIter := 40;
                noteshrink.Saturate := false;
                noteshrink.WhiteBackground := false |} in
  let pix := [(10, 10, 10, 255); (250, 250, 250, 255);
              (250, 250, 250, 255); (250, 250, 250, 255)]%Z in
  ∃ result,
    noteshrink.Shrink (λ i, i) input (Some opt)
    = Ok {| noteshrink.Pix := pix;
            noteshrink.RectMinX := 0; noteshrink.RectMinY := 0;
            noteshrink.RectDx := 2; noteshrink.RectDy := 2 |} ∧
    noteshrink.applyPalette (noteshrink.load input)
      [byteColor 250 250 250; byteColor 10 10 10] (byteColor 250 250 250)
      (byteColor 250 250 250) opt = Ok result ∧
    pix = rgba8 <$> result.
Proof.
  intros input opt pix.
  destruct (Shrink_returns_an_image (λ i, i) input (Some opt))
    as (samples & palette & bg & result & out & Hs & Hpal & Hres & Hrun & _
        & _ & _ & _ & _ & _ & Horigin).
  - simpl. lia.
  - reflexivity.
  - reflexivity.
  - vm_compute. discriminate.
  - simpl. unfold f32.max_int64. lia.
  - assert (noteshrink.Shrink (λ i, i) input (Some opt)
            = Ok {| noteshrink.Pix := pix;
                    noteshrink.RectMinX := 0; noteshrink.RectMinY := 0;
                    noteshrink.RectDx := 2; noteshrink.RectDy := 2 |})
      as Hval by (vm_compute; reflexivity).
    specialize (Horigin eq_refl eq_refl).
    rewrite Hval in Hrun. injection Hrun as <-.
    vm_compute in Hs. injection Hs as <-.
    vm_compute in Hpal. injection Hpal as <- <-.
    exists result. split; [reflexivity|]. split; [|exact Horigin].
    exact Hres.
Defined.

(** [Shrink] on the same image: two distinct pixels, as many as colours
    were asked for. *)
Lemma Shrink_distinct_pixels_witness :
  let input := {| noteshrink.MinX := 0; noteshrink.MinY := 0;
                  noteshrink.Dx := 2; noteshrink.Dy := 2;
                  noteshrink.At := λ x y,
                    if (x + y =? 0)%Z then (2570, 2570, 2570, 65535)%Z
                    else (64250, 64250, 63736, 65535)%Z |} in
  let opt := {| noteshrink.SampleFraction := 1%f32;
                noteshrink.BrightnessThreshold := (f32.of_int 1 / f32.of_int 4)%f32;
                noteshrink.SaturationThreshold := (f32.of_int 1 / f32.of_int 5)%f32;
                noteshrink.NumColors := 2;
                noteshrink.KmeansMaxIter := 40;
                noteshrink.Saturate := false;
                noteshrink.WhiteBackground := false |} in
  let out := {| noteshrink.Pix := [(10, 10, 10, 255); (250, 250, 250, 255);
                                   (250, 250, 250, 255);
                                   (250, 250, 250, 255)]%Z;
                noteshrink.RectMinX := 0; noteshrink.RectMinY := 0;
                noteshrink.RectDx := 2; noteshrink.RectDy := 2 |} in
  noteshrink.Shrink (λ i, i) input (Some opt) = Ok out ∧
  length (remove_dups (noteshrink.Pix out)) ≤ 2.
Proof.
  intros input opt out.
  assert (noteshrink.Shrink (λ i, i) input (Some opt) = Ok out) as Hrun
    by (vm_compute; reflexivity).
  split; [exact Hrun|].
  apply (Shrink_distinct_pixels (λ i, i) input (Some opt) out).
  - vm_compute. split; [reflexivity|discriminate].
  - exact Hrun.
  - reflexivity.
  - reflexivity.
Defined.
